(** * Crossword CSP solver (generate.py): shallow embedding and properties

    The class [CrosswordCreator] of [generate.py] is embedded as Rocq
    functions that pass the domain store [self.domains] and the assignment
    explicitly.  Python sets and dicts are lists that carry their iteration
    order: a domain is a [list word] without duplicates, the domain store
    and the assignment are association lists in insertion order (the order
    Python guarantees for a dict).  Python does not fix the iteration
    order of a set: the order of the pool and of the slot set is an input
    of the model, and for a set rebuilt from another one (by the
    comprehension of [enforce_node_consistency], by [set()] and [add] in
    [revise]) the model takes the order of the set it was built from,
    which is one of the orders Python may produce.  The general theorems
    on domains are therefore stated on membership; an order appears only
    in evaluations on a concrete input, where it is part of the input.
    Exceptions and the two loops without a structural bound ([ac3] and the
    recursion of [backtrack]) are made explicit by the [outcome] type. *)

From Stdlib Require Import List String Ascii Bool Arith NArith Lia Permutation Sorted.
Import ListNotations.
Local Open Scope string_scope.
Local Open Scope list_scope.
Local Open Scope nat_scope.

Set Implicit Arguments.

(** ** Outcomes: a returned value, a raised exception, or exhausted fuel *)

Inductive outcome (A : Type) : Type :=
| Ret (a : A)
| Raise
| Timeout.

Arguments Ret {A} a.
Arguments Raise {A}.
Arguments Timeout {A}.

Definition bind {A B : Type} (c : outcome A) (k : A -> outcome B) : outcome B :=
  match c with
  | Ret a => k a
  | Raise => Raise
  | Timeout => Timeout
  end.

Notation "x <- c1 ;; c2" := (bind c1 (fun x => c2))
  (at level 61, c1 at next level, right associativity).
Notation "' pat <- c1 ;; c2" := (bind c1 (fun x => match x with pat => c2 end))
  (at level 61, pat pattern, c1 at next level, right associativity).

(** [d.get(k)] followed by a use that needs a real value: [None] raises. *)
Definition of_option {A : Type} (o : option A) : outcome A :=
  match o with
  | Some a => Ret a
  | None => Raise
  end.

(** ** Data model *)

Inductive Direction : Type := ACROSS | DOWN.

(** Modelled from the spec: the class [Variable] is defined outside
    [generate.py]; a slot is identified by its starting cell, its direction
    and its length, the attributes [i], [j], [direction] and [length] that
    [generate.py] reads. *)
Record Slot : Type := mkSlot {
  var_i : nat;
  var_j : nat;
  var_direction : Direction;
  var_length : nat
}.

Definition word : Type := string.

Definition direction_eqb (d1 d2 : Direction) : bool :=
  match d1, d2 with
  | ACROSS, ACROSS | DOWN, DOWN => true
  | _, _ => false
  end.

Definition slot_eqb (a b : Slot) : bool :=
  (var_i a =? var_i b) && (var_j a =? var_j b)
  && direction_eqb (var_direction a) (var_direction b)
  && (var_length a =? var_length b).

Definition word_eqb (a b : word) : bool := String.eqb a b.

(** Modelled from the spec: the class [Crossword] is defined outside
    [generate.py]; the solver reads its slot set [variables], its word pool
    [words] and its overlap table [overlaps], which is defined for all
    ordered pairs of slots and gives either no relation or the pair of
    indices that must agree.  The lists give the iteration order of the
    underlying Python sets. *)
Record Crossword : Type := mkCrossword {
  variables : list Slot;
  words : list word;
  overlaps : Slot -> Slot -> option (nat * nat)
}.

(** Modelled from the spec: [crossword.neighbors] is defined outside
    [generate.py]; the neighbor relation of a slot is the set of slots with
    which it has a defined overlap. *)
Definition neighbors (cw : Crossword) (var : Slot) : list Slot :=
  filter (fun v => negb (slot_eqb v var)
                   && match overlaps cw v var with Some _ => true | None => false end)
         (variables cw).

(** The domain store [self.domains] and an assignment, both dicts keyed by
    slots. *)
Definition domains : Type := list (Slot * list word).
Definition assignment : Type := list (Slot * word).

Section Dict.
Variable V : Type.

Fixpoint dict_get (d : list (Slot * V)) (k : Slot) : option V :=
  match d with
  | [] => None
  | (k', v) :: rest => if slot_eqb k' k then Some v else dict_get rest k
  end.

(** [d[k] = v]: an existing key keeps its place, a new key goes last. *)
Fixpoint dict_set (d : list (Slot * V)) (k : Slot) (v : V) : list (Slot * V) :=
  match d with
  | [] => [(k, v)]
  | (k', v') :: rest =>
      if slot_eqb k' k then (k', v) :: rest else (k', v') :: dict_set rest k v
  end.

(** [del d[k]], used on a key that is present. *)
Fixpoint dict_del (d : list (Slot * V)) (k : Slot) : list (Slot * V) :=
  match d with
  | [] => []
  | (k', v') :: rest =>
      if slot_eqb k' k then rest else (k', v') :: dict_del rest k
  end.

Definition dict_mem (d : list (Slot * V)) (k : Slot) : bool :=
  match dict_get d k with Some _ => true | None => false end.

Definition dict_keys (d : list (Slot * V)) : list Slot := map fst d.
End Dict.

Definition mem_word (w : word) (l : list word) : bool := existsb (word_eqb w) l.

(** [w1[i] == w2[j]]; an index out of range raises [IndexError]. *)
Definition char_eq (w1 : word) (i : nat) (w2 : word) (j : nat) : outcome bool :=
  match String.get i w1 with
  | None => Raise
  | Some a =>
      match String.get j w2 with
      | None => Raise
      | Some b => Ret (Ascii.eqb a b)
      end
  end.

(** ** The solver *)

Section Creator.
Variable cw : Crossword.

(** [__init__]: every slot starts with a copy of the whole pool. *)
Definition init_domains : domains :=
  map (fun var => (var, words cw)) (variables cw).

(** [enforce_node_consistency]: each domain is replaced by the set of its
    words of the slot's length.  The new set is listed in the order of the
    old one; Python leaves the order of the set built by the comprehension
    open, so only the members are meant. *)
Definition enforce_node_consistency (st : domains) : domains :=
  map (fun '(variable, ws) =>
         (variable, filter (fun w => String.length w =? var_length variable) ws))
      st.

(** The inner loop of [revise] for one [xWord]: does some [yWord] make the
    test [xWord != yWord and xWord[xCross] == yWord[yCross]] true?  The
    loop has no [break], so every [yWord] is examined. *)
Fixpoint has_support (xWord : word) (xCross yCross : nat) (yWords : list word)
  : outcome bool :=
  match yWords with
  | [] => Ret false
  | yWord :: rest =>
      hit <- (if word_eqb xWord yWord then Ret false
              else char_eq xWord xCross yWord yCross) ;;
      more <- has_support xWord xCross yCross rest ;;
      Ret (hit || more)
  end.

(** The outer loop of [revise]: [newWords] collects the supported words.
    The set filled by [add] is listed in the order of [xWords]; Python
    leaves its iteration order open, so only the members are meant. *)
Fixpoint revise_words (xWords : list word) (xCross yCross : nat)
         (yWords : list word) : outcome (list word) :=
  match xWords with
  | [] => Ret []
  | xWord :: rest =>
      keep <- has_support xWord xCross yCross yWords ;;
      newWords <- revise_words rest xCross yCross yWords ;;
      Ret (if keep then xWord :: newWords else newWords)
  end.

(** [revise(x, y)].  A missing domain is [None] in the source and raises
    when a loop iterates over it; the loop over [yWords] is only reached
    when [xWords] has a word.  [self.domains[x] = newWords] is executed
    whether or not a word was removed. *)
Definition revise (x y : Slot) (st : domains) : outcome (bool * domains) :=
  match overlaps cw x y with
  | None => Ret (false, st)
  | Some (xCross, yCross) =>
      xWords <- of_option (dict_get st x) ;;
      newWords <-
        match xWords with
        | [] => Ret []
        | _ :: _ =>
            yWords <- of_option (dict_get st y) ;;
            revise_words xWords xCross yCross yWords
        end ;;
      Ret (List.length newWords <? List.length xWords, dict_set st x newWords)
  end.

(** The worklist is a deque used as a stack: [append] pushes and [pop]
    takes from the same end, which is the head of the list here. *)
Definition arc : Type := (Slot * Slot)%type.

Definition push_arcs (new : list arc) (queue : list arc) : list arc :=
  rev new ++ queue.

(** The default worklist, in the order the arcs are appended: for each
    slot [x] of the store, for each neighbor [y] of [x]. *)
Definition all_arcs (st : domains) : list arc :=
  flat_map (fun x => map (fun y => (x, y)) (neighbors cw x)) (dict_keys st).

(** The [while arc_queue] loop of [ac3]. *)
Fixpoint ac3_loop (fuel : nat) (st : domains) (arc_queue : list arc)
  : outcome (bool * domains) :=
  match arc_queue with
  | [] => Ret (true, st)
  | (x, y) :: queue =>
      match fuel with
      | O => Timeout
      | S fuel' =>
          '(isRevised, st') <- revise x y st ;;
          if isRevised then
            ws <- of_option (dict_get st' x) ;;
            if List.length ws =? 0 then Ret (false, st')
            else
              ac3_loop fuel' st'
                (push_arcs
                   (map (fun z => (z, x))
                        (filter (fun z => negb (slot_eqb z y)) (neighbors cw x)))
                   queue)
          else ac3_loop fuel' st' queue
      end
  end.

Definition total_size (st : domains) : nat :=
  list_sum (map (fun e => List.length (snd e)) st).

(** Enough fuel for the loop to finish (see [ac3_loop_enough_fuel]). *)
Definition ac3_fuel (st : domains) (arc_queue : list arc) : nat :=
  total_size st * S (List.length (variables cw)) + List.length arc_queue.

(** [ac3(arcs=None)]. *)
Definition ac3 (arcs : option (list arc)) (st : domains)
  : outcome (bool * domains) :=
  let arc_queue :=
    match arcs with
    | None => push_arcs (all_arcs st) []
    | Some given => push_arcs given []
    end in
  ac3_loop (ac3_fuel st arc_queue) st arc_queue.

(** [assignment_complete]: [len(assignment) == len(self.domains)]. *)
Definition assignment_complete (a : assignment) (st : domains) : bool :=
  List.length a =? List.length st.

(** The second loop nest of [consistent]: for each entry of the
    assignment, the inner loop over all entries.  [Ret false] is the early
    [return False]; [assignment[var]] is the value of the entry itself. *)
Fixpoint consistent_row (var1 : Slot) (word1 : word) (rest : assignment)
  : outcome bool :=
  match rest with
  | [] => Ret true
  | (var2, word2) :: rest' =>
      if slot_eqb var1 var2 then consistent_row var1 word1 rest'
      else
        match overlaps cw var1 var2 with
        | None => consistent_row var1 word1 rest'
        | Some (i, j) =>
            same <- char_eq word1 i word2 j ;;
            if same then consistent_row var1 word1 rest' else Ret false
        end
  end.

Fixpoint consistent_rows (a : assignment) (rest : assignment) : outcome bool :=
  match rest with
  | [] => Ret true
  | (var1, word1) :: rest' =>
      ok <- consistent_row var1 word1 a ;;
      if ok then consistent_rows a rest' else Ret false
  end.

(** The test [key.length != len(val)] of the first loop of [consistent]. *)
Definition wrong_length (item : Slot * word) : bool :=
  let '(key, val) := item in negb (var_length key =? String.length val).

(** [consistent(assignment)]: [self.ac3()] first, then the two checks. *)
Definition consistent (a : assignment) (st : domains) : outcome (bool * domains) :=
  '(_, st') <- ac3 None st ;;
  if existsb wrong_length a
  then Ret (false, st')
  else
    ok <- consistent_rows a a ;;
    Ret (ok, st').

(** [sorted(values, key=...)]: the sort is stable; the keys are computed
    once.  A stable insertion sort on the decorated list. *)
Fixpoint insert_by_key (kv : nat * word) (l : list (nat * word)) : list (nat * word) :=
  match l with
  | [] => [kv]
  | h :: t => if fst kv <=? fst h then kv :: l else h :: insert_by_key kv t
  end.

Fixpoint sort_by_key (l : list (nat * word)) : list (nat * word) :=
  match l with
  | [] => []
  | kv :: t => insert_by_key kv (sort_by_key t)
  end.

(** Innermost loop of [order_domain_values]. *)
Fixpoint count_matches (value : word) (cross : option (nat * nat))
         (neighbor_values : list word) (count : nat) : outcome nat :=
  match neighbor_values with
  | [] => Ret count
  | neighbor_value :: rest =>
      '(c0, c1) <- of_option cross ;;
      same <- char_eq value c0 neighbor_value c1 ;;
      count_matches value cross rest (if same then count + 1 else count)
  end.

Fixpoint count_neighbors (var : Slot) (value : word) (st : domains)
         (nbrs : list Slot) (count : nat) : outcome nat :=
  match nbrs with
  | [] => Ret count
  | neighbor :: rest =>
      neighbor_values <- of_option (dict_get st neighbor) ;;
      count' <- count_matches value (overlaps cw var neighbor) neighbor_values count ;;
      count_neighbors var value st rest count'
  end.

Fixpoint constr_num (var : Slot) (st : domains) (nbrs : list Slot)
         (values : list word) : outcome (list (nat * word)) :=
  match values with
  | [] => Ret []
  | value :: rest =>
      count <- count_neighbors var value st nbrs 0 ;;
      tl <- constr_num var st nbrs rest ;;
      Ret ((count, value) :: tl)
  end.

(** [order_domain_values(var, assignment)]: [constrNumDict] is kept as the
    list of the pairs (count, value), in the order of [values]. *)
Definition order_domain_values (var : Slot) (a : assignment) (st : domains)
  : outcome (list word) :=
  let nbrs := filter (fun v => negb (dict_mem a v)) (neighbors cw var) in
  values <- of_option (dict_get st var) ;;
  constrNumDict <- constr_num var st nbrs values ;;
  Ret (map snd (sort_by_key constrNumDict)).

(** The starting value [min_val_size = 10000]. *)
Definition min_val_size_init : nat := 100 * 100.

(** The loop of [select_unassigned_variable] over the unassigned items;
    the state is [(selected_key, min_val_size)].  In the tie branch with
    nothing selected yet the source calls [self.crossword.neighbors(None)];
    the puzzle model answers for slots only, so the call raises. *)
Fixpoint select_loop (unassigned : domains) (selected_key : option Slot)
         (min_val_size : nat) : outcome (option Slot) :=
  match unassigned with
  | [] => Ret selected_key
  | (k, v) :: rest =>
      if List.length v <? min_val_size then select_loop rest (Some k) (List.length v)
      else if min_val_size =? List.length v then
        match selected_key with
        | None => Raise
        | Some sel =>
            select_loop rest
              (Some (if List.length (neighbors cw sel) <? List.length (neighbors cw k)
                     then k else sel))
              min_val_size
        end
      else select_loop rest selected_key min_val_size
  end.

Definition select_unassigned_variable (a : assignment) (st : domains)
  : outcome (option Slot) :=
  let unassigned := filter (fun '(k, _) => negb (dict_mem a k)) st in
  select_loop unassigned None min_val_size_init.

(** The [for value in ...] loop of [backtrack]; [rec] is the recursive
    call.  The result pairs the returned assignment (or [None]) with the
    domain store the call leaves behind. *)
Fixpoint backtrack_loop
         (rec : assignment -> domains -> outcome (option assignment * domains))
         (unassigned_var : Slot) (values : list word)
         (a : assignment) (st : domains)
  : outcome (option assignment * domains) :=
  match values with
  | [] => Ret (None, st)
  | value :: rest =>
      '(_, st1) <- consistent a st ;;
      current <- order_domain_values unassigned_var a st1 ;;
      if mem_word value current then
        let a' := dict_set a unassigned_var value in
        let st2 := dict_set st1 unassigned_var [value] in
        '(result, st3) <- rec a' st2 ;;
        match result with
        | Some res => Ret (Some res, st3)
        | None =>
            backtrack_loop rec unassigned_var rest (dict_del a' unassigned_var) st3
        end
      else backtrack_loop rec unassigned_var rest a st1
  end.

(** [backtrack(assignment)].  When no slot is selected the source goes on
    with [order_domain_values(None, assignment)], which iterates over
    [self.domains.get(None)], that is over [None], and raises.  One unit of
    fuel is used per level of the recursion. *)
Fixpoint backtrack (fuel : nat) (a : assignment) (st : domains)
  : outcome (option assignment * domains) :=
  if assignment_complete a st then Ret (Some a, st)
  else
    match fuel with
    | O => Timeout
    | S fuel' =>
        sel <- select_unassigned_variable a st ;;
        match sel with
        | None => Raise
        | Some unassigned_var =>
            values <- order_domain_values unassigned_var a st ;;
            backtrack_loop (backtrack fuel') unassigned_var values a st
        end
    end.

(** [solve()]: the value returned by [self.ac3()] is not used. *)
Definition solve : outcome (option assignment * domains) :=
  let st := enforce_node_consistency init_domains in
  '(_, st') <- ac3 None st ;;
  backtrack (List.length (variables cw)) [] st'.

End Creator.

(** ** Specification-side notions *)

Unset Implicit Arguments.

(** [wx] at index [ix] and [wy] at index [iy] satisfy the test of [revise]:
    different words, same character. *)
Definition compatible (wx : word) (ix : nat) (wy : word) (iy : nat) : Prop :=
  wx <> wy /\ exists c, String.get ix wx = Some c /\ String.get iy wy = Some c.

(** The domain of a slot, empty for a slot the store does not know. *)
Definition dom (st : domains) (x : Slot) : list word :=
  match dict_get st x with
  | Some ws => ws
  | None => []
  end.

(** Every word of [domain(x)] has a compatible partner in [domain(y)]. *)
Definition arc_consistent (cw : Crossword) (st : domains) (x y : Slot) : Prop :=
  forall i j, overlaps cw x y = Some (i, j) ->
  forall w, In w (dom st x) -> exists w', In w' (dom st y) /\ compatible w i w' j.

(** The length invariant of the domain store. *)
Definition node_consistent (st : domains) : Prop :=
  forall v ws, In (v, ws) st -> forall w, In w ws -> String.length w = var_length v.

(** Properties of the puzzle model the solver relies on: overlap indices
    lie inside the two slots, the overlap table is symmetric with swapped
    indices, no slot overlaps itself, and the slot set and the word pool,
    being sets, have no duplicate. *)
Record wf_crossword (cw : Crossword) : Prop := {
  overlaps_in_range : forall x y i j,
      overlaps cw x y = Some (i, j) -> i < var_length x /\ j < var_length y;
  overlaps_symmetric : forall x y i j,
      overlaps cw x y = Some (i, j) -> overlaps cw y x = Some (j, i);
  overlaps_irrefl : forall x, overlaps cw x x = None;
  variables_nodup : NoDup (variables cw);
  words_nodup : NoDup (words cw)
}.

Arguments overlaps_in_range {cw} _ _ _ _ _ _.
Arguments overlaps_symmetric {cw} _ _ _ _ _ _.
Arguments overlaps_irrefl {cw} _ _.
Arguments variables_nodup {cw} _.
Arguments words_nodup {cw} _.

(** The store has exactly the slots of the crossword as keys, in order. *)
Definition store_of (cw : Crossword) (st : domains) : Prop :=
  dict_keys st = variables cw.

(** Order-preserving sub-list: what is left of a domain after pruning. *)
Inductive subseq {A : Type} : list A -> list A -> Prop :=
| subseq_nil : subseq [] []
| subseq_skip : forall x l' l, subseq l' l -> subseq l' (x :: l)
| subseq_keep : forall x l' l, subseq l' l -> subseq (x :: l') (x :: l).

(** [store_le st' st]: same slots, every domain of [st'] pruned from [st]. *)
Definition store_le (st' st : domains) : Prop :=
  Forall2 (fun e' e => fst e' = fst e /\ subseq (snd e') (snd e)) st' st.

(** ** The run of [ac3] with its calls of [revise] recorded *)



Section Recorded.
Variable cw : Crossword.



(** ** [backtrack] with the verdict of [consistent] taken out

    The variant the search is compared with: the call
    [self.consistent(assignment)] is replaced by a bare [self.ac3()]. *)
Fixpoint backtrack_loop_ac3
         (rec : assignment -> domains -> outcome (option assignment * domains))
         (unassigned_var : Slot) (values : list word)
         (a : assignment) (st : domains)
  : outcome (option assignment * domains) :=
  match values with
  | [] => Ret (None, st)
  | value :: rest =>
      '(_, st1) <- ac3 cw None st ;;
      current <- order_domain_values cw unassigned_var a st1 ;;
      if mem_word value current then
        let a' := dict_set a unassigned_var value in
        let st2 := dict_set st1 unassigned_var [value] in
        '(result, st3) <- rec a' st2 ;;
        match result with
        | Some res => Ret (Some res, st3)
        | None =>
            backtrack_loop_ac3 rec unassigned_var rest
                               (dict_del a' unassigned_var) st3
        end
      else backtrack_loop_ac3 rec unassigned_var rest a st1
  end.

Fixpoint backtrack_ac3 (fuel : nat) (a : assignment) (st : domains)
  : outcome (option assignment * domains) :=
  if assignment_complete a st then Ret (Some a, st)
  else
    match fuel with
    | O => Timeout
    | S fuel' =>
        sel <- select_unassigned_variable cw a st ;;
        match sel with
        | None => Raise
        | Some unassigned_var =>
            values <- order_domain_values cw unassigned_var a st ;;
            backtrack_loop_ac3 (backtrack_ac3 fuel') unassigned_var values a st
        end
    end.

(** ** The score of [order_domain_values], as the contract states it *)

Definition char_match (w : word) (i : nat) (w' : word) (j : nat) : bool :=
  match String.get i w, String.get j w' with
  | Some c, Some c' => Ascii.eqb c c'
  | _, _ => false
  end.

Definition unassigned_neighbors (var : Slot) (a : assignment) : list Slot :=
  filter (fun n => negb (dict_mem a n)) (neighbors cw var).

(** The number of pairs (neighbor, neighbor candidate) whose overlap
    character matches the character of [w] at the overlap index. *)
Definition score (var : Slot) (a : assignment) (st : domains) (w : word) : nat :=
  List.length
    (filter (fun p : Slot * word =>
               match overlaps cw var (fst p) with
               | Some (i, j) => char_match w i (snd p) j
               | None => false
               end)
            (flat_map (fun n => map (fun w' => (n, w')) (dom st n))
                      (unassigned_neighbors var a))).

(** The test of the innermost loop, for one neighbor candidate and for
    one (neighbor, candidate) pair. *)
Definition cross_match (value : word) (cross : option (nat * nat)) (w' : word) : bool :=
  match cross with
  | Some (i, j) => char_match value i w' j
  | None => false
  end.

Definition pair_match (var : Slot) (value : word) (p : Slot * word) : bool :=
  match overlaps cw var (fst p) with
  | Some (i, j) => char_match value i (snd p) j
  | None => false
  end.

Definition candidate_pairs (st : domains) (nbrs : list Slot) : list (Slot * word) :=
  flat_map (fun n => map (fun w' => (n, w')) (dom st n)) nbrs.

(** ** What a solution is *)

(** A complete assignment that meets the length and overlap-character
    invariants. *)
Definition complete (a : assignment) : Prop :=
  forall x, In x (variables cw) -> exists w, dict_get a x = Some w.

Definition lengths_ok (a : assignment) : Prop :=
  forall x w, dict_get a x = Some w -> String.length w = var_length x.

Definition overlaps_ok (a : assignment) : Prop :=
  forall x y i j wx wy,
    x <> y -> overlaps cw x y = Some (i, j) ->
    dict_get a x = Some wx -> dict_get a y = Some wy ->
    exists c, String.get i wx = Some c /\ String.get j wy = Some c.

Definition sound (a : assignment) : Prop :=
  complete a /\ lengths_ok a /\ overlaps_ok a.

(** A choice of one pool word per slot that fits all lengths and in which
    crossing slots hold different words agreeing on the shared letter. *)
Definition distinct_solution (sol : Slot -> word) : Prop :=
  (forall x, In x (variables cw) ->
             In (sol x) (words cw) /\ String.length (sol x) = var_length x) /\
  (forall x y i j, In x (variables cw) -> In y (variables cw) ->
                   overlaps cw x y = Some (i, j) -> compatible (sol x) i (sol y) j).
End Recorded.

(** ** Auxiliary notions of the proofs *)

(** Words of the domains can be indexed at the overlap positions. *)
Definition indexable (cw : Crossword) (st : domains) : Prop :=
  forall x y i j, overlaps cw x y = Some (i, j) ->
    (forall w, In w (dom st x) -> i < String.length w) /\
    (forall w, In w (dom st y) -> j < String.length w).

(** The arcs [ac3] queues again after a revision of [x] against [y]. *)
Definition requeue (cw : Crossword) (x y : Slot) : list arc :=
  map (fun z => (z, x)) (filter (fun z => negb (slot_eqb z y)) (neighbors cw x)).

(** Both ends of every queued arc are slots of the store. *)
Definition known_arcs (st : domains) (q : list arc) : Prop :=
  forall x y, In (x, y) q -> dict_get st x <> None /\ dict_get st y <> None.

(** Worklist invariant of [ac3]: an arc that is not queued is consistent. *)
Definition worklist_inv (cw : Crossword) (st : domains) (q : list arc) : Prop :=
  forall x y, In x (variables cw) -> In y (variables cw) ->
              overlaps cw x y <> None ->
              In (x, y) q \/ arc_consistent cw st x y.

(** The overlap indices lie inside the two slots. *)
Definition overlap_indices_in_range (cw : Crossword) : Prop :=
  forall x y i j, overlaps cw x y = Some (i, j) -> i < var_length x /\ j < var_length y.

(** Every assigned word has the length of its slot. *)
Definition lengths_match (a : assignment) : Prop :=
  forall key val, In (key, val) a -> var_length key = String.length val.

(** Order of the decorated list sorted by [order_domain_values]. *)
Definition key_le (p q : nat * word) : Prop := fst p <= fst q.

(** Every slot still has the word a solution gives it. *)
Definition keeps (cw : Crossword) (sol : Slot -> word) (st : domains) : Prop :=
  forall x, In x (variables cw) -> In (sol x) (dom st x).

(** Both ends of every queued arc are slots of the puzzle. *)
Definition arcs_of_puzzle (cw : Crossword) (q : list arc) : Prop :=
  forall x y, In (x, y) q -> In x (variables cw) /\ In y (variables cw).

(** The assignment names distinct slots of the store, whose keys are
    distinct too. *)
Definition assignment_fits (a : assignment) (st : domains) : Prop :=
  NoDup (dict_keys st) /\ NoDup (dict_keys a) /\ incl (dict_keys a) (dict_keys st).

(** ** Concrete puzzles *)

(** The cells a slot covers, as [letter_grid] computes them. *)
Definition cells (v : Slot) : list (nat * nat) :=
  map (fun k => (var_i v + match var_direction v with DOWN => k | ACROSS => 0 end,
                 var_j v + match var_direction v with ACROSS => k | DOWN => 0 end))
      (seq 0 (var_length v)).

Definition cell_eqb (c1 c2 : nat * nat) : bool :=
  (fst c1 =? fst c2) && (snd c1 =? snd c2).

Fixpoint cell_index (c : nat * nat) (l : list (nat * nat)) : option nat :=
  match l with
  | [] => None
  | h :: t => if cell_eqb h c then Some 0 else option_map S (cell_index c t)
  end.

Fixpoint first_shared (l1 l2 : list (nat * nat)) (k : nat) : option (nat * nat) :=
  match l1 with
  | [] => None
  | c :: t =>
      match cell_index c l2 with
      | Some j => Some (k, j)
      | None => first_shared t l2 (S k)
      end
  end.

(** Modelled from the spec: the overlap table is built outside
    [generate.py]; two distinct slots that cross overlap at the shared cell,
    with the index of that cell in each of them. *)
Definition grid_overlaps (x y : Slot) : option (nat * nat) :=
  if slot_eqb x y then None else first_shared (cells x) (cells y) 0.

Definition mem_slot (x : Slot) (l : list Slot) : bool := existsb (slot_eqb x) l.

(** The overlap table is a dict over the pairs of slots of the puzzle:
    outside of them a lookup finds nothing. *)
Definition overlap_table (vars : list Slot) (x y : Slot) : option (nat * nat) :=
  if mem_slot x vars && mem_slot y vars then grid_overlaps x y else None.

Definition puzzle (vars : list Slot) (pool : list word) : Crossword :=
  mkCrossword vars pool (overlap_table vars).

(** A decision procedure for [wf_crossword] on such puzzles. *)
Fixpoint nodup_slots (l : list Slot) : bool :=
  match l with
  | [] => true
  | x :: t => negb (mem_slot x t) && nodup_slots t
  end.

Definition pair_ok (cw : Crossword) (x y : Slot) : bool :=
  match overlaps cw x y with
  | None => true
  | Some (i, j) =>
      (i <? var_length x) && (j <? var_length y) && negb (slot_eqb x y)
      && match overlaps cw y x with
         | Some (j', i') => (i =? i') && (j =? j')
         | None => false
         end
  end.

Fixpoint nodup_words (l : list word) : bool :=
  match l with
  | [] => true
  | w :: t => negb (mem_word w t) && nodup_words t
  end.

Definition slots_check (cw : Crossword) : bool :=
  nodup_slots (variables cw)
  && forallb (fun x => forallb (pair_ok cw x) (variables cw)) (variables cw).

Definition wf_check (cw : Crossword) : bool :=
  nodup_words (words cw) && slots_check cw.

(** Two slots of length 2 that cross at their first cell. *)
Definition corner_across : Slot := mkSlot 0 0 ACROSS 2.
Definition corner_down : Slot := mkSlot 0 0 DOWN 2.

Definition corner_puzzle : Crossword :=
  puzzle [corner_across; corner_down] ["XY"; "ZZZ"].

(** A grid of two rows of four joined by two columns of three:
<<
      1111
      1010
      1111
>> *)
Definition top_across : Slot := mkSlot 0 0 ACROSS 4.
Definition bottom_across : Slot := mkSlot 2 0 ACROSS 4.
Definition left_down : Slot := mkSlot 0 0 DOWN 3.
Definition right_down : Slot := mkSlot 0 2 DOWN 3.

Definition ladder_puzzle : Crossword :=
  puzzle [right_down; top_across; left_down; bottom_across]
         ["BCAA"; "ABB"; "BBCB"; "ACB"; "BBA"; "AABB"; "CCC"].

(** The assignment [solve] returns on [ladder_puzzle]. *)
Definition ladder_result : assignment :=
  [(top_across, "BBCB"); (left_down, "BBA");
   (bottom_across, "AABB"); (right_down, "ABB")].

(** A ring of four slots of length 3 around a filled centre:
<<
      111
      101
      111
>> *)
Definition ring_top : Slot := mkSlot 0 0 ACROSS 3.
Definition ring_bottom : Slot := mkSlot 2 0 ACROSS 3.
Definition ring_right : Slot := mkSlot 0 2 DOWN 3.
Definition ring_left : Slot := mkSlot 0 0 DOWN 3.

Definition ring_puzzle : Crossword :=
  puzzle [ring_top; ring_bottom; ring_right; ring_left]
         ["CCC"; "BBA"; "CAB"; "BCA"; "CCB"].

(** The store of [ring_puzzle] after the propagation phase of [solve]. *)
Definition ring_store : domains :=
  [(ring_top, ["CCC"; "CAB"; "CCB"]);
   (ring_bottom, ["BBA"; "CAB"; "BCA"; "CCB"]);
   (ring_right, ["BBA"; "CAB"; "BCA"; "CCB"]);
   (ring_left, ["CCC"; "CAB"; "CCB"])].

(** A single slot of length 14 and a pool with one word more than the
    starting value of [min_val_size]: the numbers 0, 1, ..., 10000 written
    with 14 binary digits, [A] for 0 and [B] for 1. *)
Definition bit_letter (b : bool) : ascii := if b then "B"%char else "A"%char.

Fixpoint bits_word (digits : nat) (n : N) : word :=
  match digits with
  | O => EmptyString
  | S digits' => String (bit_letter (N.odd n)) (bits_word digits' (N.div2 n))
  end.

Definition big_word (n : N) : word := bits_word 14 n.

(** The number a word of the pool was made from. *)
Fixpoint decode_word (w : word) : N :=
  match w with
  | EmptyString => 0%N
  | String c rest => ((if Ascii.eqb c "B" then 1 else 0) + 2 * decode_word rest)%N
  end.

Fixpoint N_range (count : nat) (start : N) : list N :=
  match count with
  | O => []
  | S count' => start :: N_range count' (N.succ start)
  end.

Definition big_pool : list word := map big_word (N_range (S min_val_size_init) 0%N).

Definition lone_slot : Slot := mkSlot 0 0 ACROSS 14.

Definition big_puzzle : Crossword := puzzle [lone_slot] big_pool.

(** A row of three crossing a column of two at their first cell. *)
Definition cat_across : Slot := mkSlot 0 0 ACROSS 3.
Definition cat_down : Slot := mkSlot 0 0 DOWN 2.

Definition cat_puzzle : Crossword :=
  puzzle [cat_across; cat_down] ["CAT"; "CO"; "DOG"; "AT"].

Definition cat_solution (s : Slot) : word :=
  if slot_eqb s cat_across then "CAT" else "CO".

(** ** Rendering: [letter_grid] and [print] *)

(** Modelled from the spec: the grid attributes of the class [Crossword]
    (defined outside [generate.py]) that the rendering reads, the grid
    dimensions [height] and [width] and the occupancy mask [structure], a
    list of rows of booleans, [True] for a blank cell. *)
Record Layout : Type := mkLayout {
  height : nat;
  width : nat;
  structure : list (list bool)
}.

(** The 2D array [letters]: a cell holds [None] or a letter. *)
Definition grid : Type := list (list (option ascii)).

(** [l[n] = v] on a Python list: an index out of range raises
    [IndexError]. *)
Fixpoint list_set {A : Type} (l : list A) (n : nat) (v : A) : outcome (list A) :=
  match l, n with
  | [], _ => Raise
  | _ :: t, O => Ret (v :: t)
  | h :: t, S n' => t' <- list_set t n' v ;; Ret (h :: t')
  end.

(** [letters[i][j] = c]: the row [letters[i]] is looked up, then updated in
    place. *)
Definition grid_set (letters : grid) (i j : nat) (c : ascii) : outcome grid :=
  row <- of_option (nth_error letters i) ;;
  row' <- list_set row j (Some c) ;;
  list_set letters i row'.

(** [letters[i][j]] read back, [None] outside of the array. *)
Definition grid_get (letters : grid) (i j : nat) : option (option ascii) :=
  match nth_error letters i with
  | Some row => nth_error row j
  | None => None
  end.

(** The cell [(i, j)] computed for the [k]-th letter of a slot. *)
Definition letter_cell (variable : Slot) (k : nat) : nat * nat :=
  (var_i variable + match var_direction variable with DOWN => k | ACROSS => 0 end,
   var_j variable + match var_direction variable with ACROSS => k | DOWN => 0 end).

(** The loop [for k in range(len(word))] of [letter_grid]. *)
Fixpoint place_word (variable : Slot) (w : word) (ks : list nat) (letters : grid)
  : outcome grid :=
  match ks with
  | [] => Ret letters
  | k :: rest =>
      c <- of_option (String.get k w) ;;
      letters' <- grid_set letters (fst (letter_cell variable k))
                           (snd (letter_cell variable k)) c ;;
      place_word variable w rest letters'
  end.

(** The loop [for variable, word in assignment.items()]. *)
Fixpoint place_words (items : assignment) (letters : grid) : outcome grid :=
  match items with
  | [] => Ret letters
  | (variable, w) :: rest =>
      letters' <- place_word variable w (seq 0 (String.length w)) letters ;;
      place_words rest letters'
  end.

(** [letter_grid(assignment)]: a [height] by [width] array of [None], then
    the words written letter by letter. *)
Definition letter_grid (lay : Layout) (a : assignment) : outcome grid :=
  place_words a (repeat (repeat None (width lay)) (height lay)).

(** The string literal printed for a filled cell, as the bytes of the
    source file. *)
Definition block : string :=
  string_of_list_ascii (map ascii_of_nat [195; 162; 226; 128; 147; 203; 134]).

(** [letters[i][j] or " "]. *)
Definition letter_or_space (l : option ascii) : string :=
  match l with
  | Some c => String c EmptyString
  | None => " "
  end.

(** The body of the inner loop of [print]: the string written for the cell
    [(i, j)]. *)
Definition print_cell (lay : Layout) (letters : grid) (i j : nat) : outcome string :=
  row <- of_option (nth_error (structure lay) i) ;;
  blank <- of_option (nth_error row j) ;;
  if blank : bool then
    l <- of_option (grid_get letters i j) ;;
    Ret (letter_or_space l)
  else Ret block.

(** Standard output is the list of the strings written so far, in order;
    a call that raises leaves what it had written. *)
Fixpoint print_cells (lay : Layout) (letters : grid) (i : nat) (js : list nat)
         (out : list string) : list string * outcome unit :=
  match js with
  | [] => (out, Ret tt)
  | j :: rest =>
      match print_cell lay letters i j with
      | Ret s => print_cells lay letters i rest (out ++ [s])
      | Raise => (out, Raise)
      | Timeout => (out, Timeout)
      end
  end.

(** The newline written by [print()]. *)
Definition newline : string := String (ascii_of_nat 10) EmptyString.

Fixpoint print_rows (lay : Layout) (letters : grid) (rows : list nat)
         (out : list string) : list string * outcome unit :=
  match rows with
  | [] => (out, Ret tt)
  | i :: rest =>
      match print_cells lay letters i (seq 0 (width lay)) out with
      | (out', Ret _) => print_rows lay letters rest (out' ++ [newline])
      | (out', Raise) => (out', Raise)
      | (out', Timeout) => (out', Timeout)
      end
  end.

(** [print(assignment)]: the strings written to standard output and how
    the call ended. *)
Definition print (lay : Layout) (a : assignment) : list string * outcome unit :=
  match letter_grid lay a with
  | Ret letters => print_rows lay letters (seq 0 (height lay)) []
  | Raise => ([], Raise)
  | Timeout => ([], Timeout)
  end.

(** *** Notions used to state the properties of the rendering *)

(** An array of [h] rows of [w] cells. *)
Definition grid_shape (h w : nat) (letters : grid) : Prop :=
  List.length letters = h /\ Forall (fun row => List.length row = w) letters.

(** Every letter of every assigned word falls inside the grid. *)
Definition fits_grid (lay : Layout) (a : assignment) : Prop :=
  forall variable w k, In (variable, w) a -> k < String.length w ->
    fst (letter_cell variable k) < height lay /\
    snd (letter_cell variable k) < width lay.

(** The entry [(variable, w)] writes the letter [c] into the cell [(i, j)]. *)
Definition writes (variable : Slot) (w : word) (i j : nat) (c : ascii) : Prop :=
  exists k, letter_cell variable k = (i, j) /\ String.get k w = Some c.

(** Some entry of the assignment writes into the cell [(i, j)]. *)
Definition covered (a : assignment) (i j : nat) : Prop :=
  exists variable w c, In (variable, w) a /\ writes variable w i j c.

(** Two entries that write into the same cell write the same letter. *)
Definition letters_agree (a : assignment) : Prop :=
  forall v1 w1 v2 w2 i j c1 c2,
    In (v1, w1) a -> In (v2, w2) a ->
    writes v1 w1 i j c1 -> writes v2 w2 i j c2 -> c1 = c2.

(** The letters found in the array along a slot, for [n] cells. *)
Definition read_slot (letters : grid) (variable : Slot) (n : nat)
  : list (option (option ascii)) :=
  map (fun k => grid_get letters (fst (letter_cell variable k))
                         (snd (letter_cell variable k)))
      (seq 0 n).

(** The occupancy mask has [height] rows of [width] cells. *)
Definition well_shaped (lay : Layout) : Prop :=
  List.length (structure lay) = height lay /\
  Forall (fun row => List.length row = width lay) (structure lay).

(** The string shown for a cell: the block for a filled cell, the letter or
    a space for a blank one. *)
Definition shown (lay : Layout) (letters : grid) (i j : nat) : string :=
  match nth_error (structure lay) i with
  | Some row =>
      match nth_error row j with
      | Some true =>
          match grid_get letters i j with
          | Some l => letter_or_space l
          | None => " "
          end
      | _ => block
      end
  | None => block
  end.

(** *** Notions used to state the properties of the search *)

(** No domain of the store is empty. *)
Definition no_empty_domain (st : domains) : Prop :=
  forall x, dict_get st x <> Some [].

(** Every assigned slot has its domain pruned to its word, or to nothing. *)
Definition assigned_pruned (a : assignment) (st : domains) : Prop :=
  forall x w, dict_get a x = Some w ->
    exists ws, dict_get st x = Some ws /\ subseq ws [w].

(** Assigned words of crossing slots differ and agree on the shared
    letter. *)
Definition crossings_ok (cw : Crossword) (a : assignment) : Prop :=
  forall x y i j wx wy,
    x <> y -> overlaps cw x y = Some (i, j) ->
    dict_get a x = Some wx -> dict_get a y = Some wy ->
    compatible wx i wy j.

(** The entries of an assignment agree pairwise at the overlaps, as the
    second loop nest of [consistent] tests it. *)
Definition entries_agree (cw : Crossword) (a : assignment) : Prop :=
  forall var1 word1 var2 word2 i j,
    In (var1, word1) a -> In (var2, word2) a -> var1 <> var2 ->
    overlaps cw var1 var2 = Some (i, j) ->
    exists c, String.get i word1 = Some c /\ String.get j word2 = Some c.

(** Every domain has fewer words than the starting value of
    [min_val_size]. *)
Definition small_domains (st : domains) : Prop :=
  forall k v, In (k, v) st -> List.length v < min_val_size_init.

(** Every word of every domain is a word of the pool. *)
Definition pool_words (cw : Crossword) (st : domains) : Prop :=
  forall k v, In (k, v) st -> incl v (words cw).

(** *** Concrete inputs for the rendering and the search *)

(** The grid of [cat_puzzle]: a row of three over a column of two.
<<
      111
      100
>> *)
Definition cat_layout : Layout :=
  mkLayout 2 3 [[true; true; true]; [true; false; false]].

Definition cat_assignment : assignment :=
  [(cat_across, "CAT"); (cat_down, "CO")].

(** Two words that disagree on the shared cell. *)
Definition clash_assignment : assignment :=
  [(cat_across, "CAT"); (cat_down, "DO")].

(** A grid of one row of two cells, too narrow for [CAT]. *)
Definition narrow_layout : Layout := mkLayout 1 2 [[true; true]].

(** The slots of [cat_puzzle] with a pool that has no word of length 2. *)
Definition short_pool_puzzle : Crossword :=
  puzzle [cat_across; cat_down] ["CAT"; "DOG"].

(** One slot of length 3 and a pool with two words of that length. *)
Definition single_puzzle : Crossword :=
  puzzle [cat_across] ["CO"; "DOG"; "CAT"].

(** The store [ac3] leaves on [corner_puzzle] when it reports failure. *)
Definition corner_store : domains :=
  [(corner_across, ["XY"]); (corner_down, [])].

(** The store of [ladder_puzzle] after the propagation phase of [solve]. *)
Definition ladder_store : domains :=
  [(right_down, ["ABB"; "ACB"; "BBA"; "CCC"]);
   (top_across, ["BCAA"; "BBCB"; "AABB"]);
   (left_down, ["ABB"; "ACB"; "BBA"]);
   (bottom_across, ["BCAA"; "BBCB"; "AABB"])].

(** Decision procedures for [no_empty_domain], [small_domains] and
    [assignment_fits] on concrete stores. *)
Definition no_empty_check (st : domains) : bool :=
  forallb (fun e : Slot * list word => negb (List.length (snd e) =? 0)) st.

Definition small_check (st : domains) : bool :=
  forallb (fun e : Slot * list word => List.length (snd e) <? min_val_size_init) st.

Definition fits_check (a : assignment) (st : domains) : bool :=
  nodup_slots (dict_keys st) && nodup_slots (dict_keys a)
  && forallb (fun k => mem_slot k (dict_keys st)) (dict_keys a).

(** [store_within st' st]: the same slots in the same order, and every
    word of a domain of [st'] is a word of the domain the slot had in
    [st].  Nothing is said about the order of the words. *)
Definition store_within (st' st : domains) : Prop :=
  dict_keys st' = dict_keys st /\
  forall x ws', dict_get st' x = Some ws' ->
                exists ws, dict_get st x = Some ws /\ incl ws' ws.

(** ** Basic facts: equality tests, dictionaries, sub-lists *)

Lemma slot_eqb_eq (a b : Slot) : slot_eqb a b = true <-> a = b.
Proof.
  unfold slot_eqb. destruct a as [i1 j1 d1 l1], b as [i2 j2 d2 l2]; simpl.
  rewrite !andb_true_iff, !Nat.eqb_eq. split.
  - intros [[[-> ->] Hd] ->]. destruct d1, d2; simpl in Hd; congruence.
  - intros H; inversion H; subst. destruct d2; auto.
Qed.

Lemma slot_eqb_refl (a : Slot) : slot_eqb a a = true.
Proof. apply slot_eqb_eq; reflexivity. Qed.

Lemma slot_eqb_neq (a b : Slot) : slot_eqb a b = false <-> a <> b.
Proof.
  split.
  - intros H E. apply slot_eqb_eq in E. congruence.
  - intros H. destruct (slot_eqb a b) eqn:E; auto. apply slot_eqb_eq in E. contradiction.
Qed.

Lemma slot_eqb_sym (a b : Slot) : slot_eqb a b = slot_eqb b a.
Proof.
  destruct (slot_eqb a b) eqn:E.
  - apply slot_eqb_eq in E; subst. symmetry; apply slot_eqb_refl.
  - apply slot_eqb_neq in E. symmetry. apply slot_eqb_neq. congruence.
Qed.

Lemma word_eqb_eq (a b : word) : word_eqb a b = true <-> a = b.
Proof. apply String.eqb_eq. Qed.

Lemma word_eqb_neq (a b : word) : word_eqb a b = false <-> a <> b.
Proof. apply String.eqb_neq. Qed.

Lemma mem_word_In (w : word) (l : list word) : mem_word w l = true <-> In w l.
Proof.
  unfold mem_word. rewrite existsb_exists. split.
  - intros [x [Hx E]]. apply word_eqb_eq in E. subst; auto.
  - intros H. exists w. split; auto. apply word_eqb_eq; reflexivity.
Qed.

Section DictFacts.
Variable V : Type.
Implicit Types (d : list (Slot * V)) (k : Slot) (v : V).

Lemma dict_get_In d k v : dict_get d k = Some v -> In (k, v) d.
Proof.
  induction d as [|[k' v'] d IH]; simpl; [discriminate|].
  destruct (slot_eqb k' k) eqn:E.
  - intros H; inversion H; subst. apply slot_eqb_eq in E; subst. auto.
  - auto.
Qed.

Lemma dict_get_keys d k : dict_get d k <> None <-> In k (dict_keys d).
Proof.
  induction d as [|[k' v'] d IH]; simpl.
  - split; [congruence | tauto].
  - destruct (slot_eqb k' k) eqn:E.
    + apply slot_eqb_eq in E. subst. split; [auto | congruence].
    + apply slot_eqb_neq in E. rewrite IH. split; [auto | intros [H|H]; [contradiction | auto]].
Qed.

Lemma dict_get_In_nodup d k v :
  NoDup (dict_keys d) -> In (k, v) d -> dict_get d k = Some v.
Proof.
  induction d as [|[k' v'] d IH]; simpl; [tauto|].
  intros Hnd [H|H].
  - inversion H; subst. rewrite slot_eqb_refl. reflexivity.
  - inversion Hnd as [|? ? Hnot Hnd']; subst.
    destruct (slot_eqb k' k) eqn:E.
    + apply slot_eqb_eq in E; subst. exfalso. apply Hnot.
      change k with (fst (k, v)). apply in_map. exact H.
    + auto.
Qed.

Lemma dict_keys_set d k v :
  dict_get d k <> None -> dict_keys (dict_set d k v) = dict_keys d.
Proof.
  induction d as [|[k' v'] d IH]; simpl; [congruence|].
  destruct (slot_eqb k' k) eqn:E; simpl; intros H.
  - reflexivity.
  - f_equal. auto.
Qed.

Lemma dict_get_set_same d k v : dict_get (dict_set d k v) k = Some v.
Proof.
  induction d as [|[k' v'] d IH]; simpl.
  - rewrite slot_eqb_refl. reflexivity.
  - destruct (slot_eqb k' k) eqn:E; simpl; rewrite E; auto.
Qed.

Lemma dict_get_set_other d k k0 v :
  k0 <> k -> dict_get (dict_set d k v) k0 = dict_get d k0.
Proof.
  intros Hne. induction d as [|[k' v'] d IH]; simpl.
  - destruct (slot_eqb k k0) eqn:E; auto.
    apply slot_eqb_eq in E. congruence.
  - destruct (slot_eqb k' k) eqn:E; simpl.
    + apply slot_eqb_eq in E; subst.
      destruct (slot_eqb k k0) eqn:E'; auto.
      apply slot_eqb_eq in E'. congruence.
    + destruct (slot_eqb k' k0); auto.
Qed.

Lemma dict_set_same_value d k v : dict_get d k = Some v -> dict_set d k v = d.
Proof.
  induction d as [|[k' v'] d IH]; simpl; [discriminate|].
  destruct (slot_eqb k' k) eqn:E.
  - intros H; inversion H; reflexivity.
  - intros H. f_equal. auto.
Qed.

Lemma dict_set_length d k v :
  dict_get d k <> None -> List.length (dict_set d k v) = List.length d.
Proof.
  intros H. rewrite <- (length_map fst (dict_set d k v)), <- (length_map fst d).
  change (map fst (dict_set d k v)) with (dict_keys (dict_set d k v)).
  rewrite dict_keys_set; auto.
Qed.

Lemma dict_del_set_fresh d k v : dict_get d k = None -> dict_del (dict_set d k v) k = d.
Proof.
  induction d as [|[k' v'] d IH]; simpl.
  - rewrite slot_eqb_refl. reflexivity.
  - destruct (slot_eqb k' k) eqn:E; [discriminate|]. simpl. rewrite E.
    intros H. f_equal. auto.
Qed.
End DictFacts.

Section SubseqFacts.
Variable A : Type.
Implicit Types l : list A.

Lemma subseq_refl l : subseq l l.
Proof. induction l; [apply subseq_nil | apply subseq_keep; assumption]. Qed.

Lemma subseq_nil_l l : subseq [] l.
Proof. induction l; constructor; auto. Qed.

Lemma subseq_trans l1 l2 l3 : subseq l1 l2 -> subseq l2 l3 -> subseq l1 l3.
Proof.
  intros H12 H23. revert l1 H12.
  induction H23; intros l1 H12.
  - exact H12.
  - constructor. auto.
  - inversion H12; subst.
    + apply subseq_skip. auto.
    + apply subseq_keep. auto.
Qed.

Lemma subseq_filter (f : A -> bool) l : subseq (filter f l) l.
Proof.
  induction l as [|a l IH]; simpl; [constructor|].
  destruct (f a); [apply subseq_keep | apply subseq_skip]; assumption.
Qed.

Lemma subseq_incl l' l : subseq l' l -> incl l' l.
Proof.
  induction 1; intros a Ha.
  - exact Ha.
  - right. auto.
  - destruct Ha as [->|Ha]; [left; auto | right; auto].
Qed.

Lemma subseq_length l' l : subseq l' l -> List.length l' <= List.length l.
Proof. induction 1; simpl; lia. Qed.

Lemma subseq_length_eq l' l : subseq l' l -> List.length l <= List.length l' -> l' = l.
Proof.
  induction 1; simpl; intros Hlen.
  - reflexivity.
  - apply subseq_length in H. lia.
  - f_equal. apply IHsubseq. lia.
Qed.

Lemma subseq_single (a : A) l : In a l -> subseq [a] l.
Proof.
  induction l as [|b l IH]; simpl; [tauto|].
  intros [->|H].
  - apply subseq_keep. apply subseq_nil_l.
  - apply subseq_skip. auto.
Qed.

Lemma subseq_single_inv (a : A) l : subseq l [a] -> l = [] \/ l = [a].
Proof.
  intros H. inversion H as [| ? ? ? H' | ? ? ? H']; subst.
  - inversion H'; auto.
  - inversion H'; auto.
Qed.
End SubseqFacts.

Lemma store_le_refl (st : domains) : store_le st st.
Proof. induction st; constructor; auto. split; auto. apply subseq_refl. Qed.

Lemma store_le_trans (s1 s2 s3 : domains) : store_le s1 s2 -> store_le s2 s3 -> store_le s1 s3.
Proof.
  unfold store_le. intros H12. revert s3. induction H12; intros s3 H23.
  - inversion H23. constructor.
  - inversion H23 as [|? ? ? ? Hyz Hrest]; subst. constructor; auto.
    destruct H as [Hk Hs], Hyz as [Hk' Hs']. split; [congruence|].
    eapply subseq_trans; eauto.
Qed.

Lemma store_le_keys (st' st : domains) : store_le st' st -> dict_keys st' = dict_keys st.
Proof. induction 1; simpl; auto. destruct H. congruence. Qed.

Lemma store_le_length (st' st : domains) : store_le st' st -> List.length st' = List.length st.
Proof. induction 1; simpl; auto. Qed.

Lemma store_le_get (st' st : domains) (x : Slot) (ws' : list word) :
  store_le st' st -> dict_get st' x = Some ws' ->
  exists ws, dict_get st x = Some ws /\ subseq ws' ws.
Proof.
  induction 1 as [|[k' v'] [k v] l' l [Hk Hs] HF IH]; simpl; [discriminate|].
  simpl in Hk, Hs. subst k'.
  destruct (slot_eqb k x).
  - intros E; inversion E; subst. eauto.
  - auto.
Qed.

Lemma store_le_get_none (st' st : domains) (x : Slot) :
  store_le st' st -> dict_get st' x = None -> dict_get st x = None.
Proof.
  induction 1 as [|[k' v'] [k v] l' l [Hk Hs] HF IH]; simpl; auto.
  simpl in Hk. subst k'. destruct (slot_eqb k x); [discriminate | auto].
Qed.

Lemma store_le_set (st : domains) (x : Slot) (ws ws' : list word) :
  dict_get st x = Some ws -> subseq ws' ws -> store_le (dict_set st x ws') st.
Proof.
  induction st as [|[k v] st IH]; simpl; [discriminate|].
  destruct (slot_eqb k x).
  - intros E Hs; inversion E; subst. constructor; [split; auto | apply store_le_refl].
  - intros E Hs. constructor; [split; [auto | apply subseq_refl] | apply IH; assumption].
Qed.

Lemma store_le_total_size (st' st : domains) : store_le st' st -> total_size st' <= total_size st.
Proof.
  unfold total_size. induction 1 as [|e' e l' l [Hk Hs] HF IH]; simpl; auto.
  apply subseq_length in Hs. lia.
Qed.

Lemma store_le_node_consistent (st' st : domains) :
  store_le st' st -> node_consistent st -> node_consistent st'.
Proof.
  unfold node_consistent.
  induction 1 as [|[k' v'] [k v] l' l [Hk Hs] HF IH]; simpl; [tauto|].
  simpl in Hk, Hs. subst k'. intros Hn v0 ws [E|Hin] w Hw.
  - inversion E; subst. apply (Hn v0 v); auto. eapply subseq_incl; eauto.
  - apply (IH (fun a b H => Hn a b (or_intror H)) v0 ws); auto.
Qed.

Lemma filter_length_lt (A : Type) (f : A -> bool) (l : list A) :
  List.length (filter f l) < List.length l <-> exists a, In a l /\ f a = false.
Proof.
  induction l as [|a l IH]; simpl.
  - split; [lia | intros [? [[] _]]].
  - pose proof (filter_length_le f l) as Hle. destruct (f a) eqn:E; simpl.
    + rewrite <- Nat.succ_lt_mono, IH. split.
      * intros [b [Hb Hf]]. eauto.
      * intros [b [[->|Hb] Hf]]; [congruence | eauto].
    + split; [intros _; eauto | intros _; lia].
Qed.

(** ** [revise] *)

Lemma string_get_lt (w : word) (i : nat) :
  i < String.length w -> exists c, String.get i w = Some c.
Proof.
  revert i. induction w as [|a w IH]; simpl; intros i Hi; [lia|].
  destruct i as [|i]; [eauto|]. apply IH. lia.
Qed.

Lemma char_eq_Ret (w1 : word) (i : nat) (w2 : word) (j : nat) (b : bool) :
  char_eq w1 i w2 j = Ret b ->
  (b = true <-> exists c, String.get i w1 = Some c /\ String.get j w2 = Some c).
Proof.
  unfold char_eq. destruct (String.get i w1) as [a|]; [|discriminate].
  destruct (String.get j w2) as [c|]; [|discriminate].
  intros H; inversion H; subst. rewrite Ascii.eqb_eq. split.
  - intros ->. eauto.
  - intros [c' [E1 E2]]. congruence.
Qed.

Lemma char_eq_total (w1 : word) (i : nat) (w2 : word) (j : nat) :
  i < String.length w1 -> j < String.length w2 -> exists b, char_eq w1 i w2 j = Ret b.
Proof.
  intros H1 H2. unfold char_eq.
  destruct (string_get_lt w1 i H1) as [a ->], (string_get_lt w2 j H2) as [c ->]. eauto.
Qed.

Lemma has_support_spec (w : word) (i j : nat) (ys : list word) (b : bool) :
  has_support w i j ys = Ret b ->
  (b = true <-> exists wy, In wy ys /\ compatible w i wy j).
Proof.
  revert b. induction ys as [|y ys IH]; simpl; intros b H.
  - inversion H; subst. split; [discriminate | intros [? [[] _]]].
  - destruct (has_support w i j ys) as [more| |] eqn:Em;
      try (destruct (word_eqb w y); [|destruct (char_eq w i y j)]; discriminate).
    specialize (IH more eq_refl).
    destruct (word_eqb w y) eqn:Ew; simpl in H.
    + apply word_eqb_eq in Ew. subst y. inversion H; subst. simpl. rewrite IH. split.
      * intros [wy [Hin Hc]]. eauto.
      * intros [wy [[->|Hin] Hc]]; [destruct Hc as [Hne _]; congruence | eauto].
    + apply word_eqb_neq in Ew.
      destruct (char_eq w i y j) as [hit| |] eqn:Eh; simpl in H; try discriminate.
      inversion H; subst. apply char_eq_Ret in Eh.
      rewrite orb_true_iff, IH, Eh. split.
      * intros [Hc|[wy [Hin Hc]]]; [exists y; split; [auto | split; auto] | eauto].
      * intros [wy [[->|Hin] Hc]]; [left; apply Hc | right; eauto].
Qed.

Lemma has_support_total (w : word) (i j : nat) (ys : list word) :
  i < String.length w -> (forall wy, In wy ys -> j < String.length wy) ->
  exists b, has_support w i j ys = Ret b.
Proof.
  intros Hi. induction ys as [|y ys IH]; simpl; intros Hj; [eauto|].
  destruct IH as [more ->]; [auto|].
  destruct (word_eqb w y); simpl; [eauto|].
  destruct (char_eq_total w i y j Hi) as [hit ->]; [auto|]. simpl. eauto.
Qed.

Lemma revise_words_spec (xs : list word) (i j : nat) (ys new : list word) :
  revise_words xs i j ys = Ret new ->
  subseq new xs /\
  (forall w, In w new <-> In w xs /\ exists wy, In wy ys /\ compatible w i wy j).
Proof.
  revert new. induction xs as [|x xs IH]; simpl; intros new H.
  - inversion H; subst. split; [constructor | intros w; simpl; tauto].
  - destruct (has_support x i j ys) as [keep| |] eqn:Ek; simpl in H; try discriminate.
    destruct (revise_words xs i j ys) as [tl| |] eqn:Et; simpl in H; try discriminate.
    inversion H; subst. destruct (IH tl eq_refl) as [Hs Hin].
    apply has_support_spec in Ek. destruct keep.
    + split; [apply subseq_keep; auto|]. intros w; simpl. rewrite Hin. split.
      * intros [->|[Hw Hc]]; [split; [auto | apply Ek; auto] | auto].
      * intros [[->|Hw] Hc]; auto.
    + split; [apply subseq_skip; auto|]. intros w. rewrite Hin. simpl. split.
      * intros [Hw Hc]; auto.
      * intros [[->|Hw] Hc]; auto.
        apply Ek in Hc. discriminate.
Qed.

Lemma revise_words_filter (xs : list word) (i j : nat) (ys new : list word) :
  revise_words xs i j ys = Ret new -> exists f, new = filter f xs.
Proof.
  intros H.
  exists (fun w => match has_support w i j ys with Ret true => true | _ => false end).
  revert new H. induction xs as [|x xs IH]; simpl; intros new H.
  - inversion H; reflexivity.
  - destruct (has_support x i j ys) as [keep| |]; simpl in H; try discriminate.
    destruct (revise_words xs i j ys) as [tl| |]; simpl in H; try discriminate.
    inversion H; subst. rewrite <- (IH tl eq_refl). destruct keep; reflexivity.
Qed.

Lemma filter_all (A : Type) (f : A -> bool) (l : list A) :
  incl l (filter f l) -> filter f l = l.
Proof.
  intros H. assert (Hf : forall a, In a l -> f a = true).
  { intros a Ha. apply H in Ha. apply filter_In in Ha. tauto. }
  clear H. induction l as [|a l IH]; simpl; [reflexivity|].
  rewrite (Hf a (or_introl eq_refl)). f_equal. apply IH. intros; apply Hf; right; auto.
Qed.

Lemma revise_words_total (xs : list word) (i j : nat) (ys : list word) :
  (forall w, In w xs -> i < String.length w) ->
  (forall wy, In wy ys -> j < String.length wy) ->
  exists new, revise_words xs i j ys = Ret new.
Proof.
  intros Hx Hy. induction xs as [|x xs IH]; simpl; [eauto|].
  destruct (has_support_total x i j ys) as [keep ->]; auto; [apply Hx; simpl; auto|].
  destruct IH as [tl ->]; [intros; apply Hx; simpl; auto|]. simpl. eauto.
Qed.

Section ReviseFacts.
Variable cw : Crossword.

Lemma dom_get (st : domains) (x : Slot) (ws : list word) :
  dict_get st x = Some ws -> dom st x = ws.
Proof. unfold dom. intros ->. reflexivity. Qed.

(** What a returning call of [revise] has done. *)
Lemma revise_inv (x y : Slot) (st st' : domains) (b : bool) :
  revise cw x y st = Ret (b, st') ->
  (overlaps cw x y = None /\ b = false /\ st' = st) \/
  (exists i j xs new,
      overlaps cw x y = Some (i, j) /\ dict_get st x = Some xs /\
      st' = dict_set st x new /\ subseq new xs /\
      b = (List.length new <? List.length xs) /\
      (forall w, In w new <->
                 In w xs /\ exists wy, In wy (dom st y) /\ compatible w i wy j)).
Proof.
  unfold revise. destruct (overlaps cw x y) as [[i j]|].
  - destruct (dict_get st x) as [xs|] eqn:Ex; cbn [of_option bind]; [|discriminate].
    destruct xs as [|x0 xs].
    + cbn [bind]. intros H; inversion H; subst. right.
      exists i, j, [], [].
      split; [reflexivity|]. split; [reflexivity|]. split; [reflexivity|].
      split; [apply subseq_nil|]. split; [reflexivity|].
      intros w; simpl; tauto.
    + destruct (dict_get st y) as [ys|] eqn:Ey; cbn [of_option bind]; [|discriminate].
      destruct (revise_words (x0 :: xs) i j ys) as [new| |] eqn:Er;
        cbn [bind]; try discriminate.
      intros H; inversion H; subst. right.
      apply revise_words_spec in Er. destruct Er as [Hs Hin].
      exists i, j, (x0 :: xs), new. rewrite (dom_get _ _ _ Ey).
      split; [reflexivity|]. split; [reflexivity|]. split; [reflexivity|].
      split; [exact Hs|]. split; [reflexivity|]. exact Hin.
  - intros H; inversion H; subst. left; auto.
Qed.

Lemma revise_inv_filter (x y : Slot) (st st' : domains) (b : bool) (xs : list word) :
  revise cw x y st = Ret (b, st') -> overlaps cw x y <> None ->
  dict_get st x = Some xs -> exists f, st' = dict_set st x (filter f xs).
Proof.
  unfold revise. destruct (overlaps cw x y) as [[i j]|]; [|congruence].
  intros H _ Ex. rewrite Ex in H. cbn [of_option bind] in H.
  destruct xs as [|x0 xs].
  - cbn [bind] in H. inversion H; subst. exists (fun _ => true). reflexivity.
  - destruct (dict_get st y) as [ys|]; cbn [of_option bind] in H; [|discriminate].
    destruct (revise_words (x0 :: xs) i j ys) as [new| |] eqn:Er;
      cbn [bind] in H; try discriminate.
    inversion H; subst. destruct (revise_words_filter _ _ _ _ _ Er) as [f ->].
    exists f. reflexivity.
Qed.

Lemma revise_store_le (x y : Slot) (st st' : domains) (b : bool) :
  revise cw x y st = Ret (b, st') -> store_le st' st.
Proof.
  intros H. apply revise_inv in H.
  destruct H as [[_ [_ ->]] | [i [j [xs [new [_ [Ex [-> [Hs _]]]]]]]]].
  - apply store_le_refl.
  - eapply store_le_set; eauto.
Qed.

Lemma node_consistent_indexable (st : domains) :
  wf_crossword cw -> node_consistent st -> indexable cw st.
Proof.
  intros Hwf Hn x y i j Ho. destruct (overlaps_in_range Hwf _ _ _ _ Ho) as [Hi Hj].
  unfold dom. split; intros w Hw.
  - destruct (dict_get st x) as [ws|] eqn:E; [|destruct Hw].
    apply dict_get_In in E. rewrite (Hn _ _ E w Hw). exact Hi.
  - destruct (dict_get st y) as [ws|] eqn:E; [|destruct Hw].
    apply dict_get_In in E. rewrite (Hn _ _ E w Hw). exact Hj.
Qed.

Lemma store_le_indexable (st' st : domains) :
  store_le st' st -> indexable cw st -> indexable cw st'.
Proof.
  intros Hle Hix x y i j Ho. destruct (Hix x y i j Ho) as [Hx Hy].
  unfold dom in *. split; intros w Hw.
  - destruct (dict_get st' x) as [ws'|] eqn:E; [|destruct Hw].
    destruct (store_le_get _ _ _ _ Hle E) as [ws [E' Hs]]. rewrite E' in Hx.
    apply Hx. eapply subseq_incl; eauto.
  - destruct (dict_get st' y) as [ws'|] eqn:E; [|destruct Hw].
    destruct (store_le_get _ _ _ _ Hle E) as [ws [E' Hs]]. rewrite E' in Hy.
    apply Hy. eapply subseq_incl; eauto.
Qed.

(** On a store that knows both slots and can be indexed, [revise] returns. *)
Lemma revise_total (x y : Slot) (st : domains) :
  indexable cw st -> dict_get st x <> None -> dict_get st y <> None ->
  exists b st', revise cw x y st = Ret (b, st').
Proof.
  intros Hix Hx Hy. unfold revise.
  destruct (overlaps cw x y) as [[i j]|] eqn:Ho; [|eauto].
  destruct (Hix x y i j Ho) as [Hxi Hyj]. unfold dom in Hxi, Hyj.
  destruct (dict_get st x) as [xs|]; [|congruence].
  destruct (dict_get st y) as [ys|]; [|congruence]. cbn [of_option bind].
  destruct xs as [|x0 xs]; [cbn [bind]; eauto|].
  destruct (revise_words_total (x0 :: xs) i j ys Hxi Hyj) as [new ->].
  cbn [bind]. eauto.
Qed.
End ReviseFacts.

(** ** [ac3]: termination, pruning, totality *)

Lemma has_support_no_timeout (w : word) (i j : nat) (ys : list word) :
  has_support w i j ys <> Timeout.
Proof.
  induction ys as [|y ys IH]; simpl; [discriminate|].
  destruct (word_eqb w y); simpl.
  - destruct (has_support w i j ys); simpl; congruence.
  - unfold char_eq. destruct (String.get i w); [|simpl; discriminate].
    destruct (String.get j y); [|simpl; discriminate]. simpl.
    destruct (has_support w i j ys); simpl; congruence.
Qed.

Lemma revise_words_no_timeout (xs : list word) (i j : nat) (ys : list word) :
  revise_words xs i j ys <> Timeout.
Proof.
  induction xs as [|x xs IH]; simpl; [discriminate|].
  pose proof (has_support_no_timeout x i j ys) as Hs.
  destruct (has_support x i j ys); simpl; try congruence.
  destruct (revise_words xs i j ys); simpl; congruence.
Qed.

Section Ac3Facts.
Variable cw : Crossword.

Lemma revise_no_timeout (x y : Slot) (st : domains) : revise cw x y st <> Timeout.
Proof.
  unfold revise. destruct (overlaps cw x y) as [[i j]|]; [|discriminate].
  destruct (dict_get st x) as [xs|]; cbn [of_option bind]; [|discriminate].
  destruct xs as [|x0 xs]; cbn [bind]; [discriminate|].
  destruct (dict_get st y) as [ys|]; cbn [of_option bind]; [|discriminate].
  pose proof (revise_words_no_timeout (x0 :: xs) i j ys) as Hr.
  destruct (revise_words (x0 :: xs) i j ys); cbn [bind]; congruence.
Qed.

(** A call that reports no revision leaves the store as it was. *)
Lemma revise_false_same (x y : Slot) (st st' : domains) :
  revise cw x y st = Ret (false, st') -> st' = st.
Proof.
  intros H. apply revise_inv in H.
  destruct H as [[_ [_ ->]] | [i [j [xs [new [_ [Ex [-> [Hs [Hb _]]]]]]]]]]; [reflexivity|].
  symmetry in Hb. apply Nat.ltb_ge in Hb.
  rewrite (subseq_length_eq _ _ _ Hs Hb). apply dict_set_same_value. exact Ex.
Qed.

Lemma total_size_set (st : domains) (x : Slot) (xs new : list word) :
  dict_get st x = Some xs ->
  total_size (dict_set st x new) + List.length xs = total_size st + List.length new.
Proof.
  unfold total_size. induction st as [|[k v] st IH]; simpl; [discriminate|].
  destruct (slot_eqb k x).
  - intros E; inversion E; subst. simpl. lia.
  - intros E. simpl. specialize (IH E). lia.
Qed.

Lemma neighbors_length (x : Slot) :
  List.length (neighbors cw x) <= List.length (variables cw).
Proof. unfold neighbors. apply filter_length_le. Qed.

Lemma neighbors_spec (x z : Slot) :
  In z (neighbors cw x) <->
  In z (variables cw) /\ z <> x /\ overlaps cw z x <> None.
Proof.
  unfold neighbors. rewrite filter_In, andb_true_iff, negb_true_iff, slot_eqb_neq.
  destruct (overlaps cw z x); intuition congruence.
Qed.

Lemma requeue_length (x y : Slot) :
  List.length (requeue cw x y) <= List.length (variables cw).
Proof.
  unfold requeue. rewrite length_map.
  etransitivity; [apply filter_length_le | apply neighbors_length].
Qed.

Lemma push_arcs_length (new queue : list arc) :
  List.length (push_arcs new queue) = List.length new + List.length queue.
Proof. unfold push_arcs. rewrite length_app, length_rev. reflexivity. Qed.

Lemma In_push_arcs (a : arc) (new queue : list arc) :
  In a (push_arcs new queue) <-> In a new \/ In a queue.
Proof. unfold push_arcs. rewrite in_app_iff, <- in_rev. reflexivity. Qed.

(** The loop never runs out of fuel when given [ac3_fuel]. *)
Lemma ac3_loop_enough_fuel (fuel : nat) (st : domains) (q : list arc) :
  total_size st * S (List.length (variables cw)) + List.length q <= fuel ->
  ac3_loop cw fuel st q <> Timeout.
Proof.
  revert st q. induction fuel as [|fuel IH]; intros st q Hf.
  - destruct q as [|[x y] q]; simpl in *; [discriminate | lia].
  - destruct q as [|[x y] q]; [simpl; discriminate|].
    cbn [ac3_loop]. pose proof (revise_no_timeout x y st) as Hnt.
    destruct (revise cw x y st) as [[b st']| |] eqn:Er; cbn [bind]; try congruence.
    destruct b.
    + destruct (dict_get st' x) as [ws|] eqn:Eg; cbn [of_option bind]; [|discriminate].
      destruct (List.length ws =? 0); [discriminate|].
      apply IH. fold (requeue cw x y). rewrite push_arcs_length.
      pose proof (requeue_length x y) as Hr.
      apply revise_inv in Er.
      destruct Er as [[_ [Hb _]] | [i [j [xs [new [_ [Ex [-> [Hs [Hb _]]]]]]]]]];
        [discriminate|].
      symmetry in Hb. apply Nat.ltb_lt in Hb.
      pose proof (total_size_set st x xs new Ex) as Ht.
      simpl in Hf. nia.
    + apply revise_false_same in Er. subst st'. apply IH. simpl in Hf. lia.
Qed.

Lemma ac3_no_timeout (arcs : option (list arc)) (st : domains) :
  ac3 cw arcs st <> Timeout.
Proof. unfold ac3. apply ac3_loop_enough_fuel. unfold ac3_fuel. lia. Qed.

Lemma ac3_loop_store_le (fuel : nat) (st st' : domains) (q : list arc) (b : bool) :
  ac3_loop cw fuel st q = Ret (b, st') -> store_le st' st.
Proof.
  revert st q. induction fuel as [|fuel IH]; intros st q H.
  - destruct q as [|[x y] q]; simpl in H; [|discriminate].
    inversion H; subst. apply store_le_refl.
  - destruct q as [|[x y] q]; simpl in H.
    + inversion H; subst. apply store_le_refl.
    + destruct (revise cw x y st) as [[r st1]| |] eqn:Er; cbn [bind] in H; try discriminate.
      pose proof (revise_store_le cw _ _ _ _ _ Er) as Hle.
      destruct r.
      * destruct (dict_get st1 x) as [ws|]; cbn [of_option bind] in H; [|discriminate].
        destruct (List.length ws =? 0).
        -- inversion H; subst. exact Hle.
        -- eapply store_le_trans; [eapply IH; eauto | exact Hle].
      * eapply store_le_trans; [eapply IH; eauto | exact Hle].
Qed.

Lemma ac3_store_le (arcs : option (list arc)) (st st' : domains) (b : bool) :
  ac3 cw arcs st = Ret (b, st') -> store_le st' st.
Proof. unfold ac3. apply ac3_loop_store_le. Qed.

Lemma store_le_known (st' st : domains) (x : Slot) :
  store_le st' st -> dict_get st x <> None -> dict_get st' x <> None.
Proof.
  intros Hle Hx Hn. apply Hx. eapply store_le_get_none; eauto.
Qed.

Lemma ac3_loop_total (fuel : nat) (st : domains) (q : list arc) :
  indexable cw st ->
  (forall v, In v (variables cw) -> dict_get st v <> None) ->
  known_arcs st q ->
  total_size st * S (List.length (variables cw)) + List.length q <= fuel ->
  exists b st', ac3_loop cw fuel st q = Ret (b, st').
Proof.
  revert st q. induction fuel as [|fuel IH]; intros st q Hix Hv Hk Hf.
  - destruct q as [|[x y] q]; simpl in *; [eauto | lia].
  - destruct q as [|[x y] q]; [simpl; eauto|].
    cbn [ac3_loop].
    destruct (Hk x y (or_introl eq_refl)) as [Hx Hy].
    destruct (revise_total cw x y st Hix Hx Hy) as [b [st' Er]]. rewrite Er. cbn [bind].
    pose proof (revise_store_le cw _ _ _ _ _ Er) as Hle.
    assert (Hix' : indexable cw st') by (eapply store_le_indexable; eauto).
    assert (Hv' : forall v, In v (variables cw) -> dict_get st' v <> None)
      by (intros v Hin; exact (store_le_known st' st v Hle (Hv v Hin))).
    destruct b.
    + destruct (dict_get st' x) as [ws|] eqn:Eg; cbn [of_option bind].
      2:{ exfalso. exact (store_le_known st' st x Hle Hx Eg). }
      destruct (List.length ws =? 0); [eauto|].
      apply IH; auto.
      * intros a c Hin. fold (requeue cw x y) in Hin. apply In_push_arcs in Hin.
        destruct Hin as [Hin|Hin].
        -- unfold requeue in Hin. apply in_map_iff in Hin.
           destruct Hin as [z [E Hz]]. inversion E; subst.
           apply filter_In in Hz. destruct Hz as [Hz _].
           apply neighbors_spec in Hz. destruct Hz as [Hz _].
           split; [apply Hv'; auto | exact (store_le_known st' st c Hle Hx)].
        -- destruct (Hk a c (or_intror Hin)) as [Ha Hc].
           split; [exact (store_le_known st' st a Hle Ha)
                  | exact (store_le_known st' st c Hle Hc)].
      * fold (requeue cw x y). rewrite push_arcs_length.
        pose proof (requeue_length x y) as Hr.
        apply revise_inv in Er.
        destruct Er as [[_ [Hb _]] | [i [j [xs [new [_ [Ex [-> [Hs [Hb _]]]]]]]]]];
          [discriminate|].
        symmetry in Hb. apply Nat.ltb_lt in Hb.
        pose proof (total_size_set st x xs new Ex) as Ht.
        simpl in Hf. nia.
    + apply revise_false_same in Er. subst st'. apply IH; auto.
      * intros a c Hin. apply Hk. right; auto.
      * simpl in Hf. lia.
Qed.

Lemma all_arcs_spec (st : domains) (x y : Slot) :
  In (x, y) (all_arcs cw st) <-> In x (dict_keys st) /\ In y (neighbors cw x).
Proof.
  unfold all_arcs. rewrite in_flat_map. split.
  - intros [x0 [Hx Hin]]. apply in_map_iff in Hin.
    destruct Hin as [y0 [E Hy]]. inversion E; subst. auto.
  - intros [Hx Hy]. exists x. split; auto. apply in_map_iff. eauto.
Qed.

(** On a store of the crossword whose words can be indexed, the default
    call [ac3()] returns. *)
Lemma ac3_total (st : domains) :
  indexable cw st -> store_of cw st ->
  exists b st', ac3 cw None st = Ret (b, st').
Proof.
  intros Hix Hst. unfold ac3. apply ac3_loop_total.
  - exact Hix.
  - intros v Hv. apply dict_get_keys. rewrite Hst. exact Hv.
  - intros x y Hin. apply In_push_arcs in Hin. destruct Hin as [Hin|[]].
    apply all_arcs_spec in Hin. destruct Hin as [Hx Hy].
    apply neighbors_spec in Hy. destruct Hy as [Hy _].
    split; apply dict_get_keys; [exact Hx | rewrite Hst; exact Hy].
  - unfold ac3_fuel. lia.
Qed.
End Ac3Facts.

(** ** [ac3]: the store it returns with [True] is arc consistent *)

Lemma compatible_sym (wx : word) (ix : nat) (wy : word) (iy : nat) :
  compatible wx ix wy iy -> compatible wy iy wx ix.
Proof. intros [Hne [c [H1 H2]]]. split; [congruence | eauto]. Qed.

Lemma dom_set_same (st : domains) (x : Slot) (ws : list word) :
  dom (dict_set st x ws) x = ws.
Proof. unfold dom. rewrite dict_get_set_same. reflexivity. Qed.

Lemma dom_set_other (st : domains) (x z : Slot) (ws : list word) :
  z <> x -> dom (dict_set st x ws) z = dom st z.
Proof. intros H. unfold dom. rewrite dict_get_set_other; auto. Qed.

Section Ac3FixedPoint.
Variable cw : Crossword.
Hypothesis Hwf : wf_crossword cw.

Lemma worklist_inv_step (x y : Slot) (st st' : domains) (q : list arc) :
  worklist_inv cw st ((x, y) :: q) ->
  revise cw x y st = Ret (true, st') ->
  worklist_inv cw st' (push_arcs (requeue cw x y) q).
Proof.
  intros Hinv Er. apply revise_inv in Er.
  destruct Er as [[_ [Hb _]] | [i [j [xs [new [Ho [Ex [-> [Hs [_ Hnew]]]]]]]]]];
    [discriminate|].
  assert (Hxy : x <> y).
  { intros ->. rewrite (overlaps_irrefl Hwf _) in Ho. discriminate. }
  intros a c Ha Hc Hac.
  destruct (Hinv a c Ha Hc Hac) as [[E|Hin]|Hcons].
  - (* the arc just revised *)
    inversion E; subst a c. right. intros i' j' Ho' w Hw.
    rewrite Ho in Ho'. inversion Ho'; subst i' j'.
    rewrite dom_set_same in Hw. rewrite dom_set_other by congruence.
    apply Hnew in Hw. destruct Hw as [_ Hw]. exact Hw.
  - left. apply In_push_arcs. right. exact Hin.
  - destruct (slot_eqb c x) eqn:Ecx.
    + apply slot_eqb_eq in Ecx. subst c.
      assert (Hax : a <> x).
      { intros ->. rewrite (overlaps_irrefl Hwf _) in Hac. congruence. }
      destruct (slot_eqb a y) eqn:Eay.
      * (* the reverse arc keeps its supports *)
        apply slot_eqb_eq in Eay. subst a. right. intros j' i' Ho' w Hw.
        rewrite (overlaps_symmetric Hwf _ _ _ _ Ho) in Ho'. inversion Ho'; subst j' i'.
        rewrite dom_set_other in Hw by congruence.
        destruct (Hcons j i (overlaps_symmetric Hwf _ _ _ _ Ho) w Hw) as [wx [Hwx Hc']].
        exists wx. split; [|exact Hc'].
        rewrite dom_set_same. apply Hnew. rewrite (dom_get _ _ _ Ex) in Hwx.
        split; [exact Hwx|]. exists w. split; [exact Hw | apply compatible_sym; exact Hc'].
      * (* an arc into [x] from another neighbor is queued again *)
        left. apply In_push_arcs. left. unfold requeue. apply in_map_iff.
        exists a. split; [reflexivity|]. apply filter_In. split.
        -- apply neighbors_spec. auto.
        -- rewrite Eay. reflexivity.
    + apply slot_eqb_neq in Ecx. right. intros i' j' Ho' w Hw.
      rewrite dom_set_other by exact Ecx.
      destruct (slot_eqb a x) eqn:Eax.
      * apply slot_eqb_eq in Eax. subst a. rewrite dom_set_same in Hw.
        apply (Hcons i' j' Ho' w). rewrite (dom_get _ _ _ Ex).
        eapply subseq_incl; eauto.
      * apply slot_eqb_neq in Eax. rewrite dom_set_other in Hw by exact Eax.
        apply (Hcons i' j' Ho' w Hw).
Qed.

Lemma worklist_inv_skip (x y : Slot) (st : domains) (q : list arc) :
  worklist_inv cw st ((x, y) :: q) ->
  revise cw x y st = Ret (false, st) ->
  worklist_inv cw st q.
Proof.
  intros Hinv Er a c Ha Hc Hac.
  destruct (Hinv a c Ha Hc Hac) as [[E|Hin]|Hcons]; auto.
  inversion E; subst a c. right.
  apply revise_inv in Er.
  destruct Er as [[Ho _] | [i [j [xs [new [Ho [Ex [Hst [Hs [Hb Hnew]]]]]]]]]];
    [congruence|].
  symmetry in Hb. apply Nat.ltb_ge in Hb.
  pose proof (subseq_length_eq _ _ _ Hs Hb) as ->.
  intros i' j' Ho' w Hw. rewrite Ho in Ho'. inversion Ho'; subst i' j'.
  rewrite (dom_get _ _ _ Ex) in Hw. apply Hnew in Hw. apply Hw.
Qed.

Lemma ac3_loop_fixed_point (fuel : nat) (st st' : domains) (q : list arc) :
  worklist_inv cw st q ->
  ac3_loop cw fuel st q = Ret (true, st') ->
  worklist_inv cw st' [].
Proof.
  revert st q. induction fuel as [|fuel IH]; intros st q Hinv H.
  - destruct q as [|[x y] q]; simpl in H; [|discriminate].
    inversion H; subst. exact Hinv.
  - destruct q as [|[x y] q]; simpl in H.
    + inversion H; subst. exact Hinv.
    + destruct (revise cw x y st) as [[r st1]| |] eqn:Er; cbn [bind] in H; try discriminate.
      destruct r.
      * destruct (dict_get st1 x) as [ws|]; cbn [of_option bind] in H; [|discriminate].
        destruct (List.length ws =? 0); [discriminate|].
        eapply IH; [|exact H]. apply worklist_inv_step with (st := st); assumption.
      * pose proof (revise_false_same cw _ _ _ _ Er) as ->.
        eapply IH; [|exact H]. eapply worklist_inv_skip; eauto.
Qed.

Lemma worklist_inv_initial (st : domains) :
  store_of cw st -> worklist_inv cw st (push_arcs (all_arcs cw st) []).
Proof.
  intros Hst x y Hx Hy Ho. left. apply In_push_arcs. left.
  apply all_arcs_spec. split; [rewrite Hst; exact Hx|].
  apply neighbors_spec. split; [exact Hy|].
  destruct (overlaps cw x y) as [[i j]|] eqn:E; [|congruence].
  split.
  - intros ->. rewrite (overlaps_irrefl Hwf _) in E. discriminate.
  - rewrite (overlaps_symmetric Hwf _ _ _ _ E). discriminate.
Qed.

Lemma ac3_arc_consistent (st st' : domains) :
  store_of cw st -> ac3 cw None st = Ret (true, st') ->
  forall x y, In x (variables cw) -> In y (variables cw) -> arc_consistent cw st' x y.
Proof.
  intros Hst H x y Hx Hy.
  pose proof (ac3_loop_fixed_point _ _ _ _ (worklist_inv_initial _ Hst) H) as Hinv.
  destruct (overlaps cw x y) as [[i j]|] eqn:Ho.
  - destruct (Hinv x y Hx Hy) as [[]|Hc]; [congruence | exact Hc].
  - intros i j Ho'. congruence.
Qed.

(** On an arc-consistent arc of an indexable store, [revise] changes nothing. *)
Lemma revise_consistent_noop (st : domains) (x y : Slot) :
  indexable cw st -> dict_get st x <> None -> dict_get st y <> None ->
  arc_consistent cw st x y ->
  revise cw x y st = Ret (false, st).
Proof.
  intros Hix Hx Hy Hc.
  destruct (revise_total cw x y st Hix Hx Hy) as [b [st' Er]].
  destruct b; [|rewrite Er; f_equal; f_equal; eapply revise_false_same; eauto].
  exfalso. pose proof Er as Er'. apply revise_inv in Er'.
  destruct Er' as [[_ [Hb _]] | [i [j [xs [new [Ho [Ex [Hst' [Hs [Hb Hnew]]]]]]]]]];
    [discriminate|].
  symmetry in Hb. apply Nat.ltb_lt in Hb.
  assert (Hincl : incl xs new).
  { intros w Hw. apply Hnew. split; [exact Hw|].
    apply (Hc i j Ho w). rewrite (dom_get _ _ _ Ex). exact Hw. }
  assert (Hne : overlaps cw x y <> None) by congruence.
  destruct (revise_inv_filter cw _ _ _ _ _ _ Er Hne Ex) as [f Hf].
  assert (Hnf : new = filter f xs).
  { rewrite <- (dom_set_same st x new), <- (dom_set_same st x (filter f xs)).
    rewrite <- Hst', <- Hf. reflexivity. }
  rewrite Hnf in Hincl, Hb. rewrite (filter_all _ _ _ Hincl) in Hb. lia.
Qed.
(** After a successful [ac3()] a further [revise] changes nothing. *)
Lemma ac3_revise_fixed (st st' : domains) :
  store_of cw st -> indexable cw st -> ac3 cw None st = Ret (true, st') ->
  forall x y, In x (variables cw) -> In y (variables cw) ->
              revise cw x y st' = Ret (false, st').
Proof.
  intros Hst Hix H x y Hx Hy.
  pose proof (ac3_store_le cw _ _ _ _ H) as Hle.
  apply revise_consistent_noop.
  - eapply store_le_indexable; eauto.
  - apply dict_get_keys. rewrite (store_le_keys _ _ Hle), Hst. exact Hx.
  - apply dict_get_keys. rewrite (store_le_keys _ _ Hle), Hst. exact Hy.
  - apply (ac3_arc_consistent st st' Hst H); assumption.
Qed.
End Ac3FixedPoint.

(** ** [ac3]: when it reports failure *)

Section Ac3Run.
Variable cw : Crossword.




End Ac3Run.

(** ** [order_domain_values] *)

Lemma insert_by_key_perm (kv : nat * word) (l : list (nat * word)) :
  Permutation (insert_by_key kv l) (kv :: l).
Proof.
  induction l as [|h t IH]; simpl; [reflexivity|].
  destruct (fst kv <=? fst h); [reflexivity|].
  rewrite IH. apply perm_swap.
Qed.

Lemma sort_by_key_perm (l : list (nat * word)) : Permutation (sort_by_key l) l.
Proof.
  induction l as [|kv t IH]; simpl; [reflexivity|].
  rewrite insert_by_key_perm. constructor. exact IH.
Qed.

Lemma insert_by_key_sorted (kv : nat * word) (l : list (nat * word)) :
  StronglySorted key_le l -> StronglySorted key_le (insert_by_key kv l).
Proof.
  induction l as [|h t IH]; simpl; intros Hs.
  - constructor; constructor.
  - inversion Hs as [|? ? Hst Hall]; subst.
    destruct (fst kv <=? fst h) eqn:E.
    + apply Nat.leb_le in E. constructor; [exact Hs|].
      constructor; [exact E|].
      eapply Forall_impl; [|exact Hall]. unfold key_le. intros; lia.
    + apply Nat.leb_gt in E. constructor; [apply IH; exact Hst|].
      eapply Permutation_Forall; [symmetry; apply insert_by_key_perm|].
      constructor; [unfold key_le; lia | exact Hall].
Qed.

Lemma sort_by_key_sorted (l : list (nat * word)) : StronglySorted key_le (sort_by_key l).
Proof.
  induction l as [|kv t IH]; simpl; [constructor|].
  apply insert_by_key_sorted. exact IH.
Qed.

Lemma sorted_map_snd (g : word -> nat) (l : list (nat * word)) :
  StronglySorted key_le l -> Forall (fun p => fst p = g (snd p)) l ->
  StronglySorted (fun w1 w2 => g w1 <= g w2) (map snd l).
Proof.
  induction 1 as [|p l Hs IH Hall]; intros Hg; simpl; [constructor|].
  inversion Hg as [|? ? Hp Hg']; subst. constructor; [apply IH; exact Hg'|].
  apply Forall_map. rewrite Forall_forall in *. intros q Hq.
  specialize (Hall q Hq). specialize (Hg' q Hq). unfold key_le in Hall. lia.
Qed.

Section OrderFacts.
Variable cw : Crossword.

Lemma char_eq_match (w : word) (i : nat) (w' : word) (j : nat) (b : bool) :
  char_eq w i w' j = Ret b -> b = char_match w i w' j.
Proof.
  unfold char_eq, char_match. destruct (String.get i w); [|discriminate].
  destruct (String.get j w'); [|discriminate]. intros H; inversion H; reflexivity.
Qed.

Lemma count_matches_spec (value : word) (cross : option (nat * nat))
      (nvs : list word) (count count' : nat) :
  count_matches value cross nvs count = Ret count' ->
  count' = count + List.length (filter (cross_match value cross) nvs).
Proof.
  revert count. induction nvs as [|nv nvs IH]; simpl; intros count H.
  - inversion H; lia.
  - destruct cross as [[c0 c1]|]; cbn [of_option bind] in H; [|discriminate].
    destruct (char_eq value c0 nv c1) as [same| |] eqn:Ec; cbn [bind] in H;
      try discriminate.
    apply char_eq_match in Ec. apply IH in H. simpl in *. rewrite <- Ec.
    destruct same; simpl; lia.
Qed.

Lemma filter_pairs_length (var : Slot) (value : word) (n : Slot) (ws : list word) :
  List.length (filter (pair_match cw var value) (map (fun w' => (n, w')) ws)) =
  List.length (filter (cross_match value (overlaps cw var n)) ws).
Proof.
  induction ws as [|w ws IH]; simpl; [reflexivity|].
  unfold pair_match at 1. simpl. unfold cross_match at 1.
  destruct (overlaps cw var n) as [[i j]|] eqn:E.
  - destruct (char_match value i w j); simpl; rewrite IH; unfold cross_match;
      reflexivity.
  - rewrite IH. reflexivity.
Qed.

Lemma count_neighbors_spec (var : Slot) (value : word) (st : domains)
      (nbrs : list Slot) (count count' : nat) :
  count_neighbors cw var value st nbrs count = Ret count' ->
  count' = count +
           List.length (filter (pair_match cw var value) (candidate_pairs st nbrs)).
Proof.
  revert count. induction nbrs as [|n nbrs IH]; simpl; intros count H.
  - inversion H; lia.
  - destruct (dict_get st n) as [nvs|] eqn:En; cbn [of_option bind] in H; [|discriminate].
    destruct (count_matches value (overlaps cw var n) nvs count) as [c1| |] eqn:Ec;
      cbn [bind] in H; try discriminate.
    apply count_matches_spec in Ec. apply IH in H.
    rewrite filter_app, length_app, filter_pairs_length, (dom_get _ _ _ En). lia.
Qed.

Lemma score_pairs (var : Slot) (a : assignment) (st : domains) (w : word) :
  score cw var a st w =
  List.length (filter (pair_match cw var w)
                      (candidate_pairs st (unassigned_neighbors cw var a))).
Proof. reflexivity. Qed.

Lemma constr_num_spec (var : Slot) (a : assignment) (st : domains)
      (values : list word) (l : list (nat * word)) :
  constr_num cw var st (unassigned_neighbors cw var a) values = Ret l ->
  l = map (fun v => (score cw var a st v, v)) values.
Proof.
  revert l. induction values as [|v values IH]; simpl; intros l H.
  - inversion H; reflexivity.
  - destruct (count_neighbors cw var v st _ 0) as [c| |] eqn:Ec; cbn [bind] in H;
      try discriminate.
    destruct (constr_num cw var st _ values) as [tl| |] eqn:Et; cbn [bind] in H;
      try discriminate.
    inversion H; subst. apply count_neighbors_spec in Ec.
    rewrite (IH tl eq_refl), score_pairs, Ec. reflexivity.
Qed.

(** What a returning call of [order_domain_values] returns. *)
Lemma order_domain_values_spec (var : Slot) (a : assignment) (st : domains)
      (l : list word) :
  order_domain_values cw var a st = Ret l ->
  exists values, dict_get st var = Some values /\ Permutation l values /\
                 StronglySorted (fun w1 w2 => score cw var a st w1 <= score cw var a st w2) l.
Proof.
  unfold order_domain_values. fold (unassigned_neighbors cw var a).
  destruct (dict_get st var) as [values|]; cbn [of_option bind]; [|discriminate].
  destruct (constr_num cw var st _ values) as [d| |] eqn:Ec; cbn [bind]; try discriminate.
  intros H; inversion H; subst. apply constr_num_spec in Ec. subst d.
  exists values. split; [reflexivity|]. split.
  - transitivity (map snd (map (fun v => (score cw var a st v, v)) values)).
    + apply Permutation_map. apply sort_by_key_perm.
    + rewrite map_map. simpl. rewrite map_id. reflexivity.
  - apply sorted_map_snd; [apply sort_by_key_sorted|].
    eapply Permutation_Forall; [symmetry; apply sort_by_key_perm|].
    apply Forall_map. apply Forall_forall. intros; reflexivity.
Qed.

Lemma count_matches_total (value : word) (i j : nat) (nvs : list word) (count : nat) :
  i < String.length value -> (forall w, In w nvs -> j < String.length w) ->
  exists c, count_matches value (Some (i, j)) nvs count = Ret c.
Proof.
  intros Hi. revert count. induction nvs as [|nv nvs IH]; simpl; intros count Hj; [eauto|].
  destruct (char_eq_total value i nv j Hi) as [same ->]; [auto|]. cbn [bind].
  apply IH. auto.
Qed.

Lemma count_neighbors_total (var : Slot) (value : word) (st : domains)
      (nbrs : list Slot) (count : nat) :
  indexable cw st -> In value (dom st var) ->
  (forall n, In n nbrs -> dict_get st n <> None /\ overlaps cw var n <> None) ->
  exists c, count_neighbors cw var value st nbrs count = Ret c.
Proof.
  intros Hix Hv. revert count. induction nbrs as [|n nbrs IH]; simpl; intros count Hn;
    [eauto|].
  destruct (Hn n (or_introl eq_refl)) as [Hg Ho].
  destruct (dict_get st n) as [nvs|] eqn:En; [|congruence]. cbn [of_option bind].
  destruct (overlaps cw var n) as [[i j]|] eqn:Eo; [|congruence].
  destruct (Hix var n i j Eo) as [Hi Hj].
  destruct (count_matches_total value i j nvs count (Hi _ Hv)) as [c ->].
  { intros w Hw. apply Hj. rewrite (dom_get _ _ _ En). exact Hw. }
  cbn [bind]. apply IH. auto.
Qed.

Lemma constr_num_total (var : Slot) (st : domains) (nbrs : list Slot)
      (values : list word) :
  indexable cw st -> incl values (dom st var) ->
  (forall n, In n nbrs -> dict_get st n <> None /\ overlaps cw var n <> None) ->
  exists l, constr_num cw var st nbrs values = Ret l.
Proof.
  intros Hix Hv Hn. induction values as [|v values IH]; simpl; [eauto|].
  destruct (count_neighbors_total var v st nbrs 0 Hix) as [c ->]; auto.
  { apply Hv. left; reflexivity. }
  destruct IH as [tl ->]; [intros w Hw; apply Hv; right; exact Hw|].
  cbn [bind]. eauto.
Qed.

(** On a store of the crossword whose words can be indexed, the call
    returns for every slot of the store. *)
Lemma order_domain_values_total (var : Slot) (a : assignment) (st : domains) :
  wf_crossword cw -> indexable cw st -> store_of cw st ->
  dict_get st var <> None ->
  exists l, order_domain_values cw var a st = Ret l.
Proof.
  intros Hwf Hix Hst Hvar. unfold order_domain_values.
  destruct (dict_get st var) as [values|] eqn:Ev; [|congruence]. cbn [of_option bind].
  destruct (constr_num_total var st
              (filter (fun v => negb (dict_mem a v)) (neighbors cw var)) values Hix)
    as [d ->].
  - rewrite (dom_get _ _ _ Ev). apply incl_refl.
  - intros n Hn. apply filter_In in Hn. destruct Hn as [Hn _].
    apply neighbors_spec in Hn. destruct Hn as [Hin [Hne Ho]]. split.
    + apply dict_get_keys. rewrite Hst. exact Hin.
    + destruct (overlaps cw n var) as [[i j]|] eqn:E; [|congruence].
      rewrite (overlaps_symmetric Hwf _ _ _ _ E). discriminate.
  - cbn [bind]. eauto.
Qed.
End OrderFacts.

(** ** [consistent] and [backtrack] *)

Section BacktrackFacts.
Variable cw : Crossword.

Lemma lengths_check (a : assignment) :
  existsb wrong_length a = false -> lengths_match a.
Proof.
  intros H key val Hin.
  destruct (wrong_length (key, val)) eqn:E.
  - assert (existsb wrong_length a = true) by (apply existsb_exists; eauto).
    congruence.
  - simpl in E. apply negb_false_iff, Nat.eqb_eq in E. exact E.
Qed.

Lemma consistent_row_total (var1 : Slot) (word1 : word) (rest : assignment) :
  overlap_indices_in_range cw ->
  var_length var1 = String.length word1 -> lengths_match rest ->
  exists b, consistent_row cw var1 word1 rest = Ret b.
Proof.
  intros Hr H1. induction rest as [|[var2 word2] rest IH]; simpl; intros Hl; [eauto|].
  assert (Hl' : lengths_match rest) by (intros k v Hin; apply Hl; right; exact Hin).
  destruct (slot_eqb var1 var2); [auto|].
  destruct (overlaps cw var1 var2) as [[i j]|] eqn:Eo; [|auto].
  destruct (Hr _ _ _ _ Eo) as [Hi Hj].
  destruct (char_eq_total word1 i word2 j) as [same ->].
  - lia.
  - rewrite <- (Hl var2 word2 (or_introl eq_refl)). exact Hj.
  - cbn [bind]. destruct same; [auto | eauto].
Qed.

Lemma consistent_rows_total (a rest : assignment) :
  overlap_indices_in_range cw -> lengths_match a -> incl rest a ->
  exists b, consistent_rows cw a rest = Ret b.
Proof.
  intros Hr Hl. induction rest as [|[var1 word1] rest IH]; simpl; intros Hin; [eauto|].
  destruct (consistent_row_total var1 word1 a Hr) as [ok ->]; auto.
  { apply Hl. apply Hin. left; reflexivity. }
  cbn [bind]. destruct ok; [|eauto].
  apply IH. intros p Hp. apply Hin. right; exact Hp.
Qed.

(** The verdict of [consistent] apart, the call is the call [ac3()]. *)
Lemma consistent_is_ac3 (a : assignment) (st : domains) :
  overlap_indices_in_range cw ->
  exists verdict : bool,
    consistent cw a st = ('(_, st') <- ac3 cw None st ;; Ret (verdict, st')).
Proof.
  intros Hr. unfold consistent.
  destruct (ac3 cw None st) as [[b st']| |]; cbn [bind].
  - destruct (existsb wrong_length a) eqn:El; [exists false; reflexivity|].
    apply lengths_check in El.
    destruct (consistent_rows_total a a Hr El (incl_refl a)) as [ok ->].
    exists ok. reflexivity.
  - exists true; reflexivity.
  - exists true; reflexivity.
Qed.

Lemma consistent_inv (a : assignment) (st st' : domains) (v : bool) :
  consistent cw a st = Ret (v, st') -> exists b, ac3 cw None st = Ret (b, st').
Proof.
  unfold consistent. destruct (ac3 cw None st) as [[b st1]| |]; cbn [bind];
    try discriminate.
  destruct (existsb wrong_length a).
  - intros H; inversion H; subst. eauto.
  - destruct (consistent_rows cw a a); cbn [bind]; try discriminate.
    intros H; inversion H; subst. eauto.
Qed.

Lemma consistent_store_le (a : assignment) (st st' : domains) (v : bool) :
  consistent cw a st = Ret (v, st') -> store_le st' st.
Proof.
  intros H. apply consistent_inv in H. destruct H as [b H].
  eapply ac3_store_le; eauto.
Qed.

(** One turn of the [for value in ...] loop of [backtrack]. *)
Lemma backtrack_loop_step
      (rec : assignment -> domains -> outcome (option assignment * domains))
      (u : Slot) (value : word) (rest : list word) (a : assignment) (st : domains) :
  backtrack_loop cw rec u (value :: rest) a st =
  ('(_, st1) <- consistent cw a st ;;
   current <- order_domain_values cw u a st1 ;;
   if mem_word value current then
     '(result, st3) <- rec (dict_set a u value) (dict_set st1 u [value]) ;;
     match result with
     | Some res => Ret (Some res, st3)
     | None => backtrack_loop cw rec u rest (dict_del (dict_set a u value) u) st3
     end
   else backtrack_loop cw rec u rest a st1).
Proof. reflexivity. Qed.

Lemma backtrack_loop_store_le
      (rec : assignment -> domains -> outcome (option assignment * domains))
      (u : Slot) (values : list word) :
  (forall a0 st0 r0 st0', rec a0 st0 = Ret (r0, st0') -> store_le st0' st0) ->
  forall a st r st',
    backtrack_loop cw rec u values a st = Ret (r, st') -> store_le st' st.
Proof.
  intros Hrec. induction values as [|value rest IH]; intros a st r st' H.
  - simpl in H. inversion H; subst. apply store_le_refl.
  - rewrite backtrack_loop_step in H.
    destruct (consistent cw a st) as [[v st1]| |] eqn:Ec; cbn [bind] in H;
      try discriminate.
    pose proof (consistent_store_le _ _ _ _ Ec) as H1.
    destruct (order_domain_values cw u a st1) as [current| |] eqn:Eo; cbn [bind] in H;
      try discriminate.
    destruct (mem_word value current) eqn:Em.
    + destruct (rec (dict_set a u value) (dict_set st1 u [value])) as [[result st3]| |]
        eqn:Er; cbn [bind] in H; try discriminate.
      apply Hrec in Er.
      assert (H2 : store_le (dict_set st1 u [value]) st1).
      { apply order_domain_values_spec in Eo.
        destruct Eo as [vals [Eg [Hperm _]]].
        apply store_le_set with (ws := vals); [exact Eg|].
        apply subseq_single. eapply Permutation_in; [exact Hperm|].
        apply mem_word_In. exact Em. }
      assert (H3 : store_le st3 st)
        by (eapply store_le_trans; [exact Er|]; eapply store_le_trans; eauto).
      destruct result as [res|].
      * inversion H; subst. exact H3.
      * eapply store_le_trans; [eapply IH; exact H | exact H3].
    + eapply store_le_trans; [eapply IH; exact H | exact H1].
Qed.

(** The search only ever prunes the domain store. *)
Lemma backtrack_store_le (fuel : nat) (a : assignment) (st : domains)
      (r : option assignment) (st' : domains) :
  backtrack cw fuel a st = Ret (r, st') -> store_le st' st.
Proof.
  revert a st r st'. induction fuel as [|fuel IH]; intros a st r st' H.
  - simpl in H. destruct (assignment_complete a st); [|discriminate].
    inversion H; subst. apply store_le_refl.
  - cbn [backtrack] in H. destruct (assignment_complete a st).
    + inversion H; subst. apply store_le_refl.
    + destruct (select_unassigned_variable cw a st) as [[u|]| |]; cbn [bind] in H;
        try discriminate.
      destruct (order_domain_values cw u a st) as [values| |]; cbn [bind] in H;
        try discriminate.
      eapply backtrack_loop_store_le; [|exact H]. exact IH.
Qed.

(** *** The verdict of [consistent] does not steer the search *)

Lemma backtrack_loop_ac3_eq
      (rec rec' : assignment -> domains -> outcome (option assignment * domains))
      (u : Slot) (values : list word) :
  overlap_indices_in_range cw ->
  (forall a st, rec a st = rec' a st) ->
  forall a st,
    backtrack_loop cw rec u values a st = backtrack_loop_ac3 cw rec' u values a st.
Proof.
  intros Hr Hrec. induction values as [|value rest IH]; intros a st; [reflexivity|].
  rewrite backtrack_loop_step. cbn [backtrack_loop_ac3].
  destruct (consistent_is_ac3 a st Hr) as [verdict ->].
  destruct (ac3 cw None st) as [[b st1]| |]; cbn [bind]; try reflexivity.
  destruct (order_domain_values cw u a st1) as [current| |]; cbn [bind]; try reflexivity.
  destruct (mem_word value current); [|apply IH].
  rewrite Hrec.
  destruct (rec' (dict_set a u value) (dict_set st1 u [value])) as [[result st3]| |];
    cbn [bind]; try reflexivity.
  destruct result; [reflexivity | apply IH].
Qed.

Lemma backtrack_ac3_eq (fuel : nat) (a : assignment) (st : domains) :
  overlap_indices_in_range cw ->
  backtrack cw fuel a st = backtrack_ac3 cw fuel a st.
Proof.
  intros Hr. revert a st. induction fuel as [|fuel IH]; intros a st; [reflexivity|].
  cbn [backtrack backtrack_ac3]. destruct (assignment_complete a st); [reflexivity|].
  destruct (select_unassigned_variable cw a st) as [[u|]| |]; cbn [bind]; try reflexivity.
  destruct (order_domain_values cw u a st) as [values| |]; cbn [bind]; try reflexivity.
  apply backtrack_loop_ac3_eq; assumption.
Qed.
End BacktrackFacts.

(** ** Well-formed concrete puzzles *)

Lemma mem_slot_In (x : Slot) (l : list Slot) : mem_slot x l = true <-> In x l.
Proof.
  unfold mem_slot. rewrite existsb_exists. split.
  - intros [y [Hy E]]. apply slot_eqb_eq in E. subst; exact Hy.
  - intros H. exists x. split; [exact H | apply slot_eqb_refl].
Qed.

Lemma nodup_slots_NoDup (l : list Slot) : nodup_slots l = true -> NoDup l.
Proof.
  induction l as [|x t IH]; simpl; [constructor|].
  rewrite andb_true_iff, negb_true_iff. intros [Hm Ht]. constructor; [|auto].
  intros Hin. apply mem_slot_In in Hin. congruence.
Qed.

Lemma overlap_table_In (vars : list Slot) (x y : Slot) (p : nat * nat) :
  overlap_table vars x y = Some p -> In x vars /\ In y vars.
Proof.
  unfold overlap_table. destruct (mem_slot x vars) eqn:Ex; [|discriminate].
  destruct (mem_slot y vars) eqn:Ey; [|discriminate]. intros _.
  split; apply mem_slot_In; assumption.
Qed.

Lemma nodup_words_NoDup (l : list word) : nodup_words l = true -> NoDup l.
Proof.
  induction l as [|w t IH]; simpl; [constructor|].
  rewrite andb_true_iff, negb_true_iff. intros [Hm Ht]. constructor; [|auto].
  intros Hin. apply mem_word_In in Hin. congruence.
Qed.

Lemma slots_check_correct (vars : list Slot) (pool : list word) :
  slots_check (puzzle vars pool) = true -> NoDup pool ->
  wf_crossword (puzzle vars pool).
Proof.
  unfold slots_check. simpl. rewrite andb_true_iff, forallb_forall.
  intros [Hnd Hall] Hpool.
  assert (Hpair : forall x y i j, overlap_table vars x y = Some (i, j) ->
                   pair_ok (puzzle vars pool) x y = true).
  { intros x y i j Ho. destruct (overlap_table_In _ _ _ _ Ho) as [Hx Hy].
    specialize (Hall x Hx). rewrite forallb_forall in Hall. apply Hall. exact Hy. }
  constructor; simpl.
  - intros x y i j Ho. specialize (Hpair x y i j Ho). unfold pair_ok in Hpair.
    simpl in Hpair. rewrite Ho in Hpair.
    rewrite !andb_true_iff, !Nat.ltb_lt in Hpair. tauto.
  - intros x y i j Ho. specialize (Hpair x y i j Ho). unfold pair_ok in Hpair.
    simpl in Hpair. rewrite Ho in Hpair. rewrite !andb_true_iff in Hpair.
    destruct Hpair as [_ Hs]. destruct (overlap_table vars y x) as [[j' i']|]; [|discriminate].
    rewrite andb_true_iff, !Nat.eqb_eq in Hs. destruct Hs; subst. reflexivity.
  - intros x. destruct (overlap_table vars x x) as [[i j]|] eqn:Ho; [|reflexivity].
    specialize (Hpair x x i j Ho). unfold pair_ok in Hpair. simpl in Hpair.
    rewrite Ho, slot_eqb_refl in Hpair. rewrite !andb_true_iff in Hpair. simpl in Hpair.
    destruct Hpair as [[_ Hf] _]. discriminate.
  - apply nodup_slots_NoDup. exact Hnd.
  - exact Hpool.
Qed.

Lemma wf_check_correct (vars : list Slot) (pool : list word) :
  wf_check (puzzle vars pool) = true -> wf_crossword (puzzle vars pool).
Proof.
  unfold wf_check. rewrite andb_true_iff. intros [Hw Hs].
  apply slots_check_correct; [exact Hs | apply nodup_words_NoDup; exact Hw].
Qed.

Lemma corner_puzzle_wf : wf_crossword corner_puzzle.
Proof. apply wf_check_correct. vm_compute. reflexivity. Qed.

Lemma ladder_puzzle_wf : wf_crossword ladder_puzzle.
Proof. apply wf_check_correct. vm_compute. reflexivity. Qed.

Lemma ring_puzzle_wf : wf_crossword ring_puzzle.
Proof. apply wf_check_correct. vm_compute. reflexivity. Qed.

Lemma cat_puzzle_wf : wf_crossword cat_puzzle.
Proof. apply wf_check_correct. vm_compute. reflexivity. Qed.

Lemma cat_solution_distinct : distinct_solution cat_puzzle cat_solution.
Proof.
  split.
  - intros x Hx. simpl in Hx. destruct Hx as [<-|[<-|[]]]; vm_compute; auto 10.
  - intros x y i j Hx Hy Ho. simpl in Hx, Hy.
    destruct Hx as [<-|[<-|[]]]; destruct Hy as [<-|[<-|[]]];
      vm_compute in Ho; try discriminate; inversion Ho; subst;
      (split; [discriminate | eexists; split; reflexivity]).
Qed.

Lemma NoDup_map_decoded (A B : Type) (f : A -> B) (g : B -> A) (l : list A) :
  NoDup l -> (forall x, In x l -> g (f x) = x) -> NoDup (map f l).
Proof.
  induction 1 as [|a l Hnot Hnd IH]; intros Hg; simpl; constructor.
  - intros Hin. apply in_map_iff in Hin. destruct Hin as [x [E Hx]].
    apply Hnot. assert (Ex : x = a).
    { rewrite <- (Hg x (or_intror Hx)), <- (Hg a (or_introl eq_refl)), E. reflexivity. }
    subst x. exact Hx.
  - apply IH. intros x Hx. apply Hg. right. exact Hx.
Qed.

Lemma N_range_ge (count : nat) (start x : N) :
  In x (N_range count start) -> (start <= x)%N.
Proof.
  revert start. induction count as [|count IH]; intros start; simpl; [tauto|].
  intros [<-|H]; [lia|]. apply IH in H. lia.
Qed.

Lemma N_range_NoDup (count : nat) (start : N) : NoDup (N_range count start).
Proof.
  revert start. induction count as [|count IH]; intros start; simpl; constructor.
  - intros H. apply N_range_ge in H. lia.
  - apply IH.
Qed.

Lemma N_range_length (count : nat) (start : N) :
  List.length (N_range count start) = count.
Proof.
  revert start. induction count as [|count IH]; intros start; simpl; [reflexivity|].
  f_equal. apply IH.
Qed.

(** The words of the large pool are pairwise different. *)
Lemma big_pool_nodup : NoDup big_pool.
Proof.
  unfold big_pool. apply NoDup_map_decoded with (g := decode_word).
  - apply N_range_NoDup.
  - assert (H : forallb (fun n => N.eqb (decode_word (big_word n)) n)
                        (N_range (S min_val_size_init) 0%N) = true)
      by (vm_compute; reflexivity).
    rewrite forallb_forall in H. intros n Hn. apply N.eqb_eq. apply H. exact Hn.
Qed.

Lemma big_puzzle_wf : wf_crossword big_puzzle.
Proof.
  apply slots_check_correct; [vm_compute; reflexivity | exact big_pool_nodup].
Qed.

Lemma big_pool_length : List.length big_pool = S min_val_size_init.
Proof. unfold big_pool. rewrite length_map, N_range_length. reflexivity. Qed.

Section StoreFacts.
Variable cw : Crossword.

Lemma init_domains_keys : dict_keys (init_domains cw) = variables cw.
Proof.
  unfold init_domains, dict_keys. rewrite map_map. simpl. apply map_id.
Qed.

Lemma enforce_node_consistency_keys (st : domains) :
  dict_keys (enforce_node_consistency st) = dict_keys st.
Proof.
  unfold enforce_node_consistency, dict_keys. rewrite map_map.
  apply map_ext. intros [v ws]; reflexivity.
Qed.

Lemma enforce_node_consistency_In (st : domains) (v : Slot) (ws' : list word) :
  In (v, ws') (enforce_node_consistency st) ->
  exists ws, In (v, ws) st /\
             ws' = filter (fun w => String.length w =? var_length v) ws.
Proof.
  unfold enforce_node_consistency. rewrite in_map_iff.
  intros [[v0 ws] [E Hin]]. inversion E; subst. eauto.
Qed.

Lemma enforce_node_consistent (st : domains) :
  node_consistent (enforce_node_consistency st).
Proof.
  intros v ws' Hin w Hw. apply enforce_node_consistency_In in Hin.
  destruct Hin as [ws [_ ->]]. apply filter_In in Hw. destruct Hw as [_ Hw].
  apply Nat.eqb_eq in Hw. exact Hw.
Qed.

Lemma initial_store_of : store_of cw (enforce_node_consistency (init_domains cw)).
Proof.
  unfold store_of. rewrite enforce_node_consistency_keys. apply init_domains_keys.
Qed.

Lemma store_le_store_of (st' st : domains) :
  store_le st' st -> store_of cw st -> store_of cw st'.
Proof. unfold store_of. intros Hle <-. apply store_le_keys. exact Hle. Qed.
End StoreFacts.

Lemma store_le_get_inv (st' st : domains) (x : Slot) (ws : list word) :
  store_le st' st -> dict_get st x = Some ws ->
  exists ws', dict_get st' x = Some ws' /\ subseq ws' ws.
Proof.
  induction 1 as [|[k' v'] [k v] l' l [Hk Hs] HF IH]; simpl; [discriminate|].
  simpl in Hk, Hs. subst k'.
  destruct (slot_eqb k x).
  - intros E; inversion E; subst. eauto.
  - auto.
Qed.

(** ** [select_unassigned_variable] and the termination of the search *)

Lemma bind_no_timeout (A B : Type) (c : outcome A) (k : A -> outcome B) :
  c <> Timeout -> (forall a, k a <> Timeout) -> bind c k <> Timeout.
Proof. intros Hc Hk. destruct c; simpl; [apply Hk | discriminate | congruence]. Qed.

Lemma of_option_no_timeout (A : Type) (o : option A) : of_option o <> Timeout.
Proof. destruct o; discriminate. Qed.

Lemma char_eq_no_timeout (w1 : word) (i : nat) (w2 : word) (j : nat) :
  char_eq w1 i w2 j <> Timeout.
Proof.
  unfold char_eq. destruct (String.get i w1); [|discriminate].
  destruct (String.get j w2); discriminate.
Qed.

Section SelectFacts.
Variable cw : Crossword.

Lemma select_loop_no_timeout (l : domains) (sel : option Slot) (m : nat) :
  select_loop cw l sel m <> Timeout.
Proof.
  revert sel m. induction l as [|[k v] l IH]; intros sel m; simpl; [discriminate|].
  destruct (List.length v <? m); [apply IH|].
  destruct (m =? List.length v); [|apply IH].
  destruct sel; [apply IH | discriminate].
Qed.

Lemma select_loop_In (l : domains) (sel : option Slot) (m : nat) (r : option Slot) :
  select_loop cw l sel m = Ret r ->
  r = sel \/ exists k, r = Some k /\ In k (dict_keys l).
Proof.
  revert sel m. induction l as [|[k v] l IH]; intros sel m; simpl.
  - intros H; inversion H; auto.
  - destruct (List.length v <? m).
    + intros H. apply IH in H. destruct H as [->|[k' [-> Hk]]]; right; eauto.
    + destruct (m =? List.length v).
      * destruct sel as [s|]; [|discriminate].
        intros H. apply IH in H. destruct H as [->|[k' [-> Hk]]].
        -- destruct (List.length (neighbors cw s) <? List.length (neighbors cw k));
             [right; eauto | left; reflexivity].
        -- right; eauto.
      * intros H. apply IH in H. destruct H as [->|[k' [-> Hk]]]; [auto | right; eauto].
Qed.

(** The slot selected is a slot of the store that is not assigned. *)
Lemma select_unassigned_In (a : assignment) (st : domains) (u : Slot) :
  select_unassigned_variable cw a st = Ret (Some u) ->
  In u (dict_keys st) /\ dict_get a u = None.
Proof.
  unfold select_unassigned_variable. intros H. apply select_loop_In in H.
  destruct H as [H|[k [E Hk]]]; [discriminate|]. inversion E; subst k.
  unfold dict_keys in Hk. apply in_map_iff in Hk. destruct Hk as [[u' v] [Eu Hin]].
  simpl in Eu. subst u'. apply filter_In in Hin. destruct Hin as [Hin Hm]. split.
  - unfold dict_keys. apply in_map_iff. exists (u, v). auto.
  - apply negb_true_iff in Hm. unfold dict_mem in Hm.
    destruct (dict_get a u); [discriminate | reflexivity].
Qed.

(** Once a slot is selected the loop ends with a slot of minimal domain
    size, of maximal degree among the slots of that size. *)
Lemma select_loop_selected (l : domains) (s : Slot) (vs : list word) :
  exists u vu,
    select_loop cw l (Some s) (List.length vs) = Ret (Some u) /\
    In (u, vu) ((s, vs) :: l) /\
    forall k v, In (k, v) ((s, vs) :: l) ->
      List.length vu <= List.length v /\
      (List.length v = List.length vu ->
       List.length (neighbors cw k) <= List.length (neighbors cw u)).
Proof.
  revert s vs. induction l as [|[k v] l IH]; intros s vs.
  - exists s, vs. split; [reflexivity|]. split; [left; reflexivity|].
    intros k v [E|[]]. inversion E; subst. split; [lia | intros _; lia].
  - cbn [select_loop]. destruct (List.length v <? List.length vs) eqn:Elt.
    + apply Nat.ltb_lt in Elt. destruct (IH k v) as [u [vu [Hr [Hin Hmin]]]].
      exists u, vu. split; [exact Hr|]. split; [right; exact Hin|].
      intros k' v' [E|Hk'].
      * inversion E; subst k' v'.
        destruct (Hmin k v (or_introl eq_refl)) as [Hle _]. split; lia.
      * apply Hmin. exact Hk'.
    + apply Nat.ltb_ge in Elt.
      destruct (List.length vs =? List.length v) eqn:Eeq.
      * apply Nat.eqb_eq in Eeq.
        destruct (List.length (neighbors cw s) <? List.length (neighbors cw k)) eqn:Ed.
        -- apply Nat.ltb_lt in Ed. rewrite Eeq.
           destruct (IH k v) as [u [vu [Hr [Hin Hmin]]]].
           exists u, vu. split; [exact Hr|]. split; [right; exact Hin|].
           intros k' v' [E|Hk'].
           ++ inversion E; subst k' v'.
              destruct (Hmin k v (or_introl eq_refl)) as [Hle Hdeg].
              split; [lia|]. intros Hl. assert (Hl' : List.length v = List.length vu) by lia.
              specialize (Hdeg Hl'). lia.
           ++ apply Hmin. exact Hk'.
        -- apply Nat.ltb_ge in Ed.
           destruct (IH s vs) as [u [vu [Hr [Hin Hmin]]]].
           exists u, vu. split; [exact Hr|].
           split; [destruct Hin as [Hin|Hin]; [left; exact Hin | right; right; exact Hin]|].
           intros k' v' [E|[E|Hk']].
           ++ apply Hmin. left. exact E.
           ++ inversion E; subst k' v'.
              destruct (Hmin s vs (or_introl eq_refl)) as [Hle Hdeg].
              split; [lia|]. intros Hl. assert (Hl' : List.length vs = List.length vu) by lia.
              specialize (Hdeg Hl'). lia.
           ++ apply Hmin. right. exact Hk'.
      * apply Nat.eqb_neq in Eeq.
        destruct (IH s vs) as [u [vu [Hr [Hin Hmin]]]].
        exists u, vu. split; [exact Hr|].
        split; [destruct Hin as [Hin|Hin]; [left; exact Hin | right; right; exact Hin]|].
        intros k' v' [E|[E|Hk']].
        -- apply Hmin. left. exact E.
        -- inversion E; subst k' v'.
           destruct (Hmin s vs (or_introl eq_refl)) as [Hle _]. split; lia.
        -- apply Hmin. right. exact Hk'.
Qed.

(** The contract of the variable ordering when every unassigned domain
    has fewer words than the starting value of [min_val_size]. *)
Lemma select_unassigned_variable_mrv (a : assignment) (st : domains) :
  (exists k v, In (k, v) st /\ dict_mem a k = false) ->
  (forall k v, In (k, v) st -> dict_mem a k = false ->
               List.length v < min_val_size_init) ->
  exists u vu,
    select_unassigned_variable cw a st = Ret (Some u) /\
    In (u, vu) st /\ dict_mem a u = false /\
    forall k v, In (k, v) st -> dict_mem a k = false ->
      List.length vu <= List.length v /\
      (List.length v = List.length vu ->
       List.length (neighbors cw k) <= List.length (neighbors cw u)).
Proof.
  intros [k0 [v0 [Hin0 Hm0]]] Hsmall. unfold select_unassigned_variable.
  set (f := fun e : Slot * list word => let '(k, _) := e in negb (dict_mem a k)).
  assert (Hf : forall k v, In (k, v) (filter f st) <-> In (k, v) st /\ dict_mem a k = false).
  { intros k v. rewrite filter_In. unfold f. rewrite negb_true_iff. reflexivity. }
  destruct (filter f st) as [|[k1 v1] l] eqn:El.
  - exfalso. assert (Hin : In (k0, v0) []) by (apply Hf; auto). destruct Hin.
  - assert (H1 : In (k1, v1) st /\ dict_mem a k1 = false) by (apply Hf; left; reflexivity).
    cbn [select_loop].
    assert (Hlt : (List.length v1 <? min_val_size_init) = true).
    { apply Nat.ltb_lt. apply (Hsmall k1 v1); tauto. }
    rewrite Hlt.
    destruct (select_loop_selected l k1 v1) as [u [vu [Hr [Hin Hmin]]]].
    exists u, vu. split; [exact Hr|].
    apply Hf in Hin. destruct Hin as [Hin Hm]. split; [exact Hin|]. split; [exact Hm|].
    intros k v Hk Hmk. apply Hmin. apply Hf. auto.
Qed.
End SelectFacts.

Section Termination.
Variable cw : Crossword.

Lemma consistent_row_no_timeout (var1 : Slot) (word1 : word) (rest : assignment) :
  consistent_row cw var1 word1 rest <> Timeout.
Proof.
  induction rest as [|[var2 word2] rest IH]; simpl; [discriminate|].
  destruct (slot_eqb var1 var2); [exact IH|].
  destruct (overlaps cw var1 var2) as [[i j]|]; [|exact IH].
  apply bind_no_timeout; [apply char_eq_no_timeout|].
  intros same. destruct same; [exact IH | discriminate].
Qed.

Lemma consistent_rows_no_timeout (a rest : assignment) :
  consistent_rows cw a rest <> Timeout.
Proof.
  induction rest as [|[var1 word1] rest IH]; simpl; [discriminate|].
  apply bind_no_timeout; [apply consistent_row_no_timeout|].
  intros ok. destruct ok; [exact IH | discriminate].
Qed.

Lemma consistent_no_timeout (a : assignment) (st : domains) :
  consistent cw a st <> Timeout.
Proof.
  unfold consistent. apply bind_no_timeout; [apply ac3_no_timeout|].
  intros [b st']. destruct (existsb wrong_length a); [discriminate|].
  apply bind_no_timeout; [apply consistent_rows_no_timeout | discriminate].
Qed.

Lemma count_matches_no_timeout (value : word) (cross : option (nat * nat))
      (nvs : list word) (count : nat) :
  count_matches value cross nvs count <> Timeout.
Proof.
  revert count. induction nvs as [|nv nvs IH]; intros count; simpl; [discriminate|].
  apply bind_no_timeout; [apply of_option_no_timeout|].
  intros [c0 c1]. apply bind_no_timeout; [apply char_eq_no_timeout|].
  intros same. apply IH.
Qed.

Lemma count_neighbors_no_timeout (var : Slot) (value : word) (st : domains)
      (nbrs : list Slot) (count : nat) :
  count_neighbors cw var value st nbrs count <> Timeout.
Proof.
  revert count. induction nbrs as [|n nbrs IH]; intros count; simpl; [discriminate|].
  apply bind_no_timeout; [apply of_option_no_timeout|].
  intros nvs. apply bind_no_timeout; [apply count_matches_no_timeout|].
  intros c. apply IH.
Qed.

Lemma constr_num_no_timeout (var : Slot) (st : domains) (nbrs : list Slot)
      (values : list word) :
  constr_num cw var st nbrs values <> Timeout.
Proof.
  induction values as [|v values IH]; simpl; [discriminate|].
  apply bind_no_timeout; [apply count_neighbors_no_timeout|].
  intros c. apply bind_no_timeout; [exact IH | discriminate].
Qed.

Lemma order_domain_values_no_timeout (var : Slot) (a : assignment) (st : domains) :
  order_domain_values cw var a st <> Timeout.
Proof.
  unfold order_domain_values. apply bind_no_timeout; [apply of_option_no_timeout|].
  intros values. apply bind_no_timeout; [apply constr_num_no_timeout | discriminate].
Qed.

Lemma dict_keys_set_fresh (V : Type) (d : list (Slot * V)) (k : Slot) (v : V) :
  dict_get d k = None -> dict_keys (dict_set d k v) = dict_keys d ++ [k].
Proof.
  induction d as [|[k' v'] d IH]; simpl; [reflexivity|].
  destruct (slot_eqb k' k); [discriminate|]. intros H. simpl. f_equal. auto.
Qed.

Lemma assignment_fits_length (a : assignment) (st : domains) :
  assignment_fits a st -> List.length a <= List.length st.
Proof.
  intros [_ [Hnd Hincl]].
  rewrite <- (length_map fst a), <- (length_map fst st).
  apply NoDup_incl_length; assumption.
Qed.

Lemma assignment_fits_store (a : assignment) (st st' : domains) :
  store_le st' st -> assignment_fits a st -> assignment_fits a st'.
Proof.
  intros Hle [H1 [H2 H3]]. unfold assignment_fits.
  rewrite (store_le_keys _ _ Hle). auto.
Qed.

Lemma assignment_fits_set (a : assignment) (st : domains) (u : Slot) (w : word) :
  assignment_fits a st -> In u (dict_keys st) -> dict_get a u = None ->
  assignment_fits (dict_set a u w) st /\
  List.length (dict_set a u w) = S (List.length a).
Proof.
  intros [H1 [H2 H3]] Hu Ha.
  pose proof (dict_keys_set_fresh _ a u w Ha) as Hk. split.
  - split; [exact H1|]. rewrite Hk. split.
    + apply NoDup_app; [exact H2 | constructor; [intros [] | constructor] |].
      intros x Hx [E|[]]. subst x. apply (proj2 (dict_get_keys _ a u)) in Hx. congruence.
    + intros x Hx. apply in_app_iff in Hx. destruct Hx as [Hx|[<-|[]]]; auto.
  - rewrite <- (length_map fst (dict_set a u w)).
    change (map fst (dict_set a u w)) with (dict_keys (dict_set a u w)).
    rewrite Hk, length_app. unfold dict_keys. rewrite length_map. simpl. lia.
Qed.

Lemma backtrack_loop_no_timeout
      (rec : assignment -> domains -> outcome (option assignment * domains))
      (fuel : nat) (u : Slot) (a : assignment) (values : list word) :
  dict_get a u = None ->
  (forall a' st', assignment_fits a' st' ->
                  List.length st' <= List.length a' + fuel -> rec a' st' <> Timeout) ->
  (forall a0 st0 r0 st0', rec a0 st0 = Ret (r0, st0') -> store_le st0' st0) ->
  forall st, assignment_fits a st -> In u (dict_keys st) ->
             List.length st <= List.length a + S fuel ->
             backtrack_loop cw rec u values a st <> Timeout.
Proof.
  intros Ha Hrec Hle. induction values as [|value rest IH]; intros st Hfit Hu Hlen;
    [simpl; discriminate|].
  rewrite backtrack_loop_step.
  pose proof (consistent_no_timeout a st) as Hc.
  destruct (consistent cw a st) as [[v st1]| |] eqn:Ec; cbn [bind]; try congruence.
  pose proof (consistent_store_le cw _ _ _ _ Ec) as H1.
  pose proof (order_domain_values_no_timeout u a st1) as Ho.
  destruct (order_domain_values cw u a st1) as [current| |] eqn:Eo; cbn [bind];
    try congruence.
  assert (Hfit1 : assignment_fits a st1) by (eapply assignment_fits_store; eauto).
  assert (Hu1 : In u (dict_keys st1)) by (rewrite (store_le_keys _ _ H1); exact Hu).
  assert (Hlen1 : List.length st1 <= List.length a + S fuel)
    by (rewrite (store_le_length _ _ H1); exact Hlen).
  destruct (mem_word value current) eqn:Em; [|apply IH; assumption].
  assert (H2 : store_le (dict_set st1 u [value]) st1).
  { apply order_domain_values_spec in Eo. destruct Eo as [vals [Eg [Hperm _]]].
    apply store_le_set with (ws := vals); [exact Eg|].
    apply subseq_single. eapply Permutation_in; [exact Hperm|].
    apply mem_word_In. exact Em. }
  destruct (assignment_fits_set a st1 u value Hfit1 Hu1 Ha) as [Hfit' Hlen'].
  assert (Hfit2 : assignment_fits (dict_set a u value) (dict_set st1 u [value]))
    by (eapply assignment_fits_store; eauto).
  assert (Hrt : rec (dict_set a u value) (dict_set st1 u [value]) <> Timeout).
  { apply Hrec; [exact Hfit2|]. rewrite (store_le_length _ _ H2), Hlen'. lia. }
  destruct (rec (dict_set a u value) (dict_set st1 u [value])) as [[result st3]| |] eqn:Er;
    cbn [bind]; try congruence.
  destruct result; [discriminate|].
  rewrite dict_del_set_fresh by exact Ha.
  pose proof (Hle _ _ _ _ Er) as H3.
  assert (H31 : store_le st3 st1) by (eapply store_le_trans; eauto).
  apply IH.
  - eapply assignment_fits_store; eauto.
  - rewrite (store_le_keys _ _ H31). exact Hu1.
  - rewrite (store_le_length _ _ H31). exact Hlen1.
Qed.

(** With one unit of fuel per unassigned slot the search never runs out
    of fuel. *)
Lemma backtrack_no_timeout (fuel : nat) (a : assignment) (st : domains) :
  assignment_fits a st -> List.length st <= List.length a + fuel ->
  backtrack cw fuel a st <> Timeout.
Proof.
  revert a st. induction fuel as [|fuel IH]; intros a st Hfit Hlen.
  - simpl. destruct (assignment_complete a st) eqn:Ec; [discriminate|].
    exfalso. unfold assignment_complete in Ec. apply Nat.eqb_neq in Ec.
    apply assignment_fits_length in Hfit. lia.
  - cbn [backtrack]. destruct (assignment_complete a st); [discriminate|].
    pose proof (select_loop_no_timeout cw
                  (filter (fun '(k, _) => negb (dict_mem a k)) st) None min_val_size_init)
      as Hs.
    fold (select_unassigned_variable cw a st) in Hs.
    destruct (select_unassigned_variable cw a st) as [[u|]| |] eqn:Es; cbn [bind];
      try congruence; try discriminate.
    apply select_unassigned_In in Es. destruct Es as [Hu Ha].
    pose proof (order_domain_values_no_timeout u a st) as Ho.
    destruct (order_domain_values cw u a st) as [values| |]; cbn [bind]; try congruence.
    apply backtrack_loop_no_timeout with (fuel := fuel); try assumption.
    intros a0 st0 r0 st0' H0. eapply backtrack_store_le; eauto.
Qed.

(** [solve] terminates: it returns or raises. *)
Lemma solve_no_timeout : NoDup (variables cw) -> solve cw <> Timeout.
Proof.
  intros Hnd. unfold solve.
  pose proof (ac3_no_timeout cw None (enforce_node_consistency (init_domains cw))) as Hac.
  destruct (ac3 cw None (enforce_node_consistency (init_domains cw))) as [[b st']| |] eqn:E;
    cbn [bind]; try congruence; try discriminate.
  pose proof (ac3_store_le cw _ _ _ _ E) as Hle.
  pose proof (store_le_store_of cw _ _ Hle (initial_store_of cw)) as Hst.
  apply backtrack_no_timeout.
  - split; [rewrite Hst; exact Hnd|]. split; [constructor | intros x []].
  - rewrite <- (length_map fst st'). change (map fst st') with (dict_keys st').
    rewrite Hst. simpl. lia.
Qed.
End Termination.

(** ** Propagation keeps the words of a solution *)

Lemma dict_get_map_key (A : Type) (g : Slot -> A) (vars : list Slot) (x : Slot) :
  In x vars -> dict_get (map (fun v => (v, g v)) vars) x = Some (g x).
Proof.
  induction vars as [|v vars IH]; simpl; [tauto|].
  destruct (slot_eqb v x) eqn:E.
  - apply slot_eqb_eq in E. subst. reflexivity.
  - intros [->|H]; [rewrite slot_eqb_refl in E; discriminate | auto].
Qed.

Lemma initial_domain (cw : Crossword) (x : Slot) :
  In x (variables cw) ->
  dict_get (enforce_node_consistency (init_domains cw)) x =
  Some (filter (fun w => String.length w =? var_length x) (words cw)).
Proof.
  intros Hx. unfold enforce_node_consistency, init_domains. rewrite map_map.
  apply (dict_get_map_key _
           (fun v => filter (fun w => String.length w =? var_length v) (words cw))).
  exact Hx.
Qed.

Section Propagation.
Variable cw : Crossword.
Variable sol : Slot -> word.
Hypothesis Hsol : distinct_solution cw sol.

Lemma revise_keeps (x y : Slot) (st st' : domains) (b : bool) :
  keeps cw sol st -> In x (variables cw) -> In y (variables cw) ->
  revise cw x y st = Ret (b, st') -> keeps cw sol st'.
Proof.
  intros Hk Hx Hy Er. apply revise_inv in Er.
  destruct Er as [[_ [_ ->]] | [i [j [xs [new [Ho [Ex [-> [_ [_ Hnew]]]]]]]]]];
    [exact Hk|].
  intros z Hz. destruct (slot_eqb z x) eqn:E.
  - apply slot_eqb_eq in E. subst z. rewrite dom_set_same. apply Hnew.
    split; [rewrite <- (dom_get _ _ _ Ex); apply Hk; exact Hx|].
    exists (sol y). split; [apply Hk; exact Hy|].
    destruct Hsol as [_ Hc]. apply Hc; assumption.
  - apply slot_eqb_neq in E. rewrite dom_set_other by exact E. apply Hk. exact Hz.
Qed.

Lemma ac3_loop_keeps (fuel : nat) (st st' : domains) (q : list arc) (b : bool) :
  keeps cw sol st -> arcs_of_puzzle cw q ->
  ac3_loop cw fuel st q = Ret (b, st') -> keeps cw sol st' /\ b = true.
Proof.
  revert st q. induction fuel as [|fuel IH]; intros st q Hk Hq H.
  - destruct q as [|[x y] q]; simpl in H; [|discriminate].
    inversion H; subst. auto.
  - destruct q as [|[x y] q]; simpl in H.
    { inversion H; subst. auto. }
    destruct (Hq x y (or_introl eq_refl)) as [Hx Hy].
    assert (Hq' : arcs_of_puzzle cw q) by (intros a c Hin; apply Hq; right; exact Hin).
    destruct (revise cw x y st) as [[r st1]| |] eqn:Er; cbn [bind] in H; try discriminate.
    pose proof (revise_keeps _ _ _ _ _ Hk Hx Hy Er) as Hk1.
    destruct r.
    + destruct (dict_get st1 x) as [ws|] eqn:Eg; cbn [of_option bind] in H; [|discriminate].
      destruct (List.length ws =? 0) eqn:El.
      * exfalso. apply Nat.eqb_eq in El. specialize (Hk1 x Hx).
        rewrite (dom_get _ _ _ Eg) in Hk1. destruct ws; [destruct Hk1 | discriminate].
      * eapply IH; [exact Hk1| |exact H].
        intros a c Hin. apply In_push_arcs in Hin. destruct Hin as [Hin|Hin]; [|auto].
        apply in_map_iff in Hin. destruct Hin as [z [E Hz]]. inversion E; subst.
        apply filter_In in Hz. destruct Hz as [Hz _].
        apply neighbors_spec in Hz. tauto.
    + eapply IH; [exact Hk1 | exact Hq' | exact H].
Qed.

Lemma initial_keeps : keeps cw sol (enforce_node_consistency (init_domains cw)).
Proof.
  intros x Hx. rewrite (dom_get _ _ _ (initial_domain cw x Hx)).
  destruct Hsol as [Hw _]. destruct (Hw x Hx) as [Hin Hlen].
  apply filter_In. split; [exact Hin | apply Nat.eqb_eq; exact Hlen].
Qed.

Lemma initial_arcs_of_puzzle (st : domains) :
  store_of cw st -> arcs_of_puzzle cw (push_arcs (all_arcs cw st) []).
Proof.
  intros Hst x y Hin. apply In_push_arcs in Hin. destruct Hin as [Hin|[]].
  apply all_arcs_spec in Hin. destruct Hin as [Hx Hy].
  rewrite Hst in Hx. apply neighbors_spec in Hy. tauto.
Qed.
End Propagation.

(** ** The search on a store that propagation has pruned to single words *)

Section SingleWords.
Variable cw : Crossword.
Variable st : domains.
Hypothesis Hwf : wf_crossword cw.
Hypothesis Hst : store_of cw st.
Hypothesis Hix : indexable cw st.
Hypothesis Hfix : forall x y, In x (variables cw) -> In y (variables cw) ->
                              revise cw x y st = Ret (false, st).
Hypothesis Hone : forall x, In x (variables cw) -> exists w, dict_get st x = Some [w].

Lemma ac3_loop_noop (q : list arc) (fuel : nat) :
  arcs_of_puzzle cw q -> List.length q <= fuel ->
  ac3_loop cw fuel st q = Ret (true, st).
Proof.
  revert fuel. induction q as [|[x y] q IH]; intros fuel Hq Hf.
  - destruct fuel; reflexivity.
  - destruct fuel as [|fuel]; [simpl in Hf; lia|].
    cbn [ac3_loop]. destruct (Hq x y (or_introl eq_refl)) as [Hx Hy].
    rewrite (Hfix x y Hx Hy). cbn [bind]. apply IH.
    + intros a c Hin. apply Hq. right. exact Hin.
    + simpl in Hf. lia.
Qed.

Lemma ac3_noop : ac3 cw None st = Ret (true, st).
Proof.
  unfold ac3. apply ac3_loop_noop.
  - apply initial_arcs_of_puzzle. exact Hst.
  - unfold ac3_fuel. lia.
Qed.

Lemma consistent_noop (a : assignment) : exists v, consistent cw a st = Ret (v, st).
Proof.
  destruct (consistent_is_ac3 cw a st (overlaps_in_range Hwf)) as [v ->].
  rewrite ac3_noop. cbn [bind]. eauto.
Qed.

Lemma order_single (u : Slot) (a : assignment) (w : word) :
  dict_get st u = Some [w] -> order_domain_values cw u a st = Ret [w].
Proof.
  intros Eu.
  destruct (order_domain_values_total cw u a st Hwf Hix Hst) as [l El]; [congruence|].
  rewrite El. apply order_domain_values_spec in El.
  destruct El as [values [Ev [Hp _]]]. rewrite Eu in Ev. inversion Ev; subst values.
  apply Permutation_sym, Permutation_length_1_inv in Hp. subst l. reflexivity.
Qed.

Lemma store_nodup : NoDup (dict_keys st).
Proof. rewrite Hst. apply (variables_nodup Hwf). Qed.

Lemma single_entry (k : Slot) (v : list word) :
  In (k, v) st -> exists w, v = [w] /\ dict_get st k = Some [w].
Proof.
  intros Hin.
  assert (Hk : In k (variables cw)).
  { rewrite <- Hst. unfold dict_keys. apply in_map_iff. exists (k, v). auto. }
  destruct (Hone k Hk) as [w Hw]. exists w.
  rewrite (dict_get_In_nodup _ st k v store_nodup Hin) in Hw.
  inversion Hw; subst. split; [reflexivity|].
  apply dict_get_In_nodup; [apply store_nodup | exact Hin].
Qed.

Lemma unassigned_exists (a : assignment) :
  assignment_fits a st -> List.length a < List.length st ->
  exists k v, In (k, v) st /\ dict_mem a k = false.
Proof.
  intros [Hnd [Hna Hincl]] Hlt.
  destruct (existsb (fun e : Slot * list word => negb (dict_mem a (fst e))) st) eqn:E.
  - apply existsb_exists in E. destruct E as [[k v] [Hin Hm]].
    exists k, v. simpl in Hm. apply negb_true_iff in Hm. auto.
  - exfalso.
    assert (Hall : incl (dict_keys st) (dict_keys a)).
    { intros k Hk. unfold dict_keys in Hk. apply in_map_iff in Hk.
      destruct Hk as [[k' v] [Ek Hin]]. simpl in Ek. subst k'.
      destruct (dict_mem a k) eqn:Em.
      - unfold dict_mem in Em. apply dict_get_keys.
        destruct (dict_get a k); [discriminate | discriminate].
      - assert (existsb (fun e : Slot * list word => negb (dict_mem a (fst e))) st = true).
        { apply existsb_exists. exists (k, v). simpl. rewrite Em. auto. }
        congruence. }
    pose proof (NoDup_incl_length Hnd Hall) as Hlen.
    unfold dict_keys in Hlen. rewrite !length_map in Hlen. lia.
Qed.

(** The search commits the single word of each slot in turn and never
    changes the store. *)
Lemma backtrack_single_words (fuel : nat) (a : assignment) :
  assignment_fits a st ->
  (forall x w, dict_get a x = Some w -> dict_get st x = Some [w]) ->
  List.length st = List.length a + fuel ->
  exists a',
    backtrack cw fuel a st = Ret (Some a', st) /\
    assignment_fits a' st /\ List.length a' = List.length st /\
    (forall x w, dict_get a' x = Some w -> dict_get st x = Some [w]).
Proof.
  revert a. induction fuel as [|fuel IH]; intros a Hfit Hval Hlen.
  - exists a. simpl. unfold assignment_complete.
    replace (List.length a =? List.length st) with true
      by (symmetry; apply Nat.eqb_eq; lia).
    split; [reflexivity|]. split; [exact Hfit|]. split; [lia | exact Hval].
  - cbn [backtrack]. unfold assignment_complete.
    replace (List.length a =? List.length st) with false
      by (symmetry; apply Nat.eqb_neq; lia).
    destruct (select_unassigned_variable_mrv cw a st) as [u [vu [Es [Hin [Hm _]]]]].
    + apply unassigned_exists; [exact Hfit | lia].
    + intros k v Hk _. destruct (single_entry k v Hk) as [w [-> _]].
      unfold min_val_size_init. simpl List.length. lia.
    + rewrite Es. cbn [bind].
      destruct (single_entry u vu Hin) as [w [-> Eu]].
      rewrite (order_single u a w Eu). cbn [bind].
      rewrite backtrack_loop_step.
      destruct (consistent_noop a) as [v ->]. cbn [bind].
      rewrite (order_single u a w Eu). cbn [bind].
      replace (mem_word w [w]) with true
        by (symmetry; apply mem_word_In; left; reflexivity).
      rewrite (dict_set_same_value _ st u [w] Eu).
      assert (Ha : dict_get a u = None).
      { unfold dict_mem in Hm. destruct (dict_get a u); [discriminate | reflexivity]. }
      assert (Hu : In u (dict_keys st)).
      { unfold dict_keys. apply in_map_iff. exists (u, [w]). auto. }
      destruct (assignment_fits_set a st u w Hfit Hu Ha) as [Hfit' Hlen'].
      destruct (IH (dict_set a u w)) as [a' [Hb [Hf' [Hl' Hv']]]].
      * exact Hfit'.
      * intros x w' Hx. destruct (slot_eqb x u) eqn:E.
        -- apply slot_eqb_eq in E. subst x. rewrite dict_get_set_same in Hx.
           inversion Hx; subst. exact Eu.
        -- apply slot_eqb_neq in E. rewrite dict_get_set_other in Hx by exact E.
           apply Hval. exact Hx.
      * rewrite Hlen'. lia.
      * rewrite Hb. cbn [bind]. exists a'. auto.
Qed.

Lemma solve_single_words :
  exists a,
    backtrack cw (List.length (variables cw)) [] st = Ret (Some a, st) /\
    forall x, In x (variables cw) -> exists w, dict_get a x = Some w /\ dom st x = [w].
Proof.
  destruct (backtrack_single_words (List.length (variables cw)) [])
    as [a [Hb [[_ [Hna Hincl]] [Hl Hv]]]].
  - split; [apply store_nodup|]. split; [constructor | intros x []].
  - intros x w H. discriminate.
  - rewrite <- Hst. unfold dict_keys. rewrite length_map. reflexivity.
  - exists a. split; [exact Hb|]. intros x Hx.
    assert (Hall : incl (dict_keys st) (dict_keys a)).
    { apply NoDup_length_incl; [exact Hna | | exact Hincl].
      unfold dict_keys. rewrite !length_map. lia. }
    assert (Hin : In x (dict_keys a)) by (apply Hall; rewrite Hst; exact Hx).
    apply dict_get_keys in Hin. destruct (dict_get a x) as [w|] eqn:E; [|congruence].
    exists w. split; [reflexivity|]. apply dom_get. apply Hv. exact E.
Qed.
End SingleWords.

(** ** What does hold of an assignment the search returns *)

Section ReturnedAssignment.
Variable cw : Crossword.

Lemma lengths_match_set (a : assignment) (u : Slot) (w : word) :
  dict_get a u = None -> lengths_match a -> var_length u = String.length w ->
  lengths_match (dict_set a u w).
Proof.
  intros Ha Hl Hw. induction a as [|[k v] a IH]; simpl.
  - intros key val [E|[]]. inversion E; subst. exact Hw.
  - simpl in Ha. destruct (slot_eqb k u) eqn:E; [discriminate|].
    intros key val [E'|Hin].
    + inversion E'; subst. apply Hl. left; reflexivity.
    + apply IH; [exact Ha | intros k' v' H'; apply Hl; right; exact H' | exact Hin].
Qed.

Lemma backtrack_loop_result
      (rec : assignment -> domains -> outcome (option assignment * domains))
      (u : Slot) (a : assignment) (values : list word) :
  dict_get a u = None -> lengths_match a ->
  (forall a0 st0 r0 st0', rec a0 st0 = Ret (r0, st0') -> store_le st0' st0) ->
  (forall a0 st0 r0 st0',
      rec a0 st0 = Ret (Some r0, st0') ->
      assignment_fits a0 st0 -> node_consistent st0 -> lengths_match a0 ->
      assignment_fits r0 st0' /\ List.length r0 = List.length st0' /\ lengths_match r0) ->
  forall st r st',
    backtrack_loop cw rec u values a st = Ret (Some r, st') ->
    assignment_fits a st -> In u (dict_keys st) -> node_consistent st ->
    assignment_fits r st' /\ List.length r = List.length st' /\ lengths_match r.
Proof.
  intros Ha Hl Hle Hrec. induction values as [|value rest IH];
    intros st r st' H Hfit Hu Hn; [simpl in H; discriminate|].
  rewrite backtrack_loop_step in H.
  destruct (consistent cw a st) as [[v st1]| |] eqn:Ec; cbn [bind] in H; try discriminate.
  pose proof (consistent_store_le cw _ _ _ _ Ec) as H1.
  destruct (order_domain_values cw u a st1) as [current| |] eqn:Eo; cbn [bind] in H;
    try discriminate.
  assert (Hfit1 : assignment_fits a st1) by (eapply assignment_fits_store; eauto).
  assert (Hu1 : In u (dict_keys st1)) by (rewrite (store_le_keys _ _ H1); exact Hu).
  assert (Hn1 : node_consistent st1) by (eapply store_le_node_consistent; eauto).
  destruct (mem_word value current) eqn:Em; [|eapply IH; eauto].
  apply order_domain_values_spec in Eo. destruct Eo as [vals [Eg [Hperm _]]].
  assert (Hval : In value vals).
  { eapply Permutation_in; [exact Hperm|]. apply mem_word_In. exact Em. }
  assert (H2 : store_le (dict_set st1 u [value]) st1).
  { apply store_le_set with (ws := vals); [exact Eg | apply subseq_single; exact Hval]. }
  destruct (assignment_fits_set a st1 u value Hfit1 Hu1 Ha) as [Hfit' _].
  assert (Hfit2 : assignment_fits (dict_set a u value) (dict_set st1 u [value]))
    by (eapply assignment_fits_store; eauto).
  assert (Hn2 : node_consistent (dict_set st1 u [value]))
    by (eapply store_le_node_consistent; eauto).
  assert (Hl2 : lengths_match (dict_set a u value)).
  { apply lengths_match_set; [exact Ha | exact Hl|].
    symmetry. apply (Hn1 u vals); [apply dict_get_In; exact Eg | exact Hval]. }
  destruct (rec (dict_set a u value) (dict_set st1 u [value])) as [[result st3]| |] eqn:Er;
    cbn [bind] in H; try discriminate.
  destruct result as [res|].
  - inversion H; subst. eapply Hrec; eauto.
  - rewrite dict_del_set_fresh in H by exact Ha.
    pose proof (Hle _ _ _ _ Er) as H3.
    assert (H31 : store_le st3 st1) by (eapply store_le_trans; eauto).
    eapply IH; [exact H | | |].
    + eapply assignment_fits_store; eauto.
    + rewrite (store_le_keys _ _ H31). exact Hu1.
    + eapply store_le_node_consistent; eauto.
Qed.

Lemma backtrack_result (fuel : nat) (a : assignment) (st : domains)
      (r : assignment) (st' : domains) :
  backtrack cw fuel a st = Ret (Some r, st') ->
  assignment_fits a st -> node_consistent st -> lengths_match a ->
  assignment_fits r st' /\ List.length r = List.length st' /\ lengths_match r.
Proof.
  revert a st r st'. induction fuel as [|fuel IH]; intros a st r st' H Hfit Hn Hl.
  - simpl in H. destruct (assignment_complete a st) eqn:Ec; [|discriminate].
    inversion H; subst. apply Nat.eqb_eq in Ec. auto.
  - cbn [backtrack] in H. destruct (assignment_complete a st) eqn:Ec.
    + inversion H; subst. apply Nat.eqb_eq in Ec. auto.
    + destruct (select_unassigned_variable cw a st) as [[u|]| |] eqn:Es; cbn [bind] in H;
        try discriminate.
      apply select_unassigned_In in Es. destruct Es as [Hu Ha].
      destruct (order_domain_values cw u a st) as [values| |]; cbn [bind] in H;
        try discriminate.
      eapply backtrack_loop_result; try eassumption.
      intros a0 st0 r0 st0' H0. eapply backtrack_store_le; eauto.
Qed.

(** An assignment returned by [solve] gives every slot of the puzzle one
    word, of the slot's length. *)
Lemma solve_result_complete (a : assignment) (st : domains) :
  NoDup (variables cw) -> solve cw = Ret (Some a, st) ->
  complete cw a /\ lengths_ok a.
Proof.
  intros Hnd H. unfold solve in H.
  destruct (ac3 cw None (enforce_node_consistency (init_domains cw))) as [[b st1]| |] eqn:E;
    cbn [bind] in H; try discriminate.
  pose proof (ac3_store_le cw _ _ _ _ E) as Hle.
  pose proof (store_le_store_of cw _ _ Hle (initial_store_of cw)) as Hst.
  pose proof (backtrack_store_le cw _ _ _ _ _ H) as Hle2.
  pose proof (store_le_store_of cw _ _ Hle2 Hst) as Hst2.
  apply backtrack_result in H.
  - destruct H as [[Hnds [Hna Hincl]] [Hlen Hl]]. split.
    + intros x Hx.
      assert (Hall : incl (dict_keys st) (dict_keys a)).
      { apply NoDup_length_incl; [exact Hna | | exact Hincl].
        unfold dict_keys. rewrite !length_map. lia. }
      assert (Hin : In x (dict_keys a)) by (apply Hall; rewrite Hst2; exact Hx).
      apply dict_get_keys in Hin. destruct (dict_get a x) as [w|]; [eauto | congruence].
    + intros x w Hg. symmetry. apply Hl. apply dict_get_In. exact Hg.
  - split; [rewrite Hst; exact Hnd|]. split; [constructor | intros x []].
  - eapply store_le_node_consistent; [exact Hle | apply enforce_node_consistent].
  - intros k v [].
Qed.
End ReturnedAssignment.

(** ** Facts about [letter_grid] *)

Lemma list_set_no_timeout (A : Type) (l : list A) (n : nat) (v : A) :
  list_set l n v <> Timeout.
Proof.
  revert n; induction l as [|h t IH]; intros [|n]; cbn; try discriminate.
  specialize (IH n). destruct (list_set t n v); cbn; congruence.
Qed.

Lemma list_set_Ret (A : Type) (l : list A) (n : nat) (v : A) (l' : list A) :
  list_set l n v = Ret l' ->
  n < List.length l /\ List.length l' = List.length l /\
  nth_error l' n = Some v /\
  forall m, m <> n -> nth_error l' m = nth_error l m.
Proof.
  revert n l'; induction l as [|h t IH]; intros [|n] l' H; cbn in H; try discriminate.
  - inversion H; subst; cbn. repeat split; try lia.
    intros [|m] Hm; [congruence | reflexivity].
  - destruct (list_set t n v) as [t'| |] eqn:E; cbn in H; try discriminate.
    inversion H; subst. destruct (IH _ _ E) as (H1 & H2 & H3 & H4).
    cbn. repeat split; try lia; auto.
    intros [|m] Hm; cbn; auto.
Qed.

Lemma list_set_total (A : Type) (l : list A) (n : nat) (v : A) :
  n < List.length l -> exists l', list_set l n v = Ret l'.
Proof.
  revert n; induction l as [|h t IH]; intros [|n] H; cbn in *; try lia; eauto.
  destruct (IH n) as [t' E]; [lia|]. rewrite E; cbn; eauto.
Qed.

Lemma letter_cell_inj (v : Slot) (k k' : nat) :
  letter_cell v k = letter_cell v k' -> k = k'.
Proof.
  unfold letter_cell; destruct (var_direction v); intros H; inversion H; lia.
Qed.

Lemma grid_set_no_timeout (g : grid) (i j : nat) (c : ascii) :
  grid_set g i j c <> Timeout.
Proof.
  unfold grid_set. destruct (nth_error g i) as [row|]; cbn; [|discriminate].
  pose proof (list_set_no_timeout _ row j (Some c)) as H.
  destruct (list_set row j (Some c)); cbn; try congruence.
  apply list_set_no_timeout.
Qed.

Lemma grid_set_Ret (h w : nat) (g g' : grid) (i j : nat) (c : ascii) :
  grid_shape h w g -> grid_set g i j c = Ret g' ->
  i < h /\ j < w /\ grid_shape h w g' /\
  grid_get g' i j = Some (Some c) /\
  forall i' j', (i', j') <> (i, j) -> grid_get g' i' j' = grid_get g i' j'.
Proof.
  intros [Hlen Hrows] H. unfold grid_set in H.
  destruct (nth_error g i) as [row|] eqn:Erow; cbn in H; [|discriminate].
  destruct (list_set row j (Some c)) as [row'| |] eqn:E1; cbn in H; try discriminate.
  destruct (list_set_Ret _ _ _ _ _ E1) as (Hj & Hl1 & Hn1 & Ho1).
  destruct (list_set_Ret _ _ _ _ _ H) as (Hi & Hl2 & Hn2 & Ho2).
  assert (Hroww : List.length row = w).
  { rewrite Forall_forall in Hrows. apply Hrows. eapply nth_error_In; eauto. }
  repeat split; try lia.
  - rewrite Forall_forall in *. intros r Hr.
    apply In_nth_error in Hr. destruct Hr as [m Hm].
    destruct (Nat.eq_dec m i) as [->|Hmi].
    + rewrite Hn2 in Hm. inversion Hm; subst. lia.
    + rewrite Ho2 in Hm by auto. apply Hrows. eapply nth_error_In; eauto.
  - unfold grid_get. rewrite Hn2. exact Hn1.
  - intros i' j' Hne. unfold grid_get.
    destruct (Nat.eq_dec i' i) as [->|Hi'].
    + rewrite Hn2, Erow. apply Ho1. congruence.
    + rewrite Ho2 by auto. reflexivity.
Qed.

Lemma grid_set_total (h w : nat) (g : grid) (i j : nat) (c : ascii) :
  grid_shape h w g -> i < h -> j < w -> exists g', grid_set g i j c = Ret g'.
Proof.
  intros [Hlen Hrows] Hi Hj. unfold grid_set.
  destruct (nth_error g i) as [row|] eqn:Erow.
  - cbn. assert (Hroww : List.length row = w).
    { rewrite Forall_forall in Hrows. apply Hrows. eapply nth_error_In; eauto. }
    destruct (list_set_total _ row j (Some c)) as [row' E]; [lia|].
    rewrite E; cbn. apply list_set_total. lia.
  - apply nth_error_None in Erow. lia.
Qed.

Lemma grid_get_shape (h w : nat) (g : grid) (i j : nat) :
  grid_shape h w g -> (grid_get g i j <> None <-> i < h /\ j < w).
Proof.
  intros [Hlen Hrows]. unfold grid_get.
  destruct (nth_error g i) as [row|] eqn:Erow.
  - assert (Hroww : List.length row = w).
    { rewrite Forall_forall in Hrows. apply Hrows. eapply nth_error_In; eauto. }
    assert (i < List.length g) by (apply nth_error_Some; congruence).
    rewrite nth_error_Some. lia.
  - apply nth_error_None in Erow. split; [congruence | lia].
Qed.

Lemma blank_grid_shape (h w : nat) : grid_shape h w (repeat (repeat None w) h).
Proof.
  split; [apply repeat_length|].
  rewrite Forall_forall. intros r Hr. apply repeat_spec in Hr. subst.
  apply repeat_length.
Qed.

Lemma blank_grid_get (h w i j : nat) :
  i < h -> j < w -> grid_get (repeat (repeat None w) h) i j = Some None.
Proof.
  intros Hi Hj. unfold grid_get.
  rewrite nth_error_repeat by lia. apply nth_error_repeat. lia.
Qed.

Lemma string_get_some_lt (w : word) (k : nat) (c : ascii) :
  String.get k w = Some c -> k < String.length w.
Proof.
  revert k; induction w as [|a w IH]; intros [|k] H; cbn in *; try discriminate; try lia.
  apply IH in H. lia.
Qed.

Lemma string_get_seq (w : word) :
  map (fun k => String.get k w) (seq 0 (String.length w)) =
  map Some (list_ascii_of_string w).
Proof.
  induction w as [|a w IH]; cbn; [reflexivity|].
  f_equal. rewrite <- seq_shift, map_map. exact IH.
Qed.

Lemma place_word_no_timeout (v : Slot) (wd : word) (ks : list nat) (g : grid) :
  place_word v wd ks g <> Timeout.
Proof.
  revert g; induction ks as [|k ks IH]; intros g; cbn; [discriminate|].
  destruct (String.get k wd); cbn; [|discriminate].
  pose proof (grid_set_no_timeout g (fst (letter_cell v k)) (snd (letter_cell v k)) a).
  destruct (grid_set g _ _ a); cbn; first [congruence | apply IH].
Qed.

Lemma place_word_shape (h w : nat) (v : Slot) (wd : word) (ks : list nat) (g g' : grid) :
  grid_shape h w g -> place_word v wd ks g = Ret g' ->
  grid_shape h w g' /\
  forall k, In k ks -> fst (letter_cell v k) < h /\ snd (letter_cell v k) < w.
Proof.
  revert g; induction ks as [|k ks IH]; intros g Hs H; cbn [place_word bind of_option] in H.
  - inversion H; subst. split; [assumption | intros k []].
  - destruct (String.get k wd) as [c|]; cbn [place_word bind of_option] in H; [|discriminate].
    destruct (grid_set g _ _ c) as [g1| |] eqn:E; cbn [place_word bind of_option] in H; try discriminate.
    destruct (grid_set_Ret _ _ _ _ _ _ _ Hs E) as (Hi & Hj & Hs1 & _).
    destruct (IH _ Hs1 H) as [Hs' Hin]. split; [assumption|].
    intros k' [<-|Hk']; auto.
Qed.

Lemma place_word_total (h w : nat) (v : Slot) (wd : word) (ks : list nat) (g : grid) :
  grid_shape h w g ->
  (forall k, In k ks -> k < String.length wd /\
                        fst (letter_cell v k) < h /\ snd (letter_cell v k) < w) ->
  exists g', place_word v wd ks g = Ret g'.
Proof.
  revert g; induction ks as [|k ks IH]; intros g Hs Hks; cbn [place_word]; [eauto|].
  destruct (Hks k (or_introl eq_refl)) as (Hk & Hi & Hj).
  destruct (string_get_lt wd k Hk) as [c ->]. cbn [of_option bind].
  destruct (grid_set_total _ _ g _ _ c Hs Hi Hj) as [g1 E]. rewrite E; cbn [bind].
  destruct (grid_set_Ret _ _ _ _ _ _ _ Hs E) as (_ & _ & Hs1 & _).
  apply IH; [assumption|]. intros k' Hk'. apply Hks. now right.
Qed.

(** What [place_word] leaves in a cell: the old content when no index of
    the loop falls on it, and otherwise the letter of such an index. *)
Lemma place_word_cell (h w : nat) (v : Slot) (wd : word) (ks : list nat)
      (g g' : grid) (i j : nat) :
  grid_shape h w g -> place_word v wd ks g = Ret g' ->
  (grid_get g' i j = grid_get g i j /\
   forall k, In k ks -> letter_cell v k <> (i, j)) \/
  (exists k c, In k ks /\ letter_cell v k = (i, j) /\ String.get k wd = Some c /\
               grid_get g' i j = Some (Some c)).
Proof.
  revert g; induction ks as [|k ks IH]; intros g Hs H; cbn [place_word bind of_option] in H.
  - inversion H; subst. left. split; [reflexivity | intros k []].
  - destruct (String.get k wd) as [c|] eqn:Ec; cbn [place_word bind of_option] in H; [|discriminate].
    destruct (grid_set g _ _ c) as [g1| |] eqn:E; cbn [place_word bind of_option] in H; try discriminate.
    destruct (grid_set_Ret _ _ _ _ _ _ _ Hs E) as (Hi & Hj & Hs1 & Hset & Hoth).
    destruct (IH _ Hs1 H) as [[Heq Hno] | (k' & c' & Hin & Hc & Hg & Hget)].
    + assert (Hd : {letter_cell v k = (i, j)} + {letter_cell v k <> (i, j)}).
      { destruct (letter_cell v k) as [ci cj].
        destruct (Nat.eq_dec ci i), (Nat.eq_dec cj j); subst; auto;
          right; congruence. }
      destruct Hd as [Hk|Hk].
      * right. exists k, c. repeat split; auto; [now left|].
        rewrite Heq. rewrite Hk in Hset. exact Hset.
      * left. split.
        -- rewrite Heq. apply Hoth. intros Hc. apply Hk.
           destruct (letter_cell v k); cbn [fst snd] in *; congruence.
        -- intros k' [<-|Hk']; auto.
    + right. exists k', c'. repeat split; auto. now right.
Qed.

Lemma covered_cons (v : Slot) (wd : word) (rest : assignment) (i j : nat) :
  covered ((v, wd) :: rest) i j <->
  (exists c, writes v wd i j c) \/ covered rest i j.
Proof.
  unfold covered. split.
  - intros (v' & w' & c & [Heq|Hin] & Hw).
    + inversion Heq; subst. left; eauto.
    + right; eauto 6.
  - intros [[c Hw] | (v' & w' & c & Hin & Hw)].
    + exists v, wd, c. split; [now left | assumption].
    + exists v', w', c. split; [now right | assumption].
Qed.

Lemma place_words_no_timeout (a : assignment) (g : grid) :
  place_words a g <> Timeout.
Proof.
  revert g; induction a as [|[v wd] a IH]; intros g; cbn; [discriminate|].
  pose proof (place_word_no_timeout v wd (seq 0 (String.length wd)) g).
  destruct (place_word v wd _ g); cbn; first [congruence | apply IH].
Qed.

Lemma place_words_shape (h w : nat) (a : assignment) (g g' : grid) :
  grid_shape h w g -> place_words a g = Ret g' ->
  grid_shape h w g' /\
  forall v wd k, In (v, wd) a -> k < String.length wd ->
                 fst (letter_cell v k) < h /\ snd (letter_cell v k) < w.
Proof.
  revert g; induction a as [|[v wd] a IH]; intros g Hs H; cbn in H.
  - inversion H; subst. split; [assumption | intros ? ? ? []].
  - destruct (place_word v wd _ g) as [g1| |] eqn:E; cbn in H; try discriminate.
    destruct (place_word_shape _ _ _ _ _ _ _ Hs E) as [Hs1 Hin1].
    destruct (IH _ Hs1 H) as [Hs' Hin]. split; [assumption|].
    intros v' wd' k [Heq|Hin'] Hk.
    + inversion Heq; subst. apply Hin1. apply in_seq. lia.
    + eapply Hin; eauto.
Qed.

Lemma place_words_total (h w : nat) (a : assignment) (g : grid) :
  grid_shape h w g ->
  (forall v wd k, In (v, wd) a -> k < String.length wd ->
                  fst (letter_cell v k) < h /\ snd (letter_cell v k) < w) ->
  exists g', place_words a g = Ret g'.
Proof.
  revert g; induction a as [|[v wd] a IH]; intros g Hs Hfit; cbn; [eauto|].
  destruct (place_word_total h w v wd (seq 0 (String.length wd)) g Hs) as [g1 E].
  { intros k Hk. apply in_seq in Hk. split; [lia|]. apply (Hfit v wd k); [now left | lia]. }
  rewrite E; cbn.
  destruct (place_word_shape _ _ _ _ _ _ _ Hs E) as [Hs1 _].
  apply IH; [assumption|]. intros v' wd' k Hin. apply Hfit. now right.
Qed.

(** What [place_words] leaves in a cell: the old content when no entry
    writes into it, and otherwise the letter written by the last entry
    that does. *)
Lemma place_words_cell (h w : nat) (a : assignment) (g g' : grid) (i j : nat) :
  grid_shape h w g -> place_words a g = Ret g' ->
  (grid_get g' i j = grid_get g i j /\ ~ covered a i j) \/
  (exists a1 v wd a2 c,
      a = a1 ++ (v, wd) :: a2 /\ writes v wd i j c /\ ~ covered a2 i j /\
      grid_get g' i j = Some (Some c)).
Proof.
  revert g; induction a as [|[v wd] a IH]; intros g Hs H; cbn in H.
  - inversion H; subst. left. split; [reflexivity|].
    intros (? & ? & ? & [] & _).
  - destruct (place_word v wd _ g) as [g1| |] eqn:E; cbn in H; try discriminate.
    destruct (place_word_shape _ _ _ _ _ _ _ Hs E) as [Hs1 _].
    destruct (IH _ Hs1 H) as [[Heq Hno] | (a1 & v' & wd' & a2 & c & Ha & Hw & Hno & Hg)].
    + destruct (place_word_cell _ _ _ _ _ _ _ i j Hs E)
        as [[Heq1 Hno1] | (k & c & Hin & Hc & Hget & Hg1)].
      * left. split; [congruence|]. rewrite covered_cons.
        intros [[c (k & Hc & Hget)] | Hcov]; [|tauto].
        apply (Hno1 k); [|assumption].
        apply in_seq. apply string_get_some_lt in Hget. lia.
      * right. exists [], v, wd, a, c. repeat split; auto.
        -- exists k; auto.
        -- congruence.
    + right. exists ((v, wd) :: a1), v', wd', a2, c. subst a. repeat split; auto.
Qed.

(** The last entry that writes into a cell decides its letter. *)
Lemma place_words_last (h w : nat) (a1 a2 : assignment) (v : Slot) (wd : word)
      (g g' : grid) (i j : nat) (c : ascii) :
  grid_shape h w g -> place_words (a1 ++ (v, wd) :: a2) g = Ret g' ->
  writes v wd i j c -> ~ covered a2 i j ->
  grid_get g' i j = Some (Some c).
Proof.
  revert g; induction a1 as [|[v0 w0] a1 IH]; intros g Hs H Hw Hno; cbn in H.
  - destruct (place_word v wd _ g) as [g1| |] eqn:E; cbn in H; try discriminate.
    destruct (place_word_shape _ _ _ _ _ _ _ Hs E) as [Hs1 _].
    destruct (place_words_cell _ _ _ _ _ i j Hs1 H)
      as [[Heq _] | (b1 & v' & wd' & b2 & c' & Ha & Hw' & _ & _)].
    + rewrite Heq.
      destruct (place_word_cell _ _ _ _ _ _ _ i j Hs E)
        as [[_ Hno1] | (k & c' & Hin & Hc & Hget & Hg1)].
      * destruct Hw as (k & Hc & Hget). exfalso. apply (Hno1 k); auto.
        apply in_seq. apply string_get_some_lt in Hget. lia.
      * destruct Hw as (k0 & Hc0 & Hget0).
        assert (k0 = k) by (apply (letter_cell_inj v); congruence). subst.
        congruence.
    + exfalso. apply Hno. exists v', wd', c'. split; [|assumption].
      subst a2. apply in_elt.
  - destruct (place_word v0 w0 _ g) as [g1| |] eqn:E; cbn in H; try discriminate.
    destruct (place_word_shape _ _ _ _ _ _ _ Hs E) as [Hs1 _].
    eapply IH; eauto.
Qed.

(** ** Facts about [print] *)

Lemma print_cell_shown (lay : Layout) (letters : grid) (i j : nat) :
  well_shaped lay -> grid_shape (height lay) (width lay) letters ->
  i < height lay -> j < width lay ->
  print_cell lay letters i j = Ret (shown lay letters i j).
Proof.
  intros [Hlen Hrows] Hs Hi Hj. unfold print_cell, shown.
  destruct (nth_error (structure lay) i) as [row|] eqn:Erow.
  - assert (Hroww : List.length row = width lay).
    { rewrite Forall_forall in Hrows. apply Hrows. eapply nth_error_In; eauto. }
    cbn [of_option bind].
    destruct (nth_error row j) as [blank|] eqn:Ecell.
    + cbn [of_option bind]. destruct blank; [|reflexivity].
      destruct (grid_get letters i j) as [l|] eqn:El; [reflexivity|].
      exfalso. apply (grid_get_shape _ _ letters i j Hs); auto.
    + apply nth_error_None in Ecell. lia.
  - apply nth_error_None in Erow. lia.
Qed.

Lemma print_cells_shown (lay : Layout) (letters : grid) (i : nat) (js : list nat)
      (out : list string) :
  well_shaped lay -> grid_shape (height lay) (width lay) letters ->
  i < height lay -> (forall j, In j js -> j < width lay) ->
  print_cells lay letters i js out = (out ++ map (shown lay letters i) js, Ret tt).
Proof.
  intros Hw Hs Hi. revert out; induction js as [|j js IH]; intros out Hjs; cbn [print_cells map].
  - now rewrite app_nil_r.
  - rewrite (print_cell_shown lay letters i j Hw Hs Hi) by (apply Hjs; now left).
    rewrite IH by (intros j' Hj'; apply Hjs; now right).
    now rewrite <- app_assoc.
Qed.

Lemma print_rows_shown (lay : Layout) (letters : grid) (rows : list nat)
      (out : list string) :
  well_shaped lay -> grid_shape (height lay) (width lay) letters ->
  (forall i, In i rows -> i < height lay) ->
  print_rows lay letters rows out =
  (out ++ flat_map (fun i => map (shown lay letters i) (seq 0 (width lay)) ++ [newline])
                   rows,
   Ret tt).
Proof.
  intros Hw Hs. revert out; induction rows as [|i rows IH]; intros out Hrows;
    cbn [print_rows flat_map].
  - now rewrite app_nil_r.
  - rewrite (print_cells_shown lay letters i (seq 0 (width lay)) out Hw Hs).
    + rewrite IH by (intros i' Hi'; apply Hrows; now right).
      now rewrite <- !app_assoc.
    + apply Hrows; now left.
    + intros j Hj. apply in_seq in Hj. lia.
Qed.

(** ** Facts about the concrete inputs of the rendering *)

Lemma writes_inj (variable : Slot) (w : word) (i j : nat) (c1 c2 : ascii) :
  writes variable w i j c1 -> writes variable w i j c2 -> c1 = c2.
Proof.
  intros (k1 & Hc1 & Hg1) (k2 & Hc2 & Hg2).
  assert (k1 = k2) by (apply (letter_cell_inj variable); congruence).
  subst. congruence.
Qed.

Lemma cat_assignment_agree : letters_agree cat_assignment.
Proof.
  assert (Hx : forall i j c1 c2,
             writes cat_across "CAT" i j c1 -> writes cat_down "CO" i j c2 -> c1 = c2).
  { intros i j c1 c2 (k1 & Hc1 & Hg1) (k2 & Hc2 & Hg2).
    unfold letter_cell in Hc1, Hc2. cbn in Hc1, Hc2.
    injection Hc1 as Hi1 Hj1. injection Hc2 as Hi2 Hj2.
    assert (E1 : k1 = 0) by lia. assert (E2 : k2 = 0) by lia. rewrite E1 in Hg1.
    rewrite E2 in Hg2.
    cbn in Hg1, Hg2. congruence. }
  intros v1 w1 v2 w2 i j c1 c2 [E1|[E1|[]]] [E2|[E2|[]]] H1 H2;
    inversion E1; inversion E2; subst.
  - eapply writes_inj; eauto.
  - eapply Hx; eauto.
  - symmetry. eapply Hx; eauto.
  - eapply writes_inj; eauto.
Qed.

Lemma cat_layout_well_shaped : well_shaped cat_layout.
Proof.
  split; [reflexivity|]. repeat constructor.
Qed.

(** ** Empty domains and the flag of [ac3] *)

Section Ac3Empty.
Variable cw : Crossword.

Lemma ac3_loop_false_empty (fuel : nat) (st st' : domains) (q : list arc) :
  ac3_loop cw fuel st q = Ret (false, st') -> exists x, dict_get st' x = Some [].
Proof.
  revert st q; induction fuel as [|fuel IH]; intros st [|[x y] q] H;
    cbn [ac3_loop] in H; try discriminate.
  destruct (revise cw x y st) as [[r st1]| |] eqn:Er; cbn [bind] in H; try discriminate.
  destruct r; [|eapply IH; eauto].
  destruct (dict_get st1 x) as [ws|] eqn:Eg; cbn [of_option bind] in H; [|discriminate].
  destruct (List.length ws =? 0) eqn:El; [|eapply IH; eauto].
  inversion H; subst. exists x. rewrite Eg.
  apply Nat.eqb_eq in El. destruct ws; [reflexivity | discriminate].
Qed.

Lemma ac3_loop_true_nonempty (fuel : nat) (st st' : domains) (q : list arc) :
  ac3_loop cw fuel st q = Ret (true, st') -> no_empty_domain st -> no_empty_domain st'.
Proof.
  revert st q; induction fuel as [|fuel IH]; intros st [|[x y] q] H Hne;
    cbn [ac3_loop] in H; try discriminate.
  - inversion H; subst; assumption.
  - inversion H; subst; assumption.
  - destruct (revise cw x y st) as [[r st1]| |] eqn:Er; cbn [bind] in H; try discriminate.
    destruct r.
    + destruct (dict_get st1 x) as [ws|] eqn:Eg; cbn [of_option bind] in H; [|discriminate].
      destruct (List.length ws =? 0) eqn:El; [discriminate|].
      eapply IH; [exact H|].
      destruct (revise_inv cw _ _ _ _ _ Er)
        as [(_ & _ & ->) | (i & j & xs & new & _ & _ & -> & _)]; [assumption|].
      intros z Hz. destruct (slot_eqb z x) eqn:E.
      * apply slot_eqb_eq in E. subst z. rewrite Eg in Hz. inversion Hz; subst.
        discriminate.
      * apply slot_eqb_neq in E. rewrite dict_get_set_other in Hz by exact E.
        exact (Hne z Hz).
    + apply revise_false_same in Er. subst st1. eapply IH; eauto.
Qed.

Lemma ac3_flag (arcs : option (list arc)) (st st' : domains) (b : bool) :
  ac3 cw arcs st = Ret (b, st') -> no_empty_domain st ->
  (b = true <-> no_empty_domain st').
Proof.
  unfold ac3. intros H Hne. destruct b.
  - split; [intros _ | reflexivity]. eapply ac3_loop_true_nonempty; eauto.
  - split; [discriminate|]. intros Hne'.
    apply ac3_loop_false_empty in H. destruct H as [x Hx]. destruct (Hne' x Hx).
Qed.

Lemma revise_empty_noop (x y : Slot) (st : domains) :
  dict_get st x = Some [] -> revise cw x y st = Ret (false, st).
Proof.
  intros Hx. unfold revise. destruct (overlaps cw x y) as [[i j]|]; [|reflexivity].
  rewrite Hx. cbn [of_option bind]. cbn.
  now rewrite dict_set_same_value.
Qed.

Lemma ac3_loop_all_empty (fuel : nat) (st : domains) (q : list arc) :
  (forall x y, In (x, y) q -> dict_get st x = Some []) ->
  List.length q <= fuel ->
  ac3_loop cw fuel st q = Ret (true, st).
Proof.
  revert q; induction fuel as [|fuel IH]; intros [|[x y] q] Hq Hlen;
    cbn [ac3_loop]; try reflexivity; cbn in Hlen; try lia.
  rewrite revise_empty_noop by (apply (Hq x y); now left).
  cbn [bind]. apply IH; [|lia]. intros x' y' Hin. apply (Hq x' y'). now right.
Qed.

Lemma ac3_all_empty (st : domains) :
  (forall x ws, In (x, ws) st -> ws = []) -> ac3 cw None st = Ret (true, st).
Proof.
  intros Hall. unfold ac3. apply ac3_loop_all_empty.
  - intros x y Hin. apply In_push_arcs in Hin. destruct Hin as [Hin|[]].
    apply all_arcs_spec in Hin. destruct Hin as [Hx _].
    apply dict_get_keys in Hx. destruct (dict_get st x) as [ws|] eqn:E; [|congruence].
    apply dict_get_In in E. now rewrite (Hall _ _ E).
  - unfold ac3_fuel. lia.
Qed.

Lemma revise_words_again (xs : list word) (i j : nat) (ys new : list word) :
  revise_words xs i j ys = Ret new -> revise_words new i j ys = Ret new.
Proof.
  revert new; induction xs as [|x xs IH]; intros new H; cbn [revise_words] in H.
  - inversion H; subst. reflexivity.
  - destruct (has_support x i j ys) as [keep| |] eqn:Eh; cbn [bind] in H; try discriminate.
    destruct (revise_words xs i j ys) as [new0| |] eqn:Er; cbn [bind] in H; try discriminate.
    inversion H; subst. specialize (IH _ eq_refl).
    destruct keep; [|exact IH].
    cbn [revise_words]. rewrite Eh, IH. reflexivity.
Qed.

Lemma revise_again (x y : Slot) (st st' : domains) (b : bool) :
  x <> y -> revise cw x y st = Ret (b, st') -> revise cw x y st' = Ret (false, st').
Proof.
  intros Hxy H. unfold revise in *.
  destruct (overlaps cw x y) as [[i j]|]; [|inversion H; subst; reflexivity].
  destruct (dict_get st x) as [xs|] eqn:Ex; cbn [of_option bind] in H; [|discriminate].
  assert (Hnew : exists new, st' = dict_set st x new /\
            (new = [] \/ exists ys, dict_get st y = Some ys /\
                                    revise_words new i j ys = Ret new)).
  { destruct xs as [|x0 xs].
    - cbn [bind] in H. inversion H; subst. exists []. auto.
    - destruct (dict_get st y) as [ys|] eqn:Ey; cbn [of_option bind] in H; [|discriminate].
      destruct (revise_words (x0 :: xs) i j ys) as [new| |] eqn:Er; cbn [bind] in H;
        try discriminate.
      inversion H; subst. exists new. split; [reflexivity|]. right. exists ys.
      split; [reflexivity|]. eapply revise_words_again; eauto. }
  destruct Hnew as (new & -> & Hcase).
  rewrite dict_get_set_same. cbn [of_option bind].
  assert (Hsame : dict_set (dict_set st x new) x new = dict_set st x new).
  { apply dict_set_same_value. apply dict_get_set_same. }
  destruct new as [|n0 new].
  - cbn [bind]. cbn. now rewrite Hsame.
  - destruct Hcase as [Hc | (ys & Ey & Er)]; [discriminate|].
    rewrite dict_get_set_other by (intros E; apply Hxy; now symmetry).
    rewrite Ey. cbn [of_option bind]. rewrite Er. cbn [bind].
    rewrite Nat.ltb_irrefl, Hsame. reflexivity.
Qed.
End Ac3Empty.

(** ** The verdict of [consistent] and the test [assignment_complete] *)

Section Verdict.
Variable cw : Crossword.

Lemma lengths_check_iff (a : assignment) :
  existsb wrong_length a = false <-> lengths_match a.
Proof.
  split; [apply lengths_check|].
  intros Hl. destruct (existsb wrong_length a) eqn:E; [|reflexivity].
  apply existsb_exists in E. destruct E as [[key val] [Hin Hw]].
  cbn in Hw. apply negb_true_iff, Nat.eqb_neq in Hw.
  destruct (Hw (Hl _ _ Hin)).
Qed.

Lemma consistent_row_spec (var1 : Slot) (word1 : word) (rest : assignment) (b : bool) :
  consistent_row cw var1 word1 rest = Ret b ->
  (b = true <->
   forall var2 word2 i j,
     In (var2, word2) rest -> var1 <> var2 -> overlaps cw var1 var2 = Some (i, j) ->
     exists c, String.get i word1 = Some c /\ String.get j word2 = Some c).
Proof.
  revert b; induction rest as [|[var2 word2] rest IH]; intros b H; cbn [consistent_row] in H.
  - inversion H; subst. split; [intros _ ? ? ? ? [] | reflexivity].
  - destruct (slot_eqb var1 var2) eqn:E.
    + apply slot_eqb_eq in E. subst var2. rewrite (IH _ H). split.
      * intros Hall v w i j [Heq|Hin] Hne Ho; [inversion Heq; subst; congruence|].
        eapply Hall; eauto.
      * intros Hall v w i j Hin. apply Hall. now right.
    + apply slot_eqb_neq in E.
      destruct (overlaps cw var1 var2) as [[i j]|] eqn:Eo.
      * destruct (char_eq word1 i word2 j) as [same| |] eqn:Ec; cbn [bind] in H;
          try discriminate.
        pose proof (char_eq_Ret _ _ _ _ _ Ec) as Hsame.
        destruct same.
        -- rewrite (IH _ H). split.
           ++ intros Hall v w i' j' [Heq|Hin] Hne Ho.
              ** inversion Heq; subst. rewrite Eo in Ho. inversion Ho; subst.
                 now apply Hsame.
              ** eapply Hall; eauto.
           ++ intros Hall v w i' j' Hin. apply Hall. now right.
        -- inversion H; subst. split; [discriminate|].
           intros Hall. apply Hsame. apply (Hall var2 word2 i j); auto. now left.
      * rewrite (IH _ H). split.
        -- intros Hall v w i' j' [Heq|Hin] Hne Ho;
             [inversion Heq; subst; congruence|]. eapply Hall; eauto.
        -- intros Hall v w i' j' Hin. apply Hall. now right.
Qed.

Lemma consistent_rows_spec (a rest : assignment) (b : bool) :
  consistent_rows cw a rest = Ret b ->
  (b = true <->
   forall var1 word1 var2 word2 i j,
     In (var1, word1) rest -> In (var2, word2) a -> var1 <> var2 ->
     overlaps cw var1 var2 = Some (i, j) ->
     exists c, String.get i word1 = Some c /\ String.get j word2 = Some c).
Proof.
  revert b; induction rest as [|[var1 word1] rest IH]; intros b H;
    cbn [consistent_rows] in H.
  - inversion H; subst. split; [intros _ ? ? ? ? ? ? [] | reflexivity].
  - destruct (consistent_row cw var1 word1 a) as [ok| |] eqn:Er; cbn [bind] in H;
      try discriminate.
    pose proof (consistent_row_spec _ _ _ _ Er) as Hrow.
    destruct ok.
    + rewrite (IH _ H). split.
      * intros Hall v1 w1 v2 w2 i j [Heq|Hin]; [|now apply Hall].
        inversion Heq; subst. now apply Hrow.
      * intros Hall v1 w1 v2 w2 i j Hin. apply Hall. now right.
    + inversion H; subst. split; [discriminate|].
      intros Hall. apply Hrow. intros v2 w2 i j. apply Hall. now left.
Qed.

Lemma consistent_verdict (a : assignment) (st st' : domains) (v : bool) :
  consistent cw a st = Ret (v, st') ->
  (v = true <-> lengths_match a /\ entries_agree cw a).
Proof.
  unfold consistent. intros H.
  destruct (ac3 cw None st) as [[b st1]| |]; cbn [bind] in H; try discriminate.
  destruct (existsb wrong_length a) eqn:El.
  - inversion H; subst. split; [discriminate|]. intros [Hl _].
    apply lengths_check_iff in Hl. congruence.
  - destruct (consistent_rows cw a a) as [ok| |] eqn:Er; cbn [bind] in H; try discriminate.
    inversion H; subst. rewrite (consistent_rows_spec _ _ _ Er).
    apply lengths_check_iff in El. unfold entries_agree. split.
    + intros Hall. split; [assumption|]. intros; eapply Hall; eauto.
    + intros [_ Hall]. intros; eapply Hall; eauto.
Qed.

Lemma assignment_complete_spec (a : assignment) (st : domains) :
  assignment_fits a st ->
  (assignment_complete a st = true <->
   forall x, In x (dict_keys st) -> dict_get a x <> None).
Proof.
  intros (Hnd & Hna & Hincl). unfold assignment_complete. rewrite Nat.eqb_eq. split.
  - intros Hlen x Hx. apply dict_get_keys.
    assert (Hall : incl (dict_keys st) (dict_keys a)).
    { apply NoDup_length_incl; [exact Hna | | exact Hincl].
      unfold dict_keys. rewrite !length_map. lia. }
    now apply Hall.
  - intros Hall.
    assert (Hincl' : incl (dict_keys st) (dict_keys a)).
    { intros x Hx. apply dict_get_keys. now apply Hall. }
    pose proof (NoDup_incl_length Hnd Hincl') as H1.
    pose proof (NoDup_incl_length Hna Hincl) as H2.
    unfold dict_keys in H1, H2. rewrite !length_map in H1, H2. lia.
Qed.
End Verdict.

(** ** The sort of [order_domain_values] is stable *)

Lemma insert_by_key_filter (s : nat) (kv : nat * word) (l : list (nat * word)) :
  filter (fun p => fst p =? s) (insert_by_key kv l) =
  filter (fun p => fst p =? s) (kv :: l).
Proof.
  induction l as [|h t IH]; [reflexivity|].
  cbn [insert_by_key]. destruct (fst kv <=? fst h) eqn:E; [reflexivity|].
  apply Nat.leb_gt in E. cbn [filter] in *. rewrite IH.
  destruct (fst h =? s) eqn:Eh, (fst kv =? s) eqn:Ek; try reflexivity.
  apply Nat.eqb_eq in Eh, Ek. lia.
Qed.

Lemma sort_by_key_filter (s : nat) (l : list (nat * word)) :
  filter (fun p => fst p =? s) (sort_by_key l) = filter (fun p => fst p =? s) l.
Proof.
  induction l as [|kv t IH]; [reflexivity|].
  cbn [sort_by_key]. rewrite insert_by_key_filter. cbn [filter]. now rewrite IH.
Qed.

Lemma filter_map_snd (g : word -> nat) (s : nat) (l : list (nat * word)) :
  Forall (fun p => fst p = g (snd p)) l ->
  filter (fun w => g w =? s) (map snd l) = map snd (filter (fun p => fst p =? s) l).
Proof.
  induction 1 as [|p l Hp _ IH]; [reflexivity|].
  cbn [map filter]. rewrite <- Hp, IH. destruct (fst p =? s); reflexivity.
Qed.

Lemma sort_by_key_same_key (k : nat) (values : list word) :
  sort_by_key (map (fun v => (k, v)) values) = map (fun v => (k, v)) values.
Proof.
  induction values as [|v values IH]; [reflexivity|].
  cbn [map sort_by_key]. rewrite IH. destruct values as [|v' values]; [reflexivity|].
  cbn [map insert_by_key fst]. now rewrite Nat.leb_refl.
Qed.

Section OrderStable.
Variable cw : Crossword.

Lemma order_domain_values_stable (var : Slot) (a : assignment) (st : domains)
      (values l : list word) (s : nat) :
  dict_get st var = Some values -> order_domain_values cw var a st = Ret l ->
  filter (fun w => score cw var a st w =? s) l =
  filter (fun w => score cw var a st w =? s) values.
Proof.
  intros Hg H. unfold order_domain_values in H. rewrite Hg in H.
  cbn [of_option bind] in H.
  destruct (constr_num cw var st _ values) as [d| |] eqn:Ec; cbn [bind] in H;
    try discriminate.
  inversion H; subst. apply (constr_num_spec cw var a) in Ec. subst d.
  rewrite (filter_map_snd (score cw var a st)).
  - rewrite sort_by_key_filter.
    rewrite <- (filter_map_snd (score cw var a st)).
    + now rewrite map_map, map_id.
    + rewrite Forall_forall. intros p Hp. apply in_map_iff in Hp.
      destruct Hp as [v [<- _]]. reflexivity.
  - rewrite Forall_forall. intros p Hp.
    apply (Permutation_in _ (sort_by_key_perm _)) in Hp. apply in_map_iff in Hp.
    destruct Hp as [v [<- _]]. reflexivity.
Qed.

Lemma constr_num_no_neighbors (var : Slot) (st : domains) (values : list word) :
  constr_num cw var st [] values = Ret (map (fun v => (0, v)) values).
Proof.
  induction values as [|v values IH]; [reflexivity|].
  cbn [constr_num count_neighbors bind map]. rewrite IH. reflexivity.
Qed.

Lemma order_domain_values_no_open_neighbor (var : Slot) (a : assignment)
      (st : domains) (values : list word) :
  (forall n, In n (neighbors cw var) -> dict_mem a n = true) ->
  dict_get st var = Some values ->
  order_domain_values cw var a st = Ret values.
Proof.
  intros Hn Hg. unfold order_domain_values.
  assert (E : filter (fun v => negb (dict_mem a v)) (neighbors cw var) = []).
  { induction (neighbors cw var) as [|n ns IH]; [reflexivity|].
    cbn [filter]. rewrite (Hn n) by now left. cbn [negb].
    apply IH. intros n' Hn'. apply Hn. now right. }
  rewrite E, Hg. cbn [of_option bind]. rewrite constr_num_no_neighbors. cbn [bind].
  rewrite sort_by_key_same_key, map_map. cbn [snd]. now rewrite map_id.
Qed.
End OrderStable.

(** ** Invariants of the search *)

Lemma subseq_nil_r (A : Type) (l : list A) : subseq l [] -> l = [].
Proof.
  intros H. apply subseq_length in H. destruct l; [reflexivity | cbn in H; lia].
Qed.

Lemma no_empty_domain_le (st' st : domains) :
  store_le st' st -> no_empty_domain st' -> no_empty_domain st.
Proof.
  intros Hle Hne x Hx.
  destruct (store_le_get_inv _ _ _ _ Hle Hx) as (ws' & Hg & Hs).
  apply subseq_nil_r in Hs. subst. exact (Hne x Hg).
Qed.

Lemma assigned_pruned_le (a : assignment) (st' st : domains) :
  store_le st' st -> assigned_pruned a st -> assigned_pruned a st'.
Proof.
  intros Hle Hp x w Hx. destruct (Hp x w Hx) as (ws & Hg & Hs).
  destruct (store_le_get_inv _ _ _ _ Hle Hg) as (ws' & Hg' & Hs').
  exists ws'. split; [assumption|]. eapply subseq_trans; eauto.
Qed.

Lemma dict_get_set_cases (V : Type) (d : list (Slot * V)) (k x : Slot) (v v' : V) :
  dict_get (dict_set d k v) x = Some v' ->
  (x = k /\ v' = v) \/ (x <> k /\ dict_get d x = Some v').
Proof.
  intros H. destruct (slot_eqb x k) eqn:E.
  - apply slot_eqb_eq in E. subst. rewrite dict_get_set_same in H. inversion H; auto.
  - apply slot_eqb_neq in E. rewrite dict_get_set_other in H by exact E. auto.
Qed.

Section SearchInvariant.
Variable cw : Crossword.
Variable P : assignment -> domains -> Prop.
Hypothesis P_le : forall a st st', P a st -> store_le st' st -> P a st'.
Hypothesis P_commit : forall a st b st1 u value vals,
    assignment_fits a st -> P a st -> ac3 cw None st = Ret (b, st1) ->
    dict_get a u = None -> dict_get st1 u = Some vals -> In value vals ->
    P (dict_set a u value) (dict_set st1 u [value]).

Lemma backtrack_loop_invariant
      (rec : assignment -> domains -> outcome (option assignment * domains))
      (u : Slot) (a : assignment) (values : list word) :
  dict_get a u = None ->
  (forall a0 st0 r0 st0', rec a0 st0 = Ret (r0, st0') -> store_le st0' st0) ->
  (forall a0 st0 r0 st0',
      rec a0 st0 = Ret (Some r0, st0') -> assignment_fits a0 st0 -> P a0 st0 ->
      P r0 st0') ->
  forall st r st',
    backtrack_loop cw rec u values a st = Ret (Some r, st') ->
    assignment_fits a st -> In u (dict_keys st) -> P a st -> P r st'.
Proof.
  intros Ha Hle Hrec. induction values as [|value rest IH];
    intros st r st' H Hfit Hu HP; [simpl in H; discriminate|].
  rewrite backtrack_loop_step in H.
  destruct (consistent cw a st) as [[v st1]| |] eqn:Ec; cbn [bind] in H; try discriminate.
  pose proof (consistent_store_le cw _ _ _ _ Ec) as H1.
  destruct (consistent_inv cw _ _ _ _ Ec) as [b Eac].
  destruct (order_domain_values cw u a st1) as [current| |] eqn:Eo; cbn [bind] in H;
    try discriminate.
  assert (Hfit1 : assignment_fits a st1) by (eapply assignment_fits_store; eauto).
  assert (Hu1 : In u (dict_keys st1)) by (rewrite (store_le_keys _ _ H1); exact Hu).
  destruct (mem_word value current) eqn:Em; [|eapply IH; eauto].
  apply order_domain_values_spec in Eo. destruct Eo as [vals [Eg [Hperm _]]].
  assert (Hval : In value vals).
  { eapply Permutation_in; [exact Hperm|]. apply mem_word_In. exact Em. }
  assert (H2 : store_le (dict_set st1 u [value]) st1).
  { apply store_le_set with (ws := vals); [exact Eg | apply subseq_single; exact Hval]. }
  destruct (assignment_fits_set a st1 u value Hfit1 Hu1 Ha) as [Hfit' _].
  assert (Hfit2 : assignment_fits (dict_set a u value) (dict_set st1 u [value]))
    by (eapply assignment_fits_store; eauto).
  assert (HP2 : P (dict_set a u value) (dict_set st1 u [value]))
    by exact (P_commit a st b st1 u value vals Hfit HP Eac Ha Eg Hval).
  destruct (rec (dict_set a u value) (dict_set st1 u [value])) as [[result st3]| |] eqn:Er;
    cbn [bind] in H; try discriminate.
  destruct result as [res|].
  - inversion H; subst. eapply Hrec; eauto.
  - rewrite dict_del_set_fresh in H by exact Ha.
    pose proof (Hle _ _ _ _ Er) as H3.
    assert (H31 : store_le st3 st1) by (eapply store_le_trans; eauto).
    assert (H30 : store_le st3 st) by (eapply store_le_trans; eauto).
    eapply IH; [exact H | | |].
    + eapply assignment_fits_store; eauto.
    + rewrite (store_le_keys _ _ H31). exact Hu1.
    + eapply P_le; eauto.
Qed.

Lemma backtrack_invariant (fuel : nat) (a : assignment) (st : domains)
      (r : assignment) (st' : domains) :
  backtrack cw fuel a st = Ret (Some r, st') ->
  assignment_fits a st -> P a st -> P r st'.
Proof.
  revert a st r st'. induction fuel as [|fuel IH]; intros a st r st' H Hfit HP.
  - simpl in H. destruct (assignment_complete a st); [|discriminate].
    inversion H; subst. assumption.
  - cbn [backtrack] in H. destruct (assignment_complete a st).
    + inversion H; subst. assumption.
    + destruct (select_unassigned_variable cw a st) as [[u|]| |] eqn:Es; cbn [bind] in H;
        try discriminate.
      apply select_unassigned_In in Es. destruct Es as [Hu Ha].
      destruct (order_domain_values cw u a st) as [values| |]; cbn [bind] in H;
        try discriminate.
      refine (backtrack_loop_invariant (backtrack cw fuel) u a values Ha _ _
                                       st r st' H Hfit Hu HP).
      * intros a0 st0 r0 st0' H0. eapply backtrack_store_le; eauto.
      * intros a0 st0 r0 st0' H0 Hf0 HP0. eapply IH; eauto.
Qed.
End SearchInvariant.

Section SearchSound.
Variable cw : Crossword.
Hypothesis Hwf : wf_crossword cw.

(** The invariant behind the soundness of a result: assigned slots have
    pruned domains, and as long as no domain is empty the words assigned
    so far are pairwise compatible. *)
Lemma sound_commit (a : assignment) (st : domains) (b : bool) (st1 : domains)
      (u : Slot) (value : word) (vals : list word) :
  assignment_fits a st ->
  store_of cw st /\ assigned_pruned a st /\ (no_empty_domain st -> crossings_ok cw a) ->
  ac3 cw None st = Ret (b, st1) ->
  dict_get a u = None -> dict_get st1 u = Some vals -> In value vals ->
  store_of cw (dict_set st1 u [value]) /\
  assigned_pruned (dict_set a u value) (dict_set st1 u [value]) /\
  (no_empty_domain (dict_set st1 u [value]) -> crossings_ok cw (dict_set a u value)).
Proof.
  intros Hfit (Hst & Hpr & Hok) Eac Ha Eg Hval.
  pose proof (ac3_store_le cw _ _ _ _ Eac) as Hle.
  pose proof (store_le_store_of cw _ _ Hle Hst) as Hst1.
  pose proof (assigned_pruned_le _ _ _ Hle Hpr) as Hpr1.
  assert (Hkn : dict_get st1 u <> None) by congruence.
  split; [|split].
  - unfold store_of in *. rewrite dict_keys_set by exact Hkn. exact Hst1.
  - intros x w Hx. apply dict_get_set_cases in Hx. destruct Hx as [[-> ->] | [Hne Hx]].
    + exists [value]. split; [apply dict_get_set_same | apply subseq_refl].
    + rewrite dict_get_set_other by exact Hne. now apply Hpr1.
  - intros Hne2.
    assert (Hne1 : no_empty_domain st1).
    { intros z Hz. destruct (slot_eqb z u) eqn:E.
      - apply slot_eqb_eq in E. subst z. rewrite Eg in Hz. inversion Hz; subst.
        destruct Hval.
      - apply slot_eqb_neq in E. apply (Hne2 z).
        rewrite dict_get_set_other by exact E. exact Hz. }
    assert (Hne0 : no_empty_domain st) by (eapply no_empty_domain_le; eauto).
    assert (Hb : b = true) by (apply (ac3_flag cw _ _ _ _ Eac Hne0); exact Hne1).
    subst b.
    pose proof (ac3_arc_consistent cw Hwf _ _ Hst Eac) as Harc.
    assert (Hu : In u (variables cw)).
    { rewrite <- Hst1. apply dict_get_keys. exact Hkn. }
    assert (Hone : forall y wy, dict_get a y = Some wy ->
                                In y (variables cw) /\ dom st1 y = [wy]).
    { intros y wy Hy. destruct (Hpr1 y wy Hy) as (ws & Hg & Hs). split.
      - rewrite <- Hst1. apply dict_get_keys. congruence.
      - unfold dom. rewrite Hg. apply subseq_single_inv in Hs.
        destruct Hs as [-> | ->]; [destruct (Hne1 y Hg) | reflexivity]. }
    assert (Hcross : forall y i j wy, overlaps cw u y = Some (i, j) ->
                       dict_get a y = Some wy -> compatible value i wy j).
    { intros y i j wy Ho Hy. destruct (Hone y wy Hy) as [Hyv Hdy].
      destruct (Harc u y Hu Hyv i j Ho value) as (w' & Hin & Hc).
      - unfold dom. rewrite Eg. exact Hval.
      - rewrite Hdy in Hin. destruct Hin as [<-|[]]. exact Hc. }
    intros x y i j wx wy Hxy Ho Hx Hy.
    apply dict_get_set_cases in Hx. apply dict_get_set_cases in Hy.
    destruct Hx as [[-> ->] | [Hxu Hx]], Hy as [[-> ->] | [Hyu Hy]].
    + congruence.
    + exact (Hcross y i j wy Ho Hy).
    + apply compatible_sym.
      apply (Hcross x j i wx); [apply (overlaps_symmetric Hwf); exact Ho | exact Hx].
    + exact (Hok Hne0 x y i j wx wy Hxy Ho Hx Hy).
Qed.

Lemma backtrack_sound (fuel : nat) (a : assignment) (st : domains)
      (r : assignment) (st' : domains) :
  backtrack cw fuel a st = Ret (Some r, st') ->
  assignment_fits a st -> store_of cw st -> assigned_pruned a st ->
  (no_empty_domain st -> crossings_ok cw a) ->
  no_empty_domain st' -> crossings_ok cw r.
Proof.
  intros H Hfit Hst Hpr Hok Hne.
  pose (P := fun (a : assignment) (st : domains) =>
               store_of cw st /\ assigned_pruned a st /\
               (no_empty_domain st -> crossings_ok cw a)).
  assert (HP : P r st').
  { apply (backtrack_invariant cw P) with (fuel := fuel) (a := a) (st := st); auto.
    - intros a0 st0 st0' (H1 & H2 & H3) Hle. split; [|split].
      + eapply store_le_store_of; eauto.
      + eapply assigned_pruned_le; eauto.
      + intros Hn. apply H3. eapply no_empty_domain_le; eauto.
    - intros a0 st0 b st1 u value vals. apply sound_commit.
    - unfold P; auto. }
  destruct HP as (_ & _ & HP). now apply HP.
Qed.
End SearchSound.

(** ** [solve] returns: no exception on a well-formed puzzle *)

Lemma small_domains_le (st' st : domains) :
  store_le st' st -> small_domains st -> small_domains st'.
Proof.
  intros Hle Hs k v Hin.
  induction Hle as [|[k' v'] [k0 v0] l' l [Hk Hsub] _ IH]; [destruct Hin|].
  cbn in Hk, Hsub. destruct Hin as [E|Hin].
  - inversion E; subst. apply subseq_length in Hsub.
    pose proof (Hs _ _ (or_introl eq_refl)). lia.
  - apply IH; [|exact Hin]. intros k1 v1 H1. apply (Hs k1 v1). now right.
Qed.

Lemma pool_words_le (cw : Crossword) (st' st : domains) :
  store_le st' st -> pool_words cw st -> pool_words cw st'.
Proof.
  intros Hle Hs k v Hin.
  induction Hle as [|[k' v'] [k0 v0] l' l [Hk Hsub] _ IH]; [destruct Hin|].
  cbn in Hk, Hsub. destruct Hin as [E|Hin].
  - inversion E; subst. intros w Hw. apply (Hs _ _ (or_introl eq_refl)).
    eapply subseq_incl; eauto.
  - apply IH; [|exact Hin]. intros k1 v1 H1. apply (Hs k1 v1). now right.
Qed.

Lemma initial_small_domains (cw : Crossword) :
  List.length (words cw) < min_val_size_init ->
  small_domains (enforce_node_consistency (init_domains cw)).
Proof.
  intros Hlen k v Hin. apply enforce_node_consistency_In in Hin.
  destruct Hin as (ws & Hin & ->). unfold init_domains in Hin.
  apply in_map_iff in Hin. destruct Hin as (x & E & _). inversion E; subst.
  eapply Nat.le_lt_trans; [apply subseq_length, subseq_filter | exact Hlen].
Qed.

Lemma initial_pool_words (cw : Crossword) :
  pool_words cw (enforce_node_consistency (init_domains cw)).
Proof.
  intros k v Hin. apply enforce_node_consistency_In in Hin.
  destruct Hin as (ws & Hin & ->). unfold init_domains in Hin.
  apply in_map_iff in Hin. destruct Hin as (x & E & _). inversion E; subst.
  apply subseq_incl, subseq_filter.
Qed.

Section SearchTotal.
Variable cw : Crossword.
Hypothesis Hwf : wf_crossword cw.

Lemma consistent_total (a : assignment) (st : domains) :
  store_of cw st -> node_consistent st -> lengths_match a ->
  exists v st', consistent cw a st = Ret (v, st').
Proof.
  intros Hst Hn Hl. unfold consistent.
  destruct (ac3_total cw st (node_consistent_indexable cw st Hwf Hn) Hst) as (b & st' & E).
  rewrite E. cbn [bind].
  destruct (existsb wrong_length a); [eauto|].
  destruct (consistent_rows_total cw a a) as [ok Eok]; auto.
  - intros x y i j. apply (overlaps_in_range Hwf).
  - apply incl_refl.
  - rewrite Eok. cbn [bind]. eauto.
Qed.

Lemma backtrack_loop_total
      (rec : assignment -> domains -> outcome (option assignment * domains))
      (fuel : nat) (u : Slot) (a : assignment) (values : list word) :
  dict_get a u = None -> lengths_match a ->
  (forall a' st', assignment_fits a' st' -> store_of cw st' -> node_consistent st' ->
                  small_domains st' -> lengths_match a' ->
                  List.length st' <= List.length a' + fuel ->
                  exists r st'', rec a' st' = Ret (r, st'')) ->
  (forall a0 st0 r0 st0', rec a0 st0 = Ret (r0, st0') -> store_le st0' st0) ->
  forall st, assignment_fits a st -> store_of cw st -> node_consistent st ->
             small_domains st -> In u (dict_keys st) ->
             List.length st <= List.length a + S fuel ->
             exists r st', backtrack_loop cw rec u values a st = Ret (r, st').
Proof.
  intros Ha Hl Hrec Hle. induction values as [|value rest IH];
    intros st Hfit Hst Hn Hsm Hu Hlen; [cbn; eauto|].
  rewrite backtrack_loop_step.
  destruct (consistent_total a st Hst Hn Hl) as (v & st1 & Ec). rewrite Ec. cbn [bind].
  pose proof (consistent_store_le cw _ _ _ _ Ec) as H1.
  assert (Hfit1 : assignment_fits a st1) by (eapply assignment_fits_store; eauto).
  assert (Hst1 : store_of cw st1) by (eapply store_le_store_of; eauto).
  assert (Hn1 : node_consistent st1) by (eapply store_le_node_consistent; eauto).
  assert (Hsm1 : small_domains st1) by (eapply small_domains_le; eauto).
  assert (Hu1 : In u (dict_keys st1)) by (rewrite (store_le_keys _ _ H1); exact Hu).
  assert (Hlen1 : List.length st1 = List.length st) by (apply store_le_length; exact H1).
  destruct (order_domain_values_total cw u a st1 Hwf
              (node_consistent_indexable cw st1 Hwf Hn1) Hst1) as [current Eo].
  { apply dict_get_keys. exact Hu1. }
  rewrite Eo. cbn [bind].
  destruct (mem_word value current) eqn:Em; [|apply IH; auto; lia].
  apply order_domain_values_spec in Eo. destruct Eo as [vals [Eg [Hperm _]]].
  assert (Hval : In value vals).
  { eapply Permutation_in; [exact Hperm|]. apply mem_word_In. exact Em. }
  assert (H2 : store_le (dict_set st1 u [value]) st1).
  { apply store_le_set with (ws := vals); [exact Eg | apply subseq_single; exact Hval]. }
  destruct (assignment_fits_set a st1 u value Hfit1 Hu1 Ha) as [Hfit' Hlen'].
  assert (Hl2 : lengths_match (dict_set a u value)).
  { apply lengths_match_set; [exact Ha | exact Hl|].
    symmetry. apply (Hn1 u vals); [apply dict_get_In; exact Eg | exact Hval]. }
  pose proof (store_le_length _ _ H2) as Hlen2.
  destruct (Hrec (dict_set a u value) (dict_set st1 u [value])) as (result & st3 & Er).
  { eapply assignment_fits_store; eauto. }
  { eapply store_le_store_of; eauto. }
  { eapply store_le_node_consistent; eauto. }
  { eapply small_domains_le; eauto. }
  { exact Hl2. }
  { lia. }
  rewrite Er. cbn [bind]. destruct result as [res|]; [eauto|].
  rewrite dict_del_set_fresh by exact Ha.
  pose proof (Hle _ _ _ _ Er) as H3.
  assert (H31 : store_le st3 st1) by (eapply store_le_trans; eauto).
  apply IH.
  - eapply assignment_fits_store; eauto.
  - eapply store_le_store_of; eauto.
  - eapply store_le_node_consistent; eauto.
  - eapply small_domains_le; eauto.
  - rewrite (store_le_keys _ _ H31). exact Hu1.
  - rewrite (store_le_length _ _ H31). lia.
Qed.

Lemma backtrack_total (fuel : nat) (a : assignment) (st : domains) :
  assignment_fits a st -> store_of cw st -> node_consistent st ->
  small_domains st -> lengths_match a ->
  List.length st <= List.length a + fuel ->
  exists r st', backtrack cw fuel a st = Ret (r, st').
Proof.
  revert a st. induction fuel as [|fuel IH]; intros a st Hfit Hst Hn Hsm Hl Hlen.
  - pose proof (assignment_fits_length _ _ Hfit) as Hle.
    cbn [backtrack]. unfold assignment_complete.
    replace (List.length a =? List.length st) with true
      by (symmetry; apply Nat.eqb_eq; lia).
    eauto.
  - cbn [backtrack]. destruct (assignment_complete a st) eqn:Ec; [eauto|].
    unfold assignment_complete in Ec. apply Nat.eqb_neq in Ec.
    pose proof (assignment_fits_length _ _ Hfit) as Hle.
    destruct (select_unassigned_variable_mrv cw a st) as (u & vu & Es & Hin & Hm & _).
    { apply unassigned_exists; [exact Hfit | lia]. }
    { intros k v Hk _. exact (Hsm k v Hk). }
    rewrite Es. cbn [bind].
    apply select_unassigned_In in Es. destruct Es as [Hu Ha].
    destruct (order_domain_values_total cw u a st Hwf
                (node_consistent_indexable cw st Hwf Hn) Hst) as [values Eo].
    { apply dict_get_keys. exact Hu. }
    rewrite Eo. cbn [bind].
    apply (backtrack_loop_total (backtrack cw fuel) fuel u a values Ha Hl); auto.
    intros a0 st0 r0 st0' H0. eapply backtrack_store_le; eauto.
Qed.

Lemma solve_total :
  List.length (words cw) < min_val_size_init ->
  exists r st, solve cw = Ret (r, st).
Proof.
  intros Hlen. unfold solve.
  pose proof (initial_store_of cw) as Hst0.
  pose proof (enforce_node_consistent (init_domains cw)) as Hn0.
  destruct (ac3_total cw _ (node_consistent_indexable cw _ Hwf Hn0) Hst0) as (b & st1 & E).
  rewrite E. cbn [bind].
  pose proof (ac3_store_le cw _ _ _ _ E) as Hle.
  pose proof (store_le_store_of cw _ _ Hle Hst0) as Hst1.
  apply backtrack_total.
  - split; [rewrite Hst1; apply (variables_nodup Hwf)|].
    split; [constructor | intros x []].
  - exact Hst1.
  - eapply store_le_node_consistent; eauto.
  - eapply small_domains_le; [exact Hle | apply initial_small_domains; exact Hlen].
  - intros k v [].
  - rewrite <- Hst1. unfold dict_keys. rewrite length_map. cbn. lia.
Qed.
End SearchTotal.

(** ** Dead ends: an empty domain, a failed trial *)

Section DeadEnds.
Variable cw : Crossword.

Lemma order_domain_values_empty (u : Slot) (a : assignment) (st : domains) :
  dict_get st u = Some [] -> order_domain_values cw u a st = Ret [].
Proof.
  intros Hg. unfold order_domain_values. rewrite Hg. reflexivity.
Qed.

Lemma backtrack_empty_domain (fuel : nat) (a : assignment) (st : domains) (x : Slot) :
  assignment_fits a st -> small_domains st ->
  In (x, []) st -> dict_mem a x = false ->
  backtrack cw (S fuel) a st = Ret (None, st).
Proof.
  intros Hfit Hsm Hx Hm.
  destruct (select_unassigned_variable_mrv cw a st) as (u & vu & Es & Hin & Hmu & Hmin).
  { exists x, []. auto. }
  { intros k v Hk _. exact (Hsm k v Hk). }
  assert (Hvu : vu = []).
  { destruct (Hmin x [] Hx Hm) as [Hle _]. destruct vu; [reflexivity | cbn in Hle; lia]. }
  subst vu.
  assert (Hc : assignment_complete a st = false).
  { destruct (assignment_complete a st) eqn:Ec; [|reflexivity].
    apply (assignment_complete_spec a st Hfit) with (x := x) in Ec.
    - unfold dict_mem in Hm. destruct (dict_get a x); [discriminate | congruence].
    - unfold dict_keys. apply in_map_iff. exists (x, []). auto. }
  cbn [backtrack]. rewrite Hc, Es. cbn [bind].
  destruct Hfit as (Hnd & _).
  rewrite order_domain_values_empty by (apply dict_get_In_nodup; assumption).
  reflexivity.
Qed.

(** Once the domain of [u] is within [{w}], no word other than [w] passes
    the membership test of the loop: the recursive call is not reached. *)
Lemma backtrack_loop_spent
      (rec rec' : assignment -> domains -> outcome (option assignment * domains))
      (u : Slot) (w : word) (rest : list word) (a : assignment) :
  ~ In w rest ->
  forall st ws,
    dict_get st u = Some ws -> subseq ws [w] ->
    backtrack_loop cw rec u rest a st = backtrack_loop cw rec' u rest a st /\
    forall r st', backtrack_loop cw rec u rest a st = Ret (r, st') -> r = None.
Proof.
  induction rest as [|value rest IH]; intros Hnot st ws Hg Hs.
  - cbn. split; [reflexivity|]. intros r st' H. now inversion H.
  - assert (Hnot' : ~ In w rest) by (intros H; apply Hnot; now right).
    assert (Hvw : value <> w) by (intros E; apply Hnot; now left).
    rewrite !backtrack_loop_step.
    destruct (consistent cw a st) as [[v st1]| |] eqn:Ec; cbn [bind];
      [|split; [reflexivity | discriminate]..].
    pose proof (consistent_store_le cw _ _ _ _ Ec) as H1.
    destruct (store_le_get_inv _ _ _ _ H1 Hg) as (ws1 & Hg1 & Hs1).
    assert (Hs1' : subseq ws1 [w]) by (eapply subseq_trans; eauto).
    destruct (order_domain_values cw u a st1) as [current| |] eqn:Eo; cbn [bind];
      [|split; [reflexivity | discriminate]..].
    assert (Em : mem_word value current = false).
    { destruct (mem_word value current) eqn:Em; [|reflexivity].
      apply mem_word_In in Em.
      apply order_domain_values_spec in Eo. destruct Eo as (vals & Eg & Hperm & _).
      rewrite Hg1 in Eg. inversion Eg; subst vals.
      apply (Permutation_in _ Hperm) in Em.
      apply (subseq_incl _ _ _ Hs1') in Em. destruct Em as [E|[]]. congruence. }
    rewrite Em. exact (IH Hnot' st1 ws1 Hg1 Hs1').
Qed.
End DeadEnds.

(** ** Node consistency once more, and the words of a result *)

Lemma filter_filter_same (A : Type) (f : A -> bool) (l : list A) :
  filter f (filter f l) = filter f l.
Proof.
  induction l as [|x l IH]; [reflexivity|].
  cbn [filter]. destruct (f x) eqn:E; [|exact IH].
  cbn [filter]. now rewrite E, IH.
Qed.

Lemma enforce_node_consistency_again (st : domains) :
  enforce_node_consistency (enforce_node_consistency st) = enforce_node_consistency st.
Proof.
  unfold enforce_node_consistency. rewrite map_map. apply map_ext.
  intros [v ws]. now rewrite filter_filter_same.
Qed.

Lemma enforce_node_consistency_le (st : domains) :
  store_le (enforce_node_consistency st) st.
Proof.
  unfold store_le, enforce_node_consistency.
  induction st as [|[v ws] st IH]; constructor; [|exact IH].
  split; [reflexivity | apply subseq_filter].
Qed.

Section ResultWords.
Variable cw : Crossword.

Lemma dict_set_In (V : Type) (d : list (Slot * V)) (k x : Slot) (v v' : V) :
  In (x, v') (dict_set d k v) -> (x, v') = (k, v) \/ In (x, v') d.
Proof.
  induction d as [|[k0 v0] d IH]; cbn [dict_set].
  - intros [E|[]]. left. now symmetry.
  - destruct (slot_eqb k0 k) eqn:E.
    + apply slot_eqb_eq in E. subst k0. intros [E'|Hin]; [left; now symmetry | right; now right].
    + intros [E'|Hin]; [right; now left|].
      destruct (IH Hin); [now left | right; now right].
Qed.

Lemma backtrack_pool (fuel : nat) (a : assignment) (st : domains)
      (r : assignment) (st' : domains) :
  backtrack cw fuel a st = Ret (Some r, st') ->
  assignment_fits a st -> pool_words cw st ->
  (forall x w, In (x, w) a -> In w (words cw)) ->
  forall x w, In (x, w) r -> In w (words cw).
Proof.
  intros H Hfit Hp Ha.
  pose (P := fun (a : assignment) (st : domains) =>
               pool_words cw st /\ forall x w, In (x, w) a -> In w (words cw)).
  assert (HP : P r st').
  { apply (backtrack_invariant cw P) with (fuel := fuel) (a := a) (st := st); auto.
    - intros a0 st0 st0' [H1 H2] Hle. split; [eapply pool_words_le; eauto | exact H2].
    - intros a0 st0 b st1 u value vals _ [H1 H2] Eac _ Eg Hval.
      pose proof (ac3_store_le cw _ _ _ _ Eac) as Hle.
      pose proof (pool_words_le cw _ _ Hle H1) as Hp1.
      assert (Hv : In value (words cw)).
      { apply (Hp1 u vals); [apply dict_get_In; exact Eg | exact Hval]. }
      split.
      + intros k v Hin. apply dict_set_In in Hin. destruct Hin as [E|Hin].
        * inversion E; subst. intros w' [<-|[]]. exact Hv.
        * exact (Hp1 k v Hin).
      + intros x w Hin. apply dict_set_In in Hin. destruct Hin as [E|Hin].
        * inversion E; subst. exact Hv.
        * exact (H2 x w Hin).
    - unfold P; auto. }
  exact (proj2 HP).
Qed.
End ResultWords.

(** ** A puzzle with a single slot *)

Section SingleSlot.
Variable cw : Crossword.

Lemma select_none (a : assignment) (st : domains) :
  (forall k v, In (k, v) st -> dict_mem a k = true) ->
  select_unassigned_variable cw a st = Ret None.
Proof.
  intros Hall. unfold select_unassigned_variable.
  assert (E : filter (fun '(k, _) => negb (dict_mem a k)) st = []).
  { induction st as [|[k v] st IH]; [reflexivity|].
    cbn [filter]. rewrite (Hall k v) by now left. cbn [negb].
    apply IH. intros k' v' H. apply (Hall k' v'). now right. }
  rewrite E. reflexivity.
Qed.

Lemma single_slot_no_neighbor (x : Slot) :
  variables cw = [x] -> neighbors cw x = [].
Proof.
  intros Hv. unfold neighbors. rewrite Hv. cbn [filter].
  now rewrite slot_eqb_refl.
Qed.

Lemma solve_single_slot (x : Slot) (w : word) (ws : list word) :
  variables cw = [x] ->
  filter (fun w' => String.length w' =? var_length x) (words cw) = w :: ws ->
  List.length (w :: ws) < min_val_size_init ->
  solve cw = Ret (Some [(x, w)], [(x, [w])]).
Proof.
  intros Hv Hf Hlen.
  pose proof (single_slot_no_neighbor x Hv) as Hnb.
  assert (Hst : enforce_node_consistency (init_domains cw) = [(x, w :: ws)]).
  { unfold init_domains, enforce_node_consistency. rewrite Hv. cbn [map]. now rewrite Hf. }
  assert (Hac : ac3 cw None [(x, w :: ws)] = Ret (true, [(x, w :: ws)])).
  { unfold ac3, all_arcs. cbn [dict_keys map fst flat_map]. rewrite Hnb.
    cbn [map app push_arcs rev]. destruct (ac3_fuel _ _ _); reflexivity. }
  assert (Hget : dict_get [(x, w :: ws)] x = Some (w :: ws)).
  { cbn [dict_get]. now rewrite slot_eqb_refl. }
  assert (Hord : order_domain_values cw x [] [(x, w :: ws)] = Ret (w :: ws)).
  { apply order_domain_values_no_open_neighbor; [|exact Hget].
    rewrite Hnb. intros n []. }
  unfold solve. rewrite Hst, Hac. cbn [bind]. rewrite Hv.
  cbn [List.length backtrack assignment_complete Nat.eqb].
  unfold select_unassigned_variable. cbn [filter dict_mem dict_get negb select_loop].
  apply Nat.ltb_lt in Hlen. rewrite Hlen. cbn [bind].
  rewrite Hord. cbn [bind]. rewrite backtrack_loop_step.
  unfold consistent. rewrite Hac. cbn [bind existsb consistent_rows].
  rewrite Hord. cbn [bind mem_word existsb].
  replace (word_eqb w w) with true by (symmetry; apply word_eqb_eq; reflexivity).
  cbn [orb dict_set]. rewrite slot_eqb_refl. reflexivity.
Qed.
End SingleSlot.

(** ** Decision procedures on concrete stores *)

Lemma no_empty_check_correct (st : domains) :
  no_empty_check st = true -> no_empty_domain st.
Proof.
  intros H x Hx. apply dict_get_In in Hx.
  unfold no_empty_check in H. rewrite forallb_forall in H.
  specialize (H _ Hx). discriminate.
Qed.

Lemma small_check_correct (st : domains) :
  small_check st = true -> small_domains st.
Proof.
  intros H k v Hin. unfold small_check in H. rewrite forallb_forall in H.
  specialize (H _ Hin). cbn [snd] in H. now apply Nat.ltb_lt in H.
Qed.

Lemma fits_check_correct (a : assignment) (st : domains) :
  fits_check a st = true -> assignment_fits a st.
Proof.
  unfold fits_check. intros H.
  apply andb_prop in H. destruct H as [H H3].
  apply andb_prop in H. destruct H as [H1 H2].
  split; [now apply nodup_slots_NoDup|]. split; [now apply nodup_slots_NoDup|].
  intros k Hk. rewrite forallb_forall in H3. apply mem_slot_In. now apply H3.
Qed.

Lemma short_pool_puzzle_wf : wf_crossword short_pool_puzzle.
Proof.
  apply wf_check_correct. vm_compute; reflexivity.
Qed.

Lemma store_le_within (st' st : domains) : store_le st' st -> store_within st' st.
Proof.
  intros Hle. split; [now apply store_le_keys|].
  intros x ws' Hx. destruct (store_le_get _ _ _ _ Hle Hx) as (ws & Hg & Hs).
  exists ws. split; [exact Hg | now apply subseq_incl].
Qed.

(** * The claims *)

(** ** C1: soundness of [solve] *)

(** C1.  [solve] evaluated on the ladder puzzle: it returns a complete
    assignment whose words have the right lengths but in which the top row
    [BBCB] and the right column [ABB] disagree on their shared cell
    ([C] against [A]); the assignment returned is not sound. *)
Theorem solve_returns_unsound_assignment :
  wf_crossword ladder_puzzle /\
  (exists st, solve ladder_puzzle = Ret (Some ladder_result, st)) /\
  complete ladder_puzzle ladder_result /\
  lengths_ok ladder_result /\
  overlaps ladder_puzzle top_across right_down = Some (2, 0) /\
  dict_get ladder_result top_across = Some "BBCB" /\
  dict_get ladder_result right_down = Some "ABB" /\
  String.get 2 "BBCB" = Some "C"%char /\
  String.get 0 "ABB" = Some "A"%char /\
  ~ sound ladder_puzzle ladder_result.
Proof.
  split; [exact ladder_puzzle_wf|].
  split; [eexists; vm_compute; reflexivity|].
  split.
  { intros x Hx. simpl in Hx.
    destruct Hx as [<-|[<-|[<-|[<-|[]]]]]; eexists; reflexivity. }
  split.
  { intros x w Hg. apply dict_get_In in Hg. simpl in Hg.
    destruct Hg as [E|[E|[E|[E|[]]]]]; inversion E; reflexivity. }
  split; [reflexivity|]. split; [reflexivity|]. split; [reflexivity|].
  split; [reflexivity|]. split; [reflexivity|].
  intros [_ [_ Hov]].
  destruct (Hov top_across right_down 2 0 "BBCB" "ABB") as [c [H1 H2]];
    try reflexivity; [discriminate|].
  simpl in H1, H2. congruence.
Qed.

(** ** C2: completeness of [solve] *)


(** ** C3: the contract of [revise] *)

(** C3.  Contract of [revise(x, y)] on a store that knows both slots and
    whose words can be indexed at the overlap positions.  Without an overlap
    the call returns [False] and the store is unchanged.  With overlap
    indices [(ix, iy)] the new [domain(x)] holds exactly the words [wx] of
    the old one for which some [wy] of [domain(y)] has [wx <> wy] and
    [wx[ix] == wy[iy]]; every other domain, [domain(y)] included, is
    unchanged; and the flag returned is [True] exactly when [domain(x)]
    lost a word. *)
Theorem revise_contract (cw : Crossword) (x y : Slot) (st : domains)
        (xs ys : list word) :
  x <> y -> indexable cw st ->
  dict_get st x = Some xs -> dict_get st y = Some ys ->
  (overlaps cw x y = None -> revise cw x y st = Ret (false, st)) /\
  (forall ix iy, overlaps cw x y = Some (ix, iy) ->
     exists b st',
       revise cw x y st = Ret (b, st') /\
       (forall w, In w (dom st' x) <->
                  In w xs /\ exists wy, In wy ys /\ compatible w ix wy iy) /\
       (forall z, z <> x -> dict_get st' z = dict_get st z) /\
       dict_get st' y = Some ys /\
       dict_keys st' = dict_keys st /\
       (b = true <-> exists w, In w xs /\ ~ In w (dom st' x))).
Proof.
  intros Hxy Hix Ex Ey. split.
  - intros Ho. unfold revise. rewrite Ho. reflexivity.
  - intros ix iy Ho.
    destruct (revise_total cw x y st Hix) as [b [st' Er]]; try congruence.
    exists b, st'. split; [exact Er|].
    assert (Hne : overlaps cw x y <> None) by congruence.
    destruct (revise_inv_filter cw _ _ _ _ _ _ Er Hne Ex) as [f Hf].
    apply revise_inv in Er.
    destruct Er as [[E _] | [i [j [xs0 [new [Ho' [Ex' [Hst [Hs [Hb Hnew]]]]]]]]]];
      [congruence|].
    rewrite Ho in Ho'. inversion Ho'; subst i j. rewrite Ex in Ex'.
    inversion Ex'; subst xs0. clear Ho' Ex'.
    assert (Hd : dom st' x = new) by (rewrite Hst; apply dom_set_same).
    rewrite (dom_get _ _ _ Ey) in Hnew.
    split; [rewrite Hd; exact Hnew|].
    split; [intros z Hz; rewrite Hst; apply dict_get_set_other; exact Hz|].
    split; [rewrite Hst, dict_get_set_other by congruence; exact Ey|].
    split; [rewrite Hst; apply dict_keys_set; congruence|].
    assert (Hnf : new = filter f xs).
    { rewrite <- Hd, Hf. apply dom_set_same. }
    rewrite Hd, Hb, Nat.ltb_lt, Hnf, filter_length_lt. split.
    + intros [w [Hw Hfw]]. exists w. split; [exact Hw|].
      rewrite filter_In. intros [_ Hf']. congruence.
    + intros [w [Hw Hnot]]. exists w. split; [exact Hw|].
      destruct (f w) eqn:Efw; [|reflexivity].
      exfalso. apply Hnot. apply filter_In. auto.
Qed.

Lemma revise_contract_witness :
  let st := enforce_node_consistency (init_domains ladder_puzzle) in
  (overlaps ladder_puzzle top_across left_down = None ->
   revise ladder_puzzle top_across left_down st = Ret (false, st)) /\
  (forall ix iy, overlaps ladder_puzzle top_across left_down = Some (ix, iy) ->
     exists b st',
       revise ladder_puzzle top_across left_down st = Ret (b, st') /\
       (forall w, In w (dom st' top_across) <->
                  In w ["BCAA"; "BBCB"; "AABB"] /\
                  exists wy, In wy ["ABB"; "ACB"; "BBA"; "CCC"] /\ compatible w ix wy iy) /\
       (forall z, z <> top_across -> dict_get st' z = dict_get st z) /\
       dict_get st' left_down = Some ["ABB"; "ACB"; "BBA"; "CCC"] /\
       dict_keys st' = dict_keys st /\
       (b = true <-> exists w, In w ["BCAA"; "BBCB"; "AABB"] /\ ~ In w (dom st' top_across))).
Proof.
  intros st.
  apply (revise_contract ladder_puzzle top_across left_down st).
  - discriminate.
  - apply node_consistent_indexable;
      [exact ladder_puzzle_wf | apply enforce_node_consistent].
  - reflexivity.
  - reflexivity.
Defined.

(** ** C4: the fixed point of [ac3] *)

(** C4.  When [ac3()] with the default worklist returns [True] on a
    node-consistent store of the crossword, the store it leaves is arc
    consistent: for every pair of slots [(x, y)] with a defined overlap and
    every word [w] left in [domain(x)] there is a word [w'] in [domain(y)]
    with [w <> w'] and matching overlap characters; and it is a fixed point
    of [revise]: a further call on any arc returns [False] and changes no
    domain. *)
Theorem ac3_fixed_point (cw : Crossword) (st st' : domains) :
  wf_crossword cw -> store_of cw st -> node_consistent st ->
  ac3 cw None st = Ret (true, st') ->
  (forall x y i j, In x (variables cw) -> In y (variables cw) ->
     overlaps cw x y = Some (i, j) ->
     forall w, In w (dom st' x) -> exists w', In w' (dom st' y) /\ compatible w i w' j) /\
  (forall x y, In x (variables cw) -> In y (variables cw) ->
     revise cw x y st' = Ret (false, st')).
Proof.
  intros Hwf Hst Hn H.
  pose proof (ac3_arc_consistent cw Hwf st st' Hst H) as Hac.
  pose proof (ac3_store_le cw _ _ _ _ H) as Hle.
  split.
  - intros x y i j Hx Hy Ho w Hw. exact (Hac x y Hx Hy i j Ho w Hw).
  - intros x y Hx Hy. apply revise_consistent_noop.
    + eapply store_le_indexable; [exact Hle|].
      apply node_consistent_indexable; assumption.
    + apply dict_get_keys. rewrite (store_le_keys _ _ Hle), Hst. exact Hx.
    + apply dict_get_keys. rewrite (store_le_keys _ _ Hle), Hst. exact Hy.
    + apply Hac; assumption.
Qed.

Lemma ac3_fixed_point_witness :
  let st := enforce_node_consistency (init_domains ladder_puzzle) in
  let st' := [(right_down, ["ABB"; "ACB"; "BBA"; "CCC"]);
              (top_across, ["BCAA"; "BBCB"; "AABB"]);
              (left_down, ["ABB"; "ACB"; "BBA"]);
              (bottom_across, ["BCAA"; "BBCB"; "AABB"])] in
  (forall x y i j, In x (variables ladder_puzzle) -> In y (variables ladder_puzzle) ->
     overlaps ladder_puzzle x y = Some (i, j) ->
     forall w, In w (dom st' x) -> exists w', In w' (dom st' y) /\ compatible w i w' j) /\
  (forall x y, In x (variables ladder_puzzle) -> In y (variables ladder_puzzle) ->
     revise ladder_puzzle x y st' = Ret (false, st')).
Proof.
  intros st st'.
  apply (ac3_fixed_point ladder_puzzle st st').
  - exact ladder_puzzle_wf.
  - reflexivity.
  - apply enforce_node_consistent.
  - vm_compute. reflexivity.
Defined.

(** ** C5: when [ac3] reports failure *)



(** ** C6: what is left of the domain when a trial is undone *)

(** C6 (as stated) fails: on the ring puzzle the first trial of [solve],
    [CCC] for the top row, fails, and when it is undone the domain of the
    top row is empty, not the singleton [{CCC}]. *)
Lemma undo_leaves_empty_domain :
  wf_crossword ring_puzzle /\
  ac3 ring_puzzle None (enforce_node_consistency (init_domains ring_puzzle))
  = Ret (true, ring_store) /\
  select_unassigned_variable ring_puzzle [] ring_store = Ret (Some ring_top) /\
  order_domain_values ring_puzzle ring_top [] ring_store = Ret ["CCC"; "CAB"; "CCB"] /\
  consistent ring_puzzle [] ring_store = Ret (true, ring_store) /\
  exists st3,
    backtrack ring_puzzle 3 (dict_set [] ring_top "CCC")
              (dict_set ring_store ring_top ["CCC"]) = Ret (None, st3) /\
    dom st3 ring_top = [] /\
    dom st3 ring_top <> ["CCC"].
Proof.
  split; [exact ring_puzzle_wf|].
  split; [vm_compute; reflexivity|].
  split; [vm_compute; reflexivity|].
  split; [vm_compute; reflexivity|].
  split; [vm_compute; reflexivity|].
  eexists. split; [vm_compute; reflexivity|].
  split; [reflexivity | discriminate].
Qed.

(** C6 (amended).  When the trial of word [w] for slot [s] is undone after
    the recursive call returned failure, the loop goes on with the
    assignment it had before the trial (only the entry of [s] is removed)
    and with the domain store exactly as the failed call left it:
    [domain(s)] is not restored to its earlier value set; it is the
    singleton [{w}], or empty when propagation inside the failed call
    emptied it, and no domain of the store has grown. *)
Theorem undo_keeps_pruned_domain (cw : Crossword) (fuel : nat) (s : Slot) (w : word)
        (rest : list word) (a : assignment) (st st1 st3 : domains) (v : bool)
        (current : list word) :
  dict_get a s = None ->
  consistent cw a st = Ret (v, st1) ->
  order_domain_values cw s a st1 = Ret current ->
  In w current ->
  backtrack cw fuel (dict_set a s w) (dict_set st1 s [w]) = Ret (None, st3) ->
  backtrack_loop cw (backtrack cw fuel) s (w :: rest) a st =
  backtrack_loop cw (backtrack cw fuel) s rest a st3 /\
  (dom st3 s = [w] \/ dom st3 s = []) /\
  store_le st3 (dict_set st1 s [w]).
Proof.
  intros Ha Ec Eo Hin Hb.
  pose proof (backtrack_store_le cw _ _ _ _ _ Hb) as Hle.
  split; [|split].
  - rewrite backtrack_loop_step, Ec. cbn [bind]. rewrite Eo. cbn [bind].
    apply mem_word_In in Hin. rewrite Hin, Hb. cbn [bind].
    rewrite dict_del_set_fresh by exact Ha. reflexivity.
  - destruct (store_le_get_inv _ _ s [w] Hle (dict_get_set_same _ _ _ _))
      as [ws' [Eg Hs]].
    rewrite (dom_get _ _ _ Eg).
    destruct (subseq_single_inv _ _ _ Hs) as [->| ->]; auto.
  - exact Hle.
Qed.

Lemma undo_keeps_pruned_domain_witness :
  let st3 := [(ring_top, []); (ring_bottom, ["BBA"; "BCA"]);
              (ring_right, []); (ring_left, [])] in
  backtrack_loop ring_puzzle (backtrack ring_puzzle 3) ring_top ["CCC"; "CAB"; "CCB"]
                 [] ring_store =
  backtrack_loop ring_puzzle (backtrack ring_puzzle 3) ring_top ["CAB"; "CCB"] [] st3 /\
  (dom st3 ring_top = ["CCC"] \/ dom st3 ring_top = []) /\
  store_le st3 (dict_set ring_store ring_top ["CCC"]).
Proof.
  intros st3.
  apply (undo_keeps_pruned_domain ring_puzzle 3 ring_top "CCC" ["CAB"; "CCB"] []
           ring_store ring_store st3 true ["CCC"; "CAB"; "CCB"]).
  - reflexivity.
  - vm_compute. reflexivity.
  - vm_compute. reflexivity.
  - simpl. auto.
  - vm_compute. reflexivity.
Defined.

(** ** C7: the choice of the next slot *)

(** C7.  [select_unassigned_variable] evaluated on a puzzle with one slot
    of length 14 and a pool of 10001 different words of that length: the slot is
    unassigned, but its domain is larger than the starting value 10000 of
    [min_val_size], so no slot is selected and the call returns [None];
    [solve] then raises. *)
Theorem select_returns_none_on_large_domain :
  let st := enforce_node_consistency (init_domains big_puzzle) in
  wf_crossword big_puzzle /\
  dict_mem (@nil (Slot * word)) lone_slot = false /\
  min_val_size_init < List.length (dom st lone_slot) /\
  select_unassigned_variable big_puzzle [] st = Ret None /\
  solve big_puzzle = Raise.
Proof.
  intros st.
  split; [exact big_puzzle_wf|].
  split; [reflexivity|].
  split.
  { assert (E : List.length (dom st lone_slot) = S min_val_size_init)
      by (vm_compute; reflexivity).
    rewrite E. apply Nat.lt_succ_diag_r. }
  split; vm_compute; reflexivity.
Qed.

(** ** C8: the order of the candidate words *)

(** C8.  On a node-consistent store of a well-formed crossword,
    [order_domain_values(var, assignment)] returns a list that holds exactly
    the words of [domain(var)], in ascending order of [score], the number of
    pairs (unassigned neighbor [n], word [w'] of [domain(n)]) whose
    character at [n]'s overlap index equals the character of the word at
    [var]'s overlap index. *)
Theorem order_domain_values_contract (cw : Crossword) (var : Slot) (a : assignment)
        (st : domains) (values : list word) :
  wf_crossword cw -> store_of cw st -> node_consistent st ->
  dict_get st var = Some values ->
  exists l,
    order_domain_values cw var a st = Ret l /\
    Permutation l values /\
    StronglySorted (fun w1 w2 => score cw var a st w1 <= score cw var a st w2) l.
Proof.
  intros Hwf Hst Hn Ev.
  destruct (order_domain_values_total cw var a st Hwf) as [l El].
  - apply node_consistent_indexable; assumption.
  - exact Hst.
  - congruence.
  - exists l. split; [exact El|].
    apply order_domain_values_spec in El. destruct El as [values' [Ev' [Hp Hs]]].
    rewrite Ev in Ev'. inversion Ev'; subst values'. split; assumption.
Qed.

Lemma order_domain_values_contract_witness :
  let st := enforce_node_consistency (init_domains ladder_puzzle) in
  exists l,
    order_domain_values ladder_puzzle top_across [] st = Ret l /\
    Permutation l ["BCAA"; "BBCB"; "AABB"] /\
    StronglySorted (fun w1 w2 => score ladder_puzzle top_across [] st w1
                                 <= score ladder_puzzle top_across [] st w2) l.
Proof.
  intros st.
  apply (order_domain_values_contract ladder_puzzle top_across [] st).
  - exact ladder_puzzle_wf.
  - reflexivity.
  - apply enforce_node_consistent.
  - reflexivity.
Defined.

(** ** C9: the length invariant *)

(** C9.  After [enforce_node_consistency] every slot's domain holds exactly
    the pool words whose length is the slot's length; and the invariant
    that every word of every domain has its slot's length is kept by every
    call of [revise], [ac3], [consistent] and [backtrack] that returns. *)
Theorem length_invariant (cw : Crossword) :
  dict_keys (enforce_node_consistency (init_domains cw)) = variables cw /\
  (forall v ws, In (v, ws) (enforce_node_consistency (init_domains cw)) ->
     forall w, In w ws <-> In w (words cw) /\ String.length w = var_length v) /\
  (forall st, node_consistent st ->
     (forall x y b st', revise cw x y st = Ret (b, st') -> node_consistent st') /\
     (forall arcs b st', ac3 cw arcs st = Ret (b, st') -> node_consistent st') /\
     (forall a v st', consistent cw a st = Ret (v, st') -> node_consistent st') /\
     (forall fuel a r st', backtrack cw fuel a st = Ret (r, st') -> node_consistent st')).
Proof.
  split; [apply initial_store_of|]. split.
  - intros v ws Hin w. apply enforce_node_consistency_In in Hin.
    destruct Hin as [ws0 [Hin ->]]. unfold init_domains in Hin.
    apply in_map_iff in Hin. destruct Hin as [v0 [E _]]. inversion E; subst.
    rewrite filter_In, Nat.eqb_eq. reflexivity.
  - intros st Hn. repeat split.
    + intros x y b st' H. eapply store_le_node_consistent; [|exact Hn].
      eapply revise_store_le; eauto.
    + intros arcs b st' H. eapply store_le_node_consistent; [|exact Hn].
      eapply ac3_store_le; eauto.
    + intros a v st' H. eapply store_le_node_consistent; [|exact Hn].
      eapply consistent_store_le; eauto.
    + intros fuel a r st' H. eapply store_le_node_consistent; [|exact Hn].
      eapply backtrack_store_le; eauto.
Qed.

Lemma length_invariant_witness :
  node_consistent
    [(right_down, ["ABB"]); (top_across, []); (left_down, []); (bottom_across, [])].
Proof.
  destruct (length_invariant ladder_puzzle) as [_ [_ H]].
  pose (st0 := enforce_node_consistency (init_domains ladder_puzzle)).
  pose (st1 := [(right_down, ["ABB"; "ACB"; "BBA"; "CCC"]);
                (top_across, ["BCAA"; "BBCB"; "AABB"]);
                (left_down, ["ABB"; "ACB"; "BBA"]);
                (bottom_across, ["BCAA"; "BBCB"; "AABB"])]).
  destruct (H st0 (enforce_node_consistent _)) as [_ [Hac3 _]].
  assert (E1 : ac3 ladder_puzzle None st0 = Ret (true, st1)) by (vm_compute; reflexivity).
  destruct (H st1 (Hac3 None true st1 E1)) as [_ [_ [_ Hbt]]].
  apply (Hbt 4 [] (Some ladder_result)).
  vm_compute. reflexivity.
Defined.

(** ** C10: the verdict of [consistent] is not used *)

(** C10.  [backtrack] discards the value returned by
    [consistent(assignment)]: on every crossword whose overlap indices lie
    inside its slots, for every domain store and partial assignment,
    [backtrack] returns the same result and leaves the same domain store as
    the variant in which that call is replaced by a bare [ac3()]. *)
Theorem consistent_verdict_unused (cw : Crossword) (fuel : nat) (a : assignment)
        (st : domains) :
  overlap_indices_in_range cw ->
  backtrack cw fuel a st = backtrack_ac3 cw fuel a st.
Proof. intros Hr. apply backtrack_ac3_eq. exact Hr. Qed.

Lemma consistent_verdict_unused_witness :
  backtrack ladder_puzzle 4 [] (enforce_node_consistency (init_domains ladder_puzzle)) =
  backtrack_ac3 ladder_puzzle 4 [] (enforce_node_consistency (init_domains ladder_puzzle)).
Proof.
  apply consistent_verdict_unused.
  exact (overlaps_in_range ladder_puzzle_wf).
Defined.

(** * Further properties of the code *)

(** ** Rendering: [letter_grid] and [print] *)

(** X1.  [letter_grid(assignment)] always ends; it returns an array exactly
    when every letter of every assigned word (all [len(word)] of them,
    whatever the length of the slot) falls on a cell inside the grid, and
    raises [IndexError] otherwise; the array returned has [height] rows of
    [width] cells. *)
Theorem letter_grid_returns_iff_fits (lay : Layout) (a : assignment) :
  letter_grid lay a <> Timeout /\
  ((exists letters, letter_grid lay a = Ret letters) <-> fits_grid lay a) /\
  (letter_grid lay a = Raise <-> ~ fits_grid lay a) /\
  (forall letters, letter_grid lay a = Ret letters ->
                   grid_shape (height lay) (width lay) letters).
Proof.
  pose proof (blank_grid_shape (height lay) (width lay)) as Hs.
  pose proof (place_words_no_timeout a (repeat (repeat None (width lay)) (height lay)))
    as Hnt.
  assert (Hiff : (exists letters, letter_grid lay a = Ret letters) <-> fits_grid lay a).
  { split.
    - intros [g Hg]. exact (proj2 (place_words_shape _ _ _ _ _ Hs Hg)).
    - intros Hfit. exact (place_words_total _ _ _ _ Hs Hfit). }
  unfold letter_grid in *.
  split; [exact Hnt|]. split; [exact Hiff|]. split; [split|].
  - intros Hr Hfit. apply Hiff in Hfit. destruct Hfit as [g Hg]. congruence.
  - intros Hnot.
    destruct (place_words a (repeat (repeat None (width lay)) (height lay)))
      as [g| |] eqn:E; [|reflexivity | congruence].
    exfalso. apply Hnot. apply Hiff. eauto.
  - intros letters H. exact (proj1 (place_words_shape _ _ _ _ _ Hs H)).
Qed.

(** X2.  When several entries of the assignment write into the same cell,
    the entry that comes last in the iteration order of the dict decides:
    the cell holds the letter of the last entry that covers it, even when
    an earlier entry wrote a different letter there. *)
Theorem letter_grid_last_entry_wins (lay : Layout) (a1 a2 : assignment)
        (variable : Slot) (w : word) (letters : grid) (i j : nat) (c : ascii) :
  letter_grid lay (a1 ++ (variable, w) :: a2) = Ret letters ->
  writes variable w i j c -> ~ covered a2 i j ->
  grid_get letters i j = Some (Some c).
Proof.
  intros H Hw Hno. unfold letter_grid in H.
  exact (place_words_last _ _ a1 a2 variable w _ _ i j c
                          (blank_grid_shape _ _) H Hw Hno).
Qed.

Lemma letter_grid_last_entry_wins_witness :
  exists letters,
    letter_grid cat_layout ([(cat_across, "CAT")] ++ (cat_down, "DO") :: []) = Ret letters /\
    String.get 0 "CAT" = Some "C"%char /\
    grid_get letters 0 0 = Some (Some "D"%char).
Proof.
  eexists. split; [vm_compute; reflexivity|]. split; [reflexivity|].
  apply (letter_grid_last_entry_wins cat_layout [(cat_across, "CAT")] []
                                     cat_down "DO" _ 0 0 "D"%char).
  - vm_compute; reflexivity.
  - exists 0. split; reflexivity.
  - intros (v & w & c & [] & _).
Defined.

(** X3.  The cells of the array [letter_grid] returns: a cell inside the
    grid holds [None] exactly when no entry of the assignment covers it;
    a letter found in a cell was written there by some entry; and when the
    entries agree on the cells they share, every cell an entry covers
    holds the letter of that entry. *)
Theorem letter_grid_cells (lay : Layout) (a : assignment) (letters : grid)
        (i j : nat) :
  letter_grid lay a = Ret letters -> i < height lay -> j < width lay ->
  (grid_get letters i j = Some None <-> ~ covered a i j) /\
  (forall c, grid_get letters i j = Some (Some c) ->
             exists variable w, In (variable, w) a /\ writes variable w i j c) /\
  (letters_agree a ->
   forall variable w c, In (variable, w) a -> writes variable w i j c ->
                        grid_get letters i j = Some (Some c)).
Proof.
  intros H Hi Hj. unfold letter_grid in H.
  pose proof (blank_grid_get (height lay) (width lay) i j Hi Hj) as Hblank.
  destruct (place_words_cell _ _ _ _ _ i j (blank_grid_shape _ _) H)
    as [[Heq Hno] | (a1 & v & wd & a2 & c & Ha & Hw & Hno & Hg)].
  - rewrite Hblank in Heq. split; [|split].
    + tauto.
    + intros c Hc. congruence.
    + intros _ v w c Hin Hw. exfalso. apply Hno. exists v, w, c. auto.
  - assert (Hin : In (v, wd) a) by (subst a; apply in_elt).
    split; [|split].
    + split; [congruence|]. intros Hnot. exfalso. apply Hnot. exists v, wd, c. auto.
    + intros c' Hc'. exists v, wd. split; [exact Hin | congruence].
    + intros Hagree v' w' c' Hin' Hw'.
      rewrite (Hagree v' w' v wd i j c' c Hin' Hin Hw' Hw). exact Hg.
Qed.

Lemma letter_grid_cells_witness :
  exists letters,
    letter_grid cat_layout clash_assignment = Ret letters /\
    (grid_get letters 1 0 = Some None <-> ~ covered clash_assignment 1 0) /\
    (forall c, grid_get letters 1 0 = Some (Some c) ->
               exists variable w,
                 In (variable, w) clash_assignment /\ writes variable w 1 0 c) /\
    grid_get letters 1 0 = Some (Some "O"%char).
Proof.
  eexists. split; [vm_compute; reflexivity|].
  refine ((fun H => conj (proj1 H) (conj (proj1 (proj2 H)) eq_refl))
            (letter_grid_cells cat_layout clash_assignment _ 1 0 _ _ _)).
  - vm_compute; reflexivity.
  - cbn; lia.
  - cbn; lia.
Defined.

(** X4.  Round trip through [letter_grid]: when the entries of the
    assignment agree on the cells they share, reading the array along an
    assigned slot, from its first cell and for the length of its word,
    gives back the letters of that word. *)
Theorem letter_grid_round_trip (lay : Layout) (a : assignment) (letters : grid)
        (variable : Slot) (w : word) :
  letters_agree a -> letter_grid lay a = Ret letters -> In (variable, w) a ->
  read_slot letters variable (String.length w) =
  map (fun c => Some (Some c)) (list_ascii_of_string w).
Proof.
  intros Hagree H Hin. unfold read_slot.
  transitivity (map (fun k => option_map Some (String.get k w))
                    (seq 0 (String.length w))).
  - apply map_ext_in. intros k Hk. apply in_seq in Hk.
    destruct (string_get_lt w k) as [c Hc]; [lia|]. rewrite Hc. cbn [option_map].
    unfold letter_grid in H.
    destruct (place_words_cell _ _ _ _ _ (fst (letter_cell variable k))
                               (snd (letter_cell variable k))
                               (blank_grid_shape _ _) H)
      as [[_ Hno] | (a1 & v & wd & a2 & c' & Ha & Hw & _ & Hg)].
    + exfalso. apply Hno. exists variable, w, c. split; [exact Hin|].
      exists k. split; [now destruct (letter_cell variable k) | exact Hc].
    + assert (Hin' : In (v, wd) a) by (subst a; apply in_elt).
      rewrite Hg. f_equal. f_equal.
      apply (Hagree v wd variable w _ _ c' c Hin' Hin Hw).
      exists k. split; [now destruct (letter_cell variable k) | exact Hc].
  - rewrite <- (map_map (fun k => String.get k w) (option_map Some)).
    rewrite string_get_seq, map_map. reflexivity.
Qed.

Lemma letter_grid_round_trip_witness :
  exists letters,
    letter_grid cat_layout cat_assignment = Ret letters /\
    read_slot letters cat_down 2 = [Some (Some "C"%char); Some (Some "O"%char)].
Proof.
  eexists. split; [vm_compute; reflexivity|].
  apply (letter_grid_round_trip cat_layout cat_assignment _ cat_down "CO").
  - exact cat_assignment_agree.
  - vm_compute; reflexivity.
  - right; left; reflexivity.
Defined.

(** X5.  On a grid whose occupancy mask has [height] rows of [width]
    cells, for an assignment [letter_grid] accepts, [print] raises nothing
    and writes, row by row, one string per cell (the block literal for a
    filled cell, the letter of the array or a space for a blank one) and a
    newline after each row. *)
Theorem print_output (lay : Layout) (a : assignment) (letters : grid) :
  well_shaped lay -> letter_grid lay a = Ret letters ->
  print lay a =
  (flat_map (fun i => map (shown lay letters i) (seq 0 (width lay)) ++ [newline])
            (seq 0 (height lay)),
   Ret tt).
Proof.
  intros Hw H. unfold print. rewrite H.
  rewrite (print_rows_shown lay letters (seq 0 (height lay)) [] Hw).
  - reflexivity.
  - unfold letter_grid in H.
    exact (proj1 (place_words_shape _ _ _ _ _ (blank_grid_shape _ _) H)).
  - intros i Hi. apply in_seq in Hi. lia.
Qed.

Lemma print_output_witness :
  print cat_layout cat_assignment =
  (["C"; "A"; "T"; newline; "O"; block; block; newline], Ret tt).
Proof.
  eapply eq_trans.
  - apply (print_output cat_layout cat_assignment).
    + exact cat_layout_well_shaped.
    + vm_compute; reflexivity.
  - vm_compute; reflexivity.
Defined.

(** X6.  When a letter of an assigned word falls outside the grid,
    [print] raises before it has written anything: the exception comes
    from [letter_grid], which is called first. *)
Theorem print_outside_grid (lay : Layout) (a : assignment) :
  ~ fits_grid lay a -> print lay a = ([], Raise).
Proof.
  intros Hnot. unfold print.
  pose proof (place_words_no_timeout a (repeat (repeat None (width lay)) (height lay)))
    as Hnt.
  unfold letter_grid.
  destruct (place_words a (repeat (repeat None (width lay)) (height lay)))
    as [g| |] eqn:E; [|reflexivity | congruence].
  exfalso. apply Hnot.
  exact (proj2 (place_words_shape _ _ _ _ _ (blank_grid_shape _ _) E)).
Qed.

Lemma print_outside_grid_witness :
  print narrow_layout [(cat_across, "CAT")] = ([], Raise).
Proof.
  apply (print_outside_grid narrow_layout [(cat_across, "CAT")]).
  intros Hfit. destruct (Hfit cat_across "CAT" 2) as [_ H].
  - left; reflexivity.
  - cbn; lia.
  - cbn in H. lia.
Defined.

(** ** Propagation *)

(** X7.  Propagation only prunes: [enforce_node_consistency] and every call
    of [revise], [ac3], [consistent] and [backtrack] that returns leave a
    store with the same slots, in which every word of every domain was
    already in the domain of that slot before; no word is ever put back
    into a domain. *)
Theorem propagation_only_prunes (cw : Crossword) (st : domains) :
  store_within (enforce_node_consistency st) st /\
  (forall x y b st', revise cw x y st = Ret (b, st') -> store_within st' st) /\
  (forall arcs b st', ac3 cw arcs st = Ret (b, st') -> store_within st' st) /\
  (forall a v st', consistent cw a st = Ret (v, st') -> store_within st' st) /\
  (forall fuel a r st', backtrack cw fuel a st = Ret (r, st') -> store_within st' st).
Proof.
  split; [apply store_le_within, enforce_node_consistency_le|].
  split; [intros x y b st' H; eapply store_le_within, revise_store_le; eauto|].
  split; [intros arcs b st' H; eapply store_le_within, ac3_store_le; eauto|].
  split; [intros a v st' H; eapply store_le_within, consistent_store_le; eauto|].
  intros fuel a r st' H; eapply store_le_within, backtrack_store_le; eauto.
Qed.

(** X8.  [ac3] is idempotent on success: when [ac3()] returns [True] on a
    node-consistent store of a well-formed crossword, a second call on the
    store it left returns [True] again and changes nothing. *)
Theorem ac3_idempotent (cw : Crossword) (st st' : domains) :
  wf_crossword cw -> store_of cw st -> node_consistent st ->
  ac3 cw None st = Ret (true, st') ->
  ac3 cw None st' = Ret (true, st').
Proof.
  intros Hwf Hst Hn H.
  pose proof (ac3_store_le cw _ _ _ _ H) as Hle.
  apply ac3_noop.
  - eapply store_le_store_of; eauto.
  - apply (ac3_revise_fixed cw Hwf st st' Hst); [|exact H].
    now apply node_consistent_indexable.
Qed.

Lemma ac3_idempotent_witness :
  ac3 ladder_puzzle None ladder_store = Ret (true, ladder_store).
Proof.
  apply (ac3_idempotent ladder_puzzle
           (enforce_node_consistency (init_domains ladder_puzzle)) ladder_store).
  - exact ladder_puzzle_wf.
  - apply initial_store_of.
  - apply enforce_node_consistent.
  - vm_compute; reflexivity.
Defined.

(** X9.  On a store all of whose domains are empty, [ac3()] returns [True]
    and changes nothing: [False] is only returned when a call of [revise]
    removes the last words of a domain, not when a domain is found
    empty. *)
Theorem ac3_empty_store_returns_true (cw : Crossword) (st : domains) :
  (forall x ws, In (x, ws) st -> ws = []) -> ac3 cw None st = Ret (true, st).
Proof.
  apply ac3_all_empty.
Qed.

Lemma ac3_empty_store_returns_true_witness :
  ac3 corner_puzzle None [(corner_across, []); (corner_down, [])] =
  Ret (true, [(corner_across, []); (corner_down, [])]).
Proof.
  apply (ac3_empty_store_returns_true corner_puzzle).
  intros x ws [E|[E|[]]]; now inversion E.
Defined.

(** X10.  Started on a store without an empty domain, [ac3] (with any
    worklist) returns [True] exactly when the store it leaves has no empty
    domain. *)
Theorem ac3_true_iff_no_empty_domain (cw : Crossword) (arcs : option (list arc))
        (st st' : domains) (b : bool) :
  no_empty_domain st -> ac3 cw arcs st = Ret (b, st') ->
  (b = true <-> no_empty_domain st').
Proof.
  intros Hne H. exact (ac3_flag cw arcs st st' b H Hne).
Qed.

Lemma ac3_true_iff_no_empty_domain_witness :
  (false = true <-> no_empty_domain corner_store) /\
  (true = true <-> no_empty_domain ladder_store).
Proof.
  split.
  - apply (ac3_true_iff_no_empty_domain corner_puzzle None
             (enforce_node_consistency (init_domains corner_puzzle)) corner_store false).
    + apply no_empty_check_correct. vm_compute; reflexivity.
    + vm_compute; reflexivity.
  - apply (ac3_true_iff_no_empty_domain ladder_puzzle None
             (enforce_node_consistency (init_domains ladder_puzzle)) ladder_store true).
    + apply no_empty_check_correct. vm_compute; reflexivity.
    + vm_compute; reflexivity.
Defined.

(** X11.  [revise] is idempotent: after a call [revise(x, y)] on two
    different slots has returned, a second call on the same arc returns
    [False] and changes nothing. *)
Theorem revise_idempotent (cw : Crossword) (x y : Slot) (st st' : domains) (b : bool) :
  x <> y -> revise cw x y st = Ret (b, st') ->
  revise cw x y st' = Ret (false, st').
Proof.
  apply revise_again.
Qed.

Lemma revise_idempotent_witness :
  exists st',
    revise ladder_puzzle left_down top_across
           (enforce_node_consistency (init_domains ladder_puzzle)) = Ret (true, st') /\
    revise ladder_puzzle left_down top_across st' = Ret (false, st').
Proof.
  eexists. split; [vm_compute; reflexivity|].
  apply (revise_idempotent ladder_puzzle left_down top_across
           (enforce_node_consistency (init_domains ladder_puzzle)) _ true).
  - discriminate.
  - vm_compute; reflexivity.
Defined.

(** X12.  [enforce_node_consistency] is idempotent: a second pass over the
    store it produced changes nothing. *)
Theorem enforce_node_consistency_idempotent (st : domains) :
  enforce_node_consistency (enforce_node_consistency st) = enforce_node_consistency st.
Proof.
  apply enforce_node_consistency_again.
Qed.

(** ** The checks of the search *)

(** X13.  The verdict of [consistent(assignment)], when the call returns:
    it is [True] exactly when every assigned word has the length of its
    slot and every two entries on different slots with an overlap agree on
    the overlap character; it does not depend on the domain store. *)
Theorem consistent_verdict_meaning (cw : Crossword) (a : assignment)
        (st st' : domains) (v : bool) :
  consistent cw a st = Ret (v, st') ->
  (v = true <-> lengths_match a /\ entries_agree cw a).
Proof.
  apply consistent_verdict.
Qed.

Lemma consistent_verdict_meaning_witness :
  (false = true <-> lengths_match ladder_result /\ entries_agree ladder_puzzle ladder_result) /\
  (true = true <->
   lengths_match [(cat_across, "CAT"); (cat_down, "CO")] /\
   entries_agree cat_puzzle [(cat_across, "CAT"); (cat_down, "CO")]).
Proof.
  split.
  - eapply (consistent_verdict_meaning ladder_puzzle ladder_result ladder_store).
    vm_compute; reflexivity.
  - eapply (consistent_verdict_meaning cat_puzzle [(cat_across, "CAT"); (cat_down, "CO")]
              (enforce_node_consistency (init_domains cat_puzzle))).
    vm_compute; reflexivity.
Defined.

(** X14.  [assignment_complete] compares two sizes; for an assignment
    whose keys are slots of the store it returns [True] exactly when every
    slot of the store is assigned. *)
Theorem assignment_complete_iff (a : assignment) (st : domains) :
  assignment_fits a st ->
  (assignment_complete a st = true <->
   forall x, In x (dict_keys st) -> dict_get a x <> None).
Proof.
  apply assignment_complete_spec.
Qed.

Lemma assignment_complete_iff_witness :
  assignment_complete [(ring_left, "CAB")] ring_store = true <->
  forall x, In x (dict_keys ring_store) -> dict_get [(ring_left, "CAB")] x <> None.
Proof.
  apply (assignment_complete_iff [(ring_left, "CAB")] ring_store).
  apply fits_check_correct. vm_compute; reflexivity.
Defined.

(** X15.  [select_unassigned_variable], when every unassigned slot has
    fewer than 10000 words in its domain: it returns [None] if every slot
    is assigned; otherwise it returns an unassigned slot whose domain is
    smallest, and among the unassigned slots with a domain of that size
    none has more neighbors. *)
Theorem select_unassigned_variable_contract (cw : Crossword) (a : assignment)
        (st : domains) :
  (forall k v, In (k, v) st -> dict_mem a k = false ->
               List.length v < min_val_size_init) ->
  ((forall k v, In (k, v) st -> dict_mem a k = true) ->
   select_unassigned_variable cw a st = Ret None) /\
  ((exists k v, In (k, v) st /\ dict_mem a k = false) ->
   exists u vu,
     select_unassigned_variable cw a st = Ret (Some u) /\
     In (u, vu) st /\ dict_mem a u = false /\
     forall k v, In (k, v) st -> dict_mem a k = false ->
       List.length vu <= List.length v /\
       (List.length v = List.length vu ->
        List.length (neighbors cw k) <= List.length (neighbors cw u))).
Proof.
  intros Hsm. split.
  - apply select_none.
  - intros Hex. now apply select_unassigned_variable_mrv.
Qed.

Lemma select_unassigned_variable_contract_witness :
  exists u vu,
    select_unassigned_variable ring_puzzle [(ring_left, "CAB")] ring_store = Ret (Some u) /\
    In (u, vu) ring_store /\ dict_mem [(ring_left, "CAB")] u = false /\
    forall k v, In (k, v) ring_store -> dict_mem [(ring_left, "CAB")] k = false ->
      List.length vu <= List.length v /\
      (List.length v = List.length vu ->
       List.length (neighbors ring_puzzle k) <= List.length (neighbors ring_puzzle u)).
Proof.
  apply (select_unassigned_variable_contract ring_puzzle [(ring_left, "CAB")] ring_store).
  - assert (Hs : small_domains ring_store)
      by (apply small_check_correct; vm_compute; reflexivity).
    intros k v Hin _. exact (Hs k v Hin).
  - exists ring_top, ["CCC"; "CAB"; "CCB"]. split; [left; reflexivity | reflexivity].
Defined.

(** ** The search *)

(** X16.  [solve] always ends, by returning or by raising: whatever the
    pool and the overlap table, the recursion of [backtrack] goes no
    deeper than the number of slots. *)
Theorem solve_terminates (cw : Crossword) :
  NoDup (variables cw) -> solve cw <> Timeout.
Proof.
  apply solve_no_timeout.
Qed.

Lemma solve_terminates_witness :
  solve big_puzzle <> Timeout /\ solve ladder_puzzle <> Timeout.
Proof.
  split.
  - apply (solve_terminates big_puzzle). exact (variables_nodup big_puzzle_wf).
  - apply (solve_terminates ladder_puzzle). exact (variables_nodup ladder_puzzle_wf).
Defined.

(** X17.  On a well-formed crossword whose pool has fewer than 10000
    words, [solve] raises no exception: it returns an assignment or
    [None]. *)
Theorem solve_returns (cw : Crossword) :
  wf_crossword cw -> List.length (words cw) < min_val_size_init ->
  exists r st, solve cw = Ret (r, st).
Proof.
  apply solve_total.
Qed.

Lemma solve_returns_witness : exists r st, solve ring_puzzle = Ret (r, st).
Proof.
  apply (solve_returns ring_puzzle).
  - exact ring_puzzle_wf.
  - apply Nat.ltb_lt. vm_compute; reflexivity.
Defined.

(** X18.  An assignment returned by [solve] gives every slot of the puzzle
    exactly one word, and that word is a word of the pool that has the
    length of the slot (the overlap characters are another matter). *)
Theorem solve_result_words (cw : Crossword) (a : assignment) (st : domains) :
  NoDup (variables cw) -> solve cw = Ret (Some a, st) ->
  complete cw a /\ NoDup (dict_keys a) /\
  forall x w, In (x, w) a ->
    In x (variables cw) /\ In w (words cw) /\ String.length w = var_length x.
Proof.
  intros Hnd H. destruct (solve_result_complete cw a st Hnd H) as [Hc Hl].
  unfold solve in H.
  destruct (ac3 cw None (enforce_node_consistency (init_domains cw))) as [[b st1]| |] eqn:E;
    cbn [bind] in H; try discriminate.
  pose proof (ac3_store_le cw _ _ _ _ E) as Hle.
  pose proof (store_le_store_of cw _ _ Hle (initial_store_of cw)) as Hst.
  pose proof (backtrack_store_le cw _ _ _ _ _ H) as Hle2.
  pose proof (store_le_store_of cw _ _ Hle2 Hst) as Hst2.
  assert (Hfit : assignment_fits [] st1).
  { split; [rewrite Hst; exact Hnd|]. split; [constructor | intros x []]. }
  assert (Hn1 : node_consistent st1).
  { eapply store_le_node_consistent; [exact Hle | apply enforce_node_consistent]. }
  destruct (backtrack_result cw _ _ _ _ _ H Hfit Hn1) as ((_ & Hna & Hincl) & _ & _).
  { intros k v []. }
  split; [exact Hc|]. split; [exact Hna|].
  intros x w Hin. split; [|split].
  - rewrite <- Hst2. apply Hincl. unfold dict_keys. apply in_map_iff.
    exists (x, w). auto.
  - apply (backtrack_pool cw _ _ _ _ _ H Hfit) with (x := x); [| |exact Hin].
    + eapply pool_words_le; [exact Hle | apply initial_pool_words].
    + intros ? ? [].
  - apply Hl. apply dict_get_In_nodup; assumption.
Qed.

Lemma solve_result_words_witness :
  complete ladder_puzzle ladder_result /\ NoDup (dict_keys ladder_result) /\
  forall x w, In (x, w) ladder_result ->
    In x (variables ladder_puzzle) /\ In w (words ladder_puzzle) /\
    String.length w = var_length x.
Proof.
  eapply (solve_result_words ladder_puzzle ladder_result).
  - exact (variables_nodup ladder_puzzle_wf).
  - vm_compute; reflexivity.
Defined.

(** X19.  Conditional soundness of [solve]: when [solve] returns an
    assignment and the domain store it leaves has no empty domain, the
    assignment is sound (complete, words of the right lengths, overlap
    characters equal), and crossing slots hold different words. *)
Theorem solve_sound_without_empty_domain (cw : Crossword) (a : assignment)
        (st : domains) :
  wf_crossword cw -> solve cw = Ret (Some a, st) -> no_empty_domain st ->
  sound cw a /\ crossings_ok cw a.
Proof.
  intros Hwf H Hne.
  destruct (solve_result_complete cw a st (variables_nodup Hwf) H) as [Hc Hl].
  unfold solve in H.
  destruct (ac3 cw None (enforce_node_consistency (init_domains cw))) as [[b st1]| |] eqn:E;
    cbn [bind] in H; try discriminate.
  pose proof (ac3_store_le cw _ _ _ _ E) as Hle.
  pose proof (store_le_store_of cw _ _ Hle (initial_store_of cw)) as Hst.
  assert (Hok : crossings_ok cw a).
  { apply (backtrack_sound cw Hwf _ _ _ _ _ H); auto.
    - split; [rewrite Hst; exact (variables_nodup Hwf)|].
      split; [constructor | intros x []].
    - intros x w Hx. discriminate.
    - intros _ x y i j wx wy _ _ Hx. discriminate. }
  split; [|exact Hok]. split; [exact Hc|]. split; [exact Hl|].
  intros x y i j wx wy Hxy Ho Hx Hy. exact (proj2 (Hok x y i j wx wy Hxy Ho Hx Hy)).
Qed.

Lemma solve_sound_without_empty_domain_witness :
  sound cat_puzzle [(cat_across, "CAT"); (cat_down, "CO")] /\
  crossings_ok cat_puzzle [(cat_across, "CAT"); (cat_down, "CO")].
Proof.
  apply (solve_sound_without_empty_domain cat_puzzle _
           [(cat_across, ["CAT"]); (cat_down, ["CO"])]).
  - exact cat_puzzle_wf.
  - vm_compute; reflexivity.
  - apply no_empty_check_correct. vm_compute; reflexivity.
Defined.

(** X20.  A dead end is seen at once: when some unassigned slot has an
    empty domain (and every domain has fewer than 10000 words),
    [backtrack] returns [None] without trying any word and leaves the
    store as it found it. *)
Theorem backtrack_fails_on_empty_domain (cw : Crossword) (fuel : nat)
        (a : assignment) (st : domains) (x : Slot) :
  assignment_fits a st -> small_domains st ->
  In (x, []) st -> dict_mem a x = false ->
  backtrack cw (S fuel) a st = Ret (None, st).
Proof.
  apply backtrack_empty_domain.
Qed.

Lemma backtrack_fails_on_empty_domain_witness :
  backtrack corner_puzzle 2 [] corner_store = Ret (None, corner_store).
Proof.
  apply (backtrack_fails_on_empty_domain corner_puzzle 1 [] corner_store corner_down).
  - apply fits_check_correct. vm_compute; reflexivity.
  - apply small_check_correct. vm_compute; reflexivity.
  - right; left; reflexivity.
  - reflexivity.
Defined.

(** X21.  A pool without any word of the length of some slot: on a
    well-formed crossword with fewer than 10000 words, [solve] returns
    [None]; the missing length is not reported as an error. *)
Theorem solve_without_fitting_word (cw : Crossword) (x : Slot) :
  wf_crossword cw -> List.length (words cw) < min_val_size_init ->
  In x (variables cw) ->
  (forall w, In w (words cw) -> String.length w <> var_length x) ->
  exists st, solve cw = Ret (None, st).
Proof.
  intros Hwf Hlen Hx Hno. unfold solve.
  pose proof (initial_store_of cw) as Hst0.
  pose proof (enforce_node_consistent (init_domains cw)) as Hn0.
  destruct (ac3_total cw _ (node_consistent_indexable cw _ Hwf Hn0) Hst0) as (b & st1 & E).
  rewrite E. cbn [bind].
  pose proof (ac3_store_le cw _ _ _ _ E) as Hle.
  pose proof (store_le_store_of cw _ _ Hle Hst0) as Hst1.
  assert (Hx0 : dict_get (enforce_node_consistency (init_domains cw)) x = Some []).
  { rewrite (initial_domain cw x Hx). f_equal. revert Hno.
    generalize (words cw). intros l. induction l as [|w ws IH]; intros Hno;
      [reflexivity|].
    cbn [filter]. destruct (String.length w =? var_length x) eqn:Ew.
    - apply Nat.eqb_eq in Ew. destruct (Hno w (or_introl eq_refl) Ew).
    - apply IH. intros w' Hw'. apply Hno. now right. }
  destruct (store_le_get_inv _ _ _ _ Hle Hx0) as (ws' & Hg & Hs).
  apply subseq_nil_r in Hs. subst ws'.
  exists st1. destruct (variables cw) as [|v0 vs] eqn:Ev; [destruct Hx|].
  cbn [List.length].
  apply (backtrack_empty_domain cw (List.length vs) [] st1 x).
  - split; [rewrite Hst1; exact (variables_nodup Hwf)|].
    split; [constructor | intros y []].
  - eapply small_domains_le; [exact Hle | apply initial_small_domains; exact Hlen].
  - apply dict_get_In. exact Hg.
  - reflexivity.
Qed.

Lemma solve_without_fitting_word_witness :
  exists st, solve short_pool_puzzle = Ret (None, st).
Proof.
  apply (solve_without_fitting_word short_pool_puzzle cat_down).
  - exact short_pool_puzzle_wf.
  - apply Nat.ltb_lt. vm_compute; reflexivity.
  - right; left; reflexivity.
  - intros w [<-|[<-|[]]]; discriminate.
Defined.

(** X22.  At most one word is tried per slot: once the trial of a word
    [w] for slot [s] has failed and is undone, the domain of [s] holds
    nothing but [w], so no other candidate passes the membership test; the
    rest of the loop makes no recursive call (it runs the same with any
    other recursive function in its place) and can only return [None]. *)
Theorem one_trial_per_slot (cw : Crossword) (fuel : nat) (s : Slot) (w : word)
        (rest : list word) (a : assignment) (st st1 st3 : domains) (v : bool)
        (current : list word) :
  ~ In w rest ->
  dict_get a s = None ->
  consistent cw a st = Ret (v, st1) ->
  order_domain_values cw s a st1 = Ret current ->
  In w current ->
  backtrack cw fuel (dict_set a s w) (dict_set st1 s [w]) = Ret (None, st3) ->
  (forall rec',
     backtrack_loop cw (backtrack cw fuel) s (w :: rest) a st =
     backtrack_loop cw rec' s rest a st3) /\
  (forall r st',
     backtrack_loop cw (backtrack cw fuel) s (w :: rest) a st = Ret (r, st') ->
     r = None).
Proof.
  intros Hnot Ha Ec Eo Hw Er.
  assert (Hstep : backtrack_loop cw (backtrack cw fuel) s (w :: rest) a st =
                  backtrack_loop cw (backtrack cw fuel) s rest a st3).
  { rewrite backtrack_loop_step, Ec. cbn [bind]. rewrite Eo. cbn [bind].
    replace (mem_word w current) with true by (symmetry; now apply mem_word_In).
    rewrite Er. cbn [bind]. now rewrite dict_del_set_fresh by exact Ha. }
  pose proof (backtrack_store_le cw _ _ _ _ _ Er) as Hle.
  destruct (store_le_get_inv _ _ s [w] Hle (dict_get_set_same _ _ _ _))
    as (ws & Hg & Hs).
  rewrite Hstep. split.
  - intros rec'.
    exact (proj1 (backtrack_loop_spent cw (backtrack cw fuel) rec' s w rest a Hnot
                                       st3 ws Hg Hs)).
  - exact (proj2 (backtrack_loop_spent cw (backtrack cw fuel) (backtrack cw fuel)
                                       s w rest a Hnot st3 ws Hg Hs)).
Qed.

Lemma one_trial_per_slot_witness :
  (forall rec',
     backtrack_loop ring_puzzle (backtrack ring_puzzle 3) ring_top
                    ["CCC"; "CAB"; "CCB"] [] ring_store =
     backtrack_loop ring_puzzle rec' ring_top ["CAB"; "CCB"] []
                    [(ring_top, []); (ring_bottom, ["BBA"; "BCA"]);
                     (ring_right, []); (ring_left, [])]) /\
  (forall r st',
     backtrack_loop ring_puzzle (backtrack ring_puzzle 3) ring_top
                    ["CCC"; "CAB"; "CCB"] [] ring_store = Ret (r, st') ->
     r = None).
Proof.
  apply (one_trial_per_slot ring_puzzle 3 ring_top "CCC" ["CAB"; "CCB"] []
           ring_store ring_store _ true ["CCC"; "CAB"; "CCB"]).
  - intros [H|[H|[]]]; discriminate.
  - reflexivity.
  - vm_compute; reflexivity.
  - vm_compute; reflexivity.
  - left; reflexivity.
  - vm_compute; reflexivity.
Defined.

(** X23.  The sort of [order_domain_values] is stable: words with the
    same score come out in the order they have in the domain. *)
Theorem order_domain_values_stable_order (cw : Crossword) (var : Slot)
        (a : assignment) (st : domains) (values l : list word) (s : nat) :
  dict_get st var = Some values -> order_domain_values cw var a st = Ret l ->
  filter (fun w => score cw var a st w =? s) l =
  filter (fun w => score cw var a st w =? s) values.
Proof.
  apply order_domain_values_stable.
Qed.

Lemma order_domain_values_stable_order_witness :
  order_domain_values ladder_puzzle top_across [] ladder_store
  = Ret ["BBCB"; "BCAA"; "AABB"] /\
  score ladder_puzzle top_across [] ladder_store "BCAA" = 3 /\
  score ladder_puzzle top_across [] ladder_store "AABB" = 3 /\
  filter (fun w => score ladder_puzzle top_across [] ladder_store w =? 3)
         ["BBCB"; "BCAA"; "AABB"] =
  filter (fun w => score ladder_puzzle top_across [] ladder_store w =? 3)
         ["BCAA"; "BBCB"; "AABB"].
Proof.
  split; [vm_compute; reflexivity|].
  split; [vm_compute; reflexivity|]. split; [vm_compute; reflexivity|].
  apply (order_domain_values_stable_order ladder_puzzle top_across [] ladder_store).
  - reflexivity.
  - vm_compute; reflexivity.
Defined.

(** X24.  A puzzle with a single slot for which the pool has a word of the
    right length (and fewer than 10000 of them): [solve] returns an
    assignment that gives the slot one of the pool words of its length,
    and leaves that word alone in the domain. *)
Theorem solve_single_slot_fitting_word (cw : Crossword) (x : Slot) :
  variables cw = [x] ->
  (exists w, In w (words cw) /\ String.length w = var_length x) ->
  List.length (filter (fun w' => String.length w' =? var_length x) (words cw))
  < min_val_size_init ->
  exists w,
    In w (words cw) /\ String.length w = var_length x /\
    solve cw = Ret (Some [(x, w)], [(x, [w])]).
Proof.
  intros Hv [w0 [Hin0 Hlen0]] Hsmall.
  destruct (filter (fun w' => String.length w' =? var_length x) (words cw))
    as [|w ws] eqn:Ef.
  - exfalso.
    assert (Hin : In w0 (filter (fun w' => String.length w' =? var_length x) (words cw))).
    { apply filter_In. split; [exact Hin0 | now apply Nat.eqb_eq]. }
    rewrite Ef in Hin. destruct Hin.
  - assert (Hin : In w (filter (fun w' => String.length w' =? var_length x) (words cw)))
      by (rewrite Ef; now left).
    apply filter_In in Hin. destruct Hin as [Hw Hl]. apply Nat.eqb_eq in Hl.
    exists w. split; [exact Hw|]. split; [exact Hl|].
    exact (solve_single_slot cw x w ws Hv Ef Hsmall).
Qed.

Lemma solve_single_slot_fitting_word_witness :
  exists w,
    In w (words single_puzzle) /\ String.length w = var_length cat_across /\
    solve single_puzzle = Ret (Some [(cat_across, w)], [(cat_across, [w])]).
Proof.
  apply (solve_single_slot_fitting_word single_puzzle cat_across).
  - reflexivity.
  - exists "CAT". split; [right; right; left; reflexivity | reflexivity].
  - apply Nat.ltb_lt. vm_compute; reflexivity.
Defined.

(** X25.  Propagation never loses a solution: for a well-formed puzzle
    with a solution over the pool in which crossing slots hold different
    words, the propagation phase of [solve] (node consistency, then
    [ac3]) returns [True] and keeps every word of that solution in the
    domain of its slot; and when it has pruned every domain to a single
    word, [solve] returns exactly that solution. *)
Theorem propagation_keeps_solutions (cw : Crossword) (sol : Slot -> word) :
  wf_crossword cw -> distinct_solution cw sol ->
  exists st',
    ac3 cw None (enforce_node_consistency (init_domains cw)) = Ret (true, st') /\
    (forall x, In x (variables cw) -> In (sol x) (dom st' x)) /\
    ((forall x, In x (variables cw) -> List.length (dom st' x) = 1) ->
     exists a,
       solve cw = Ret (Some a, st') /\
       forall x, In x (variables cw) -> dict_get a x = Some (sol x)).
Proof.
  intros Hwf Hsol.
  pose proof (initial_store_of cw) as Hst.
  assert (Hix : indexable cw (enforce_node_consistency (init_domains cw)))
    by (apply node_consistent_indexable; [exact Hwf | apply enforce_node_consistent]).
  destruct (ac3_total cw _ Hix Hst) as [b [st' E]].
  pose proof E as E'. unfold ac3 in E'.
  apply (ac3_loop_keeps cw sol Hsol) in E';
    [|apply initial_keeps; exact Hsol | apply initial_arcs_of_puzzle; exact Hst].
  destruct E' as [Hk ->]. exists st'.
  assert (Hsolve : solve cw = backtrack cw (List.length (variables cw)) [] st')
    by (unfold solve; rewrite E; reflexivity).
  split; [exact E|]. split; [exact Hk|].
  intros Hone.
  pose proof (ac3_store_le cw _ _ _ _ E) as Hle.
  assert (Hst' : store_of cw st') by (eapply store_le_store_of; eauto).
  destruct (solve_single_words cw st' Hwf Hst') as [a [Hb Hv]].
  - eapply store_le_indexable; eauto.
  - apply (ac3_revise_fixed cw Hwf _ _ Hst Hix E).
  - intros x Hx. specialize (Hone x Hx). unfold dom in Hone.
    destruct (dict_get st' x) as [ws|] eqn:Eg; [|discriminate].
    destruct ws as [|w [|w' ws]]; try discriminate. eauto.
  - exists a. split; [rewrite Hsolve; exact Hb|].
    intros x Hx. destruct (Hv x Hx) as [w [Ea Ed]]. rewrite Ea.
    specialize (Hk x Hx). rewrite Ed in Hk. destruct Hk as [->|[]]. reflexivity.
Qed.

Lemma propagation_keeps_solutions_witness :
  exists a,
    (exists st, solve cat_puzzle = Ret (Some a, st)) /\
    dict_get a cat_across = Some "CAT" /\ dict_get a cat_down = Some "CO".
Proof.
  destruct (propagation_keeps_solutions cat_puzzle cat_solution cat_puzzle_wf
                                        cat_solution_distinct)
    as [st' [E [_ Hsingle]]].
  assert (Est : st' = [(cat_across, ["CAT"]); (cat_down, ["CO"])])
    by (vm_compute in E; inversion E; reflexivity).
  subst st'.
  destruct Hsingle as [a [Ha Hv]].
  - intros x Hx. simpl in Hx. destruct Hx as [<-|[<-|[]]]; reflexivity.
  - exists a. split; [eauto|]. split.
    + apply (Hv cat_across). simpl. auto.
    + apply (Hv cat_down). simpl. auto.
Defined.
